(** * Docker CC container pool: stream parser, configuration, registry,
      health monitor, runner and pool manager

    A shallow embedding of the TypeScript sources under
    [src/agents/docker-cc/] and of the properties its specification states
    about them.

    Conventions used throughout:
    - a JavaScript string is a list of characters ([list ascii]) where the
      code inspects its characters (parser, slug), and a [string] where it
      is only compared (names, session keys);
    - JavaScript numbers that hold counters, sizes and millisecond
      timestamps are integers ([Z]);
    - [undefined]/[null] are [None];
    - a [Map] is a [gmap], a [Set] is a [gset];
    - code that throws returns [Err]; state changed before the throw is
      kept. *)

From Stdlib Require Import ZArith QArith Ascii String List Bool Lia.
From Stdlib Require Import DecimalString DecimalPos.
From stdpp Require Import gmap strings list fin_maps.

Local Open Scope Z_scope.

(* ===================================================================== *)
(** * JSON texts                                                          *)
(* ===================================================================== *)

(** [JSON.parse] is a built-in of the language.  The parser below is
    generic in it; this module gives a decoder for the JSON grammar
    (RFC 8259) so that the parser can be run on concrete texts.  Numbers
    and string contents are kept as written. *)
Module JSON.

Local Open Scope char_scope.
#[local] Set Warnings "-register-all".

Inductive value :=
| Null
| Bool (b : bool)
| Number (raw : list ascii)
| Str (raw : list ascii)
| Array (items : list value)
| Object (members : list (list ascii * value)).

Definition isWs (c : ascii) : bool :=
  match c with
  | " " | "009" | "010" | "013" => true
  | _ => false
  end.

Fixpoint skipWs (s : list ascii) : list ascii :=
  match s with
  | c :: r => if isWs c then skipWs r else s
  | [] => []
  end.

Definition isDigit (c : ascii) : bool :=
  let n := nat_of_ascii c in (48 <=? n)%nat && (n <=? 57)%nat.

Definition isHex (c : ascii) : bool :=
  let n := nat_of_ascii c in
  isDigit c || ((65 <=? n)%nat && (n <=? 70)%nat)
            || ((97 <=? n)%nat && (n <=? 102)%nat).

Fixpoint spanDigits (s : list ascii) : list ascii * list ascii :=
  match s with
  | c :: r =>
      if isDigit c then let '(ds, rest) := spanDigits r in (c :: ds, rest)
      else ([], s)
  | [] => ([], [])
  end.

(** One or more digits. *)
Definition digits1 (s : list ascii) : option (list ascii * list ascii) :=
  match spanDigits s with
  | ([], _) => None
  | r => Some r
  end.

Definition parseInt (s : list ascii) : option (list ascii * list ascii) :=
  match s with
  | "0" :: r => Some (["0"], r)
  | _ => digits1 s
  end.

Definition parseFrac (s : list ascii) : option (list ascii * list ascii) :=
  match s with
  | "." :: r =>
      match digits1 r with
      | Some (ds, rest) => Some ("." :: ds, rest)
      | None => None
      end
  | _ => Some ([], s)
  end.

Definition parseExp (s : list ascii) : option (list ascii * list ascii) :=
  let body (e : ascii) (r : list ascii) :=
    let '(sign, r1) :=
      match r with
      | "+" :: r1 => (["+"], r1)
      | "-" :: r1 => (["-"], r1)
      | _ => ([], r)
      end in
    match digits1 r1 with
    | Some (ds, rest) => Some (e :: sign ++ ds, rest)
    | None => None
    end in
  match s with
  | "e" :: r => body "e" r
  | "E" :: r => body "E" r
  | _ => Some ([], s)
  end.

Definition parseNumber (s : list ascii) : option (list ascii * list ascii) :=
  let '(sign, s1) := match s with "-" :: r => (["-"], r) | _ => ([], s) end in
  match parseInt s1 with
  | None => None
  | Some (i, s2) =>
      match parseFrac s2 with
      | None => None
      | Some (f, s3) =>
          match parseExp s3 with
          | None => None
          | Some (e, s4) => Some (sign ++ i ++ f ++ e, s4)
          end
      end
  end.

(** The characters of a string after its opening quote, up to the closing
    quote. *)
Fixpoint parseChars (s : list ascii) : option (list ascii * list ascii) :=
  match s with
  | [] => None
  | "034" :: r => Some ([], r)
  | "\" :: "u" :: h1 :: h2 :: h3 :: h4 :: r =>
      if isHex h1 && isHex h2 && isHex h3 && isHex h4 then
        match parseChars r with
        | Some (cs, rest) => Some ("\" :: "u" :: h1 :: h2 :: h3 :: h4 :: cs, rest)
        | None => None
        end
      else None
  | "\" :: e :: r =>
      match e with
      | "034" | "\" | "/" | "b" | "f" | "n" | "r" | "t" =>
          match parseChars r with
          | Some (cs, rest) => Some ("\" :: e :: cs, rest)
          | None => None
          end
      | _ => None
      end
  | c :: r =>
      if (nat_of_ascii c <? 32)%nat then None
      else match parseChars r with
           | Some (cs, rest) => Some (c :: cs, rest)
           | None => None
           end
  end.

Fixpoint parseValue (fuel : nat) (s : list ascii) : option (value * list ascii) :=
  match fuel with
  | O => None
  | S fuel' =>
      match skipWs s with
      | "n" :: "u" :: "l" :: "l" :: r => Some (Null, r)
      | "t" :: "r" :: "u" :: "e" :: r => Some (Bool true, r)
      | "f" :: "a" :: "l" :: "s" :: "e" :: r => Some (Bool false, r)
      | "034" :: r =>
          match parseChars r with
          | Some (cs, rest) => Some (Str cs, rest)
          | None => None
          end
      | "[" :: r =>
          match skipWs r with
          | "]" :: rest => Some (Array [], rest)
          | _ =>
              match parseElements fuel' r with
              | Some (items, rest) => Some (Array items, rest)
              | None => None
              end
          end
      | "{" :: r =>
          match skipWs r with
          | "}" :: rest => Some (Object [], rest)
          | _ =>
              match parseMembers fuel' r with
              | Some (members, rest) => Some (Object members, rest)
              | None => None
              end
          end
      | s' =>
          match parseNumber s' with
          | Some (raw, rest) => Some (Number raw, rest)
          | None => None
          end
      end
  end
with parseElements (fuel : nat) (s : list ascii)
  : option (list value * list ascii) :=
  match fuel with
  | O => None
  | S fuel' =>
      match parseValue fuel' s with
      | None => None
      | Some (v, r) =>
          match skipWs r with
          | "]" :: rest => Some ([v], rest)
          | "," :: rest =>
              match parseElements fuel' rest with
              | Some (vs, rest') => Some (v :: vs, rest')
              | None => None
              end
          | _ => None
          end
      end
  end
with parseMembers (fuel : nat) (s : list ascii)
  : option (list (list ascii * value) * list ascii) :=
  match fuel with
  | O => None
  | S fuel' =>
      match skipWs s with
      | "034" :: r =>
          match parseChars r with
          | None => None
          | Some (key, r1) =>
              match skipWs r1 with
              | ":" :: r2 =>
                  match parseValue fuel' r2 with
                  | None => None
                  | Some (v, r3) =>
                      match skipWs r3 with
                      | "}" :: rest => Some ([(key, v)], rest)
                      | "," :: rest =>
                          match parseMembers fuel' rest with
                          | Some (ms, rest') => Some ((key, v) :: ms, rest')
                          | None => None
                          end
                      | _ => None
                      end
                  end
              | _ => None
              end
          end
      | _ => None
      end
  end.

(** [JSON.parse(text)]; [None] when it throws [SyntaxError]. *)
Definition parse (text : list ascii) : option value :=
  match parseValue (2 * length text + 2) text with
  | Some (v, rest) =>
      match skipWs rest with
      | [] => Some v
      | _ => None
      end
  | None => None
  end.

(** A string literal as a JavaScript string. *)
Definition js (s : string) : list ascii := list_ascii_of_string s.

(** The same, with every apostrophe of the literal standing for a double
    quote, to write JSON texts legibly. *)
Definition jq (s : string) : list ascii :=
  map (λ c, if Ascii.eqb c "'" then "034" else c) (js s).

End JSON.

(* ===================================================================== *)
(** * Stream parser  ([stream-parser.ts])                                 *)
(* ===================================================================== *)

Module StreamParser.

Definition open_brace : ascii := "{"%char.
Definition close_brace : ascii := "}"%char.

(** [String.prototype.indexOf] for a single character; [-1] is [None]. *)
Fixpoint indexOf (c : ascii) (s : list ascii) : option nat :=
  match s with
  | [] => None
  | x :: r => if Ascii.eqb x c then Some 0%nat else S <$> indexOf c r
  end.

(** The fields of the [StreamParser] class. *)
Record Parser := mkParser {
  buffer : list ascii;
  inJson : bool;
  braceCount : Z;
  scanPosition : nat
}.

(** [new StreamParser()]. *)
Definition fresh : Parser :=
  {| buffer := []; inJson := false; braceCount := 0; scanPosition := 0 |}.

(** [reset()]. *)
Definition reset (p : Parser) : Parser := fresh.

(** [hasPending()]. *)
Definition hasPending (p : Parser) : bool :=
  negb (length (buffer p) =? 0)%nat.

(** The [for] loop of [feed]: [rest] is the part of the buffer from index
    [i] on, [bc] is [braceCount].  The result is the index of the brace
    that closed the object, if any, and the brace count on leaving the
    loop. *)
Fixpoint scanLoop (rest : list ascii) (i : nat) (bc : Z) : option nat * Z :=
  match rest with
  | [] => (None, bc)
  | c :: rest' =>
      if Ascii.eqb c open_brace then scanLoop rest' (S i) (bc + 1)
      else if Ascii.eqb c close_brace then
        let bc' := bc - 1 in
        if bc' =? 0 then (Some i, bc') else scanLoop rest' (S i) bc'
      else scanLoop rest' (S i) bc
  end.

Section Feed.

(** The decoded message type and [JSON.parse], [None] when it throws. *)
Context {Msg : Type}.
Variable JSON_parse : list ascii -> option Msg.

(** [results.push(obj)] inside [try]/[catch]. *)
Definition pushParsed (results : list Msg) (jsonStr : list ascii) : list Msg :=
  match JSON_parse jsonStr with
  | Some obj => results ++ [obj]
  | None => results
  end.

(** The [while] loop of [feed].  Every iteration that does not [break]
    removes at least one character from the buffer, so the loop is
    given [fuel] iterations; [None] means the fuel ran out. *)
Fixpoint feedLoop (fuel : nat) (p : Parser) (results : list Msg)
  : option (Parser * list Msg) :=
  match fuel with
  | O => None
  | S fuel' =>
      if (length (buffer p) =? 0)%nat then Some (p, results)
      else
        (* if (!this.inJson) { ... } *)
        let located : option Parser :=
          if negb (inJson p) then
            match indexOf open_brace (buffer p) with
            | None => None
            | Some idx =>
                Some {| buffer := drop idx (buffer p); inJson := true;
                        braceCount := 0; scanPosition := 0 |}
            end
          else Some p in
        match located with
        | None =>
            Some ({| buffer := []; inJson := inJson p;
                     braceCount := braceCount p; scanPosition := 0 |},
                  results)
        | Some p1 =>
            match scanLoop (drop (scanPosition p1) (buffer p1))
                           (scanPosition p1) (braceCount p1) with
            | (Some i, bc) =>
                let jsonStr := take (S i) (buffer p1) in
                feedLoop fuel'
                  {| buffer := drop (S i) (buffer p1); inJson := false;
                     braceCount := bc; scanPosition := 0 |}
                  (pushParsed results jsonStr)
            | (None, bc) =>
                Some ({| buffer := buffer p1; inJson := inJson p1;
                         braceCount := bc;
                         scanPosition := length (buffer p1) |},
                      results)
            end
        end
  end.

(** [feed(data)]: the new parser state and the returned [results]. *)
Definition feed (p : Parser) (data : list ascii) : option (Parser * list Msg) :=
  let buf := buffer p ++ data in
  feedLoop (S (length buf))
    {| buffer := buf; inJson := inJson p; braceCount := braceCount p;
       scanPosition := scanPosition p |} [].

(** Successive calls of [feed], one per chunk, with everything they
    returned in call order. *)
Fixpoint feedAll (p : Parser) (chunks : list (list ascii))
  : option (Parser * list Msg) :=
  match chunks with
  | [] => Some (p, [])
  | d :: rest =>
      match feed p d with
      | None => None
      | Some (p1, out1) =>
          match feedAll p1 rest with
          | None => None
          | Some (p2, out2) => Some (p2, out1 ++ out2)
          end
      end
  end.

(** ** The parser as a character automaton

    Between two calls of [feed] the parser is "at rest": outside an
    object its buffer is empty, inside one everything buffered has been
    scanned. *)
Definition Rested (p : Parser) : Prop :=
  if inJson p then scanPosition p = length (buffer p) else buffer p = [].

Definition parsed (jsonStr : list ascii) : list Msg := pushParsed [] jsonStr.

(** What one more character does to a parser at rest. *)
Definition stepChar (p : Parser) (c : ascii) : Parser * list Msg :=
  if inJson p then
    let buf := buffer p ++ [c] in
    if Ascii.eqb c open_brace then
      ({| buffer := buf; inJson := true; braceCount := braceCount p + 1;
          scanPosition := length buf |}, [])
    else if Ascii.eqb c close_brace then
      if braceCount p - 1 =? 0 then
        ({| buffer := []; inJson := false; braceCount := braceCount p - 1;
            scanPosition := 0 |}, parsed buf)
      else
        ({| buffer := buf; inJson := true; braceCount := braceCount p - 1;
            scanPosition := length buf |}, [])
    else
      ({| buffer := buf; inJson := true; braceCount := braceCount p;
          scanPosition := length buf |}, [])
  else if Ascii.eqb c open_brace then
    ({| buffer := [c]; inJson := true; braceCount := 1; scanPosition := 1 |}, [])
  else
    ({| buffer := []; inJson := false; braceCount := braceCount p;
        scanPosition := 0 |}, []).

Fixpoint run (p : Parser) (data : list ascii) : Parser * list Msg :=
  match data with
  | [] => (p, [])
  | c :: rest =>
      let '(p1, o1) := stepChar p c in
      let '(p2, o2) := run p1 rest in
      (p2, o1 ++ o2)
  end.

Lemma pushParsed_app (acc : list Msg) (s : list ascii) :
  pushParsed acc s = acc ++ parsed s.
Proof.
  unfold parsed, pushParsed. destruct (JSON_parse s); simpl; [done|].
  by rewrite app_nil_r.
Qed.

Lemma run_app (p : Parser) (a b : list ascii) :
  run p (a ++ b) =
  let '(p1, o1) := run p a in
  let '(p2, o2) := run p1 b in (p2, o1 ++ o2).
Proof.
  revert p. induction a as [|c a IH]; intros p; simpl.
  - by destruct (run p b).
  - destruct (stepChar p c) as [p1 o1]. rewrite IH.
    destruct (run p1 a) as [p2 o2]. destruct (run p2 b) as [p3 o3].
    by rewrite app_assoc.
Qed.

Lemma stepChar_Rested (p : Parser) (c : ascii) :
  Rested (stepChar p c).1.
Proof.
  unfold stepChar, Rested.
  repeat (case_match; simpl in *; try done).
Qed.

Lemma run_Rested (p : Parser) (data : list ascii) :
  Rested p → Rested (run p data).1.
Proof.
  revert p. induction data as [|c data IH]; intros p Hp; simpl; [done|].
  pose proof (stepChar_Rested p c) as H1.
  destruct (stepChar p c) as [p1 o1]. specialize (IH p1 H1).
  by destruct (run p1 data).
Qed.

(** The parser outside any object, as [feed] leaves it after a closed
    object. *)
Definition idle : Parser :=
  {| buffer := []; inJson := false; braceCount := 0; scanPosition := 0 |}.

Lemma eqb_char_eq (c d : ascii) : Ascii.eqb c d = true → c = d.
Proof. apply Ascii.eqb_eq. Qed.

(** The [for] loop agrees with the automaton run over the unscanned
    part of the buffer. *)
Lemma scanLoop_run (rest pre : list ascii) (bc : Z) :
  match scanLoop rest (length pre) bc with
  | (None, bc') =>
      run {| buffer := pre; inJson := true; braceCount := bc;
             scanPosition := length pre |} rest
      = ({| buffer := pre ++ rest; inJson := true; braceCount := bc';
            scanPosition := length (pre ++ rest) |}, [])
  | (Some i, bc') =>
      ∃ r1 r2, rest = r1 ++ close_brace :: r2
        ∧ i = (length pre + length r1)%nat
        ∧ bc' = 0
        ∧ run {| buffer := pre; inJson := true; braceCount := bc;
                 scanPosition := length pre |} rest
          = ((run idle r2).1,
             parsed (pre ++ r1 ++ [close_brace]) ++ (run idle r2).2)
  end.
Proof.
  revert pre bc. induction rest as [|c rest IH]; intros pre bc.
  - simpl. by rewrite app_nil_r.
  - assert (Hlen : S (length pre) = length (pre ++ [c])).
    { rewrite length_app. simpl. lia. }
    cbn [scanLoop run]. unfold stepChar. cbn [inJson buffer braceCount].
    destruct (Ascii.eqb c open_brace) eqn:Ho.
    + rewrite Hlen. specialize (IH (pre ++ [c]) (bc + 1)).
      destruct (scanLoop rest (length (pre ++ [c])) (bc + 1)) as [[i|] bc'].
      * destruct IH as (r1 & r2 & -> & -> & -> & Hr).
        exists (c :: r1), r2. rewrite Hr. simpl.
        rewrite <- !app_assoc. simpl.
        repeat split; try done; rewrite ?length_app; simpl; lia.
      * rewrite IH. by rewrite <- !app_assoc.
    + destruct (Ascii.eqb c close_brace) eqn:Hc.
      * cbn zeta. destruct (bc - 1 =? 0) eqn:Hz.
        -- apply Z.eqb_eq in Hz. apply eqb_char_eq in Hc. subst c.
           exists [], rest. rewrite Hz. fold idle.
           destruct (run idle rest) as [q o] eqn:Hq. simpl.
           repeat split; try done; lia.
        -- rewrite Hlen. specialize (IH (pre ++ [c]) (bc - 1)).
           destruct (scanLoop rest (length (pre ++ [c])) (bc - 1)) as [[i|] bc'].
           ++ destruct IH as (r1 & r2 & -> & -> & -> & Hr).
              exists (c :: r1), r2. rewrite Hr. simpl.
              rewrite <- !app_assoc. simpl.
              repeat split; try done; rewrite ?length_app; simpl; lia.
           ++ rewrite IH. by rewrite <- !app_assoc.
      * rewrite Hlen. specialize (IH (pre ++ [c]) bc).
        destruct (scanLoop rest (length (pre ++ [c])) bc) as [[i|] bc'].
        -- destruct IH as (r1 & r2 & -> & -> & -> & Hr).
           exists (c :: r1), r2. rewrite Hr. simpl.
           rewrite <- !app_assoc. simpl.
           repeat split; try done; rewrite ?length_app; simpl; lia.
        -- rewrite IH. by rewrite <- !app_assoc.
Qed.

Definition noBrace (s : list ascii) : Prop :=
  Forall (λ c, Ascii.eqb c open_brace = false) s.

Lemma indexOf_None (data : list ascii) :
  indexOf open_brace data = None → noBrace data.
Proof.
  induction data as [|c data IH]; simpl; intros H; [constructor|].
  destruct (Ascii.eqb c open_brace) eqn:Hc; [done|].
  destruct (indexOf open_brace data); simpl in H; [done|].
  constructor; [done | by apply IH].
Qed.

Lemma indexOf_Some (data : list ascii) (idx : nat) :
  indexOf open_brace data = Some idx →
  ∃ noise rest, data = noise ++ open_brace :: rest
    ∧ length noise = idx ∧ noBrace noise.
Proof.
  revert idx. induction data as [|c data IH]; simpl; intros idx H; [done|].
  destruct (Ascii.eqb c open_brace) eqn:Hc.
  - apply eqb_char_eq in Hc. subst c. injection H as <-.
    exists [], data. repeat split. constructor.
  - destruct (indexOf open_brace data) as [j|]; simpl in H; [|done].
    injection H as <-. destruct (IH j eq_refl) as (noise & rest & -> & <- & Hn).
    exists (c :: noise), rest. repeat split. by constructor.
Qed.

(** Outside an object, characters other than the opener are dropped. *)
Lemma run_noise (p : Parser) (noise : list ascii) :
  inJson p = false → noBrace noise →
  run p noise =
  (match noise with
   | [] => p
   | _ => {| buffer := []; inJson := false; braceCount := braceCount p;
             scanPosition := 0 |}
   end, []).
Proof.
  revert p. induction noise as [|c noise IH]; intros p Hp Hn; [done|].
  inversion Hn as [|? ? Hc Hn']; subst.
  cbn [run]. unfold stepChar. rewrite Hp, Hc.
  rewrite IH by done. by destruct noise.
Qed.

(** Outside an object, the run up to and including the first opener
    leaves the parser inside a new object that holds only the opener. *)
Lemma run_locate (p : Parser) (noise rest : list ascii) :
  inJson p = false → noBrace noise →
  run p (noise ++ open_brace :: rest) =
  run {| buffer := [open_brace]; inJson := true; braceCount := 1;
         scanPosition := 1 |} rest.
Proof.
  intros Hp Hn. rewrite run_app, run_noise by done.
  assert (Hstep : ∀ q, inJson q = false →
    run q (open_brace :: rest)
    = run {| buffer := [open_brace]; inJson := true; braceCount := 1;
             scanPosition := 1 |} rest).
  { intros q Hq. cbn [run]. unfold stepChar. rewrite Hq. simpl.
    by destruct (run _ rest). }
  destruct noise; rewrite Hstep by done; by destruct (run _ rest).
Qed.

Lemma split_closed (pre r1 r2 : list ascii) :
  take (S (length pre + length r1)) (pre ++ r1 ++ close_brace :: r2)
    = pre ++ r1 ++ [close_brace]
  ∧ drop (S (length pre + length r1)) (pre ++ r1 ++ close_brace :: r2) = r2.
Proof.
  replace (pre ++ r1 ++ close_brace :: r2)
    with ((pre ++ r1 ++ [close_brace]) ++ r2)
    by (by rewrite <- !app_assoc).
  replace (S (length pre + length r1))
    with (length (pre ++ r1 ++ [close_brace]))
    by (rewrite !length_app; simpl; lia).
  by rewrite take_app_length, drop_app_length.
Qed.

Lemma scanLoop_opener (rest : list ascii) :
  scanLoop (open_brace :: rest) 0 0 = scanLoop rest 1 1.
Proof. done. Qed.

(** The [while] loop, started on a parser at rest whose buffer has just
    received [data], computes the automaton run over [data]. *)
Lemma feedLoop_run (fuel : nat) :
  ∀ (p : Parser) (data : list ascii) (acc : list Msg),
    Rested p → (length (buffer p ++ data) < fuel)%nat →
    feedLoop fuel
      {| buffer := buffer p ++ data; inJson := inJson p;
         braceCount := braceCount p; scanPosition := scanPosition p |} acc
    = Some ((run p data).1, acc ++ (run p data).2).
Proof.
  induction fuel as [|fuel IH]; intros p data acc Hr Hlen; [lia|].
  destruct p as [buf inj bc sp]. unfold Rested in Hr.
  cbn [buffer inJson braceCount scanPosition] in *.
  cbn [feedLoop buffer inJson braceCount scanPosition].
  destruct (length (buf ++ data) =? 0)%nat eqn:He.
  { apply Nat.eqb_eq in He. apply length_zero_iff_nil in He.
    apply app_eq_nil in He as [-> ->]. simpl. by rewrite app_nil_r. }
  apply Nat.eqb_neq in He.
  destruct inj; cbn [negb].
  - (* inside an object: resume the scan at [scanPosition] *)
    subst sp. cbn [buffer scanPosition braceCount inJson].
    rewrite drop_app_length.
    pose proof (scanLoop_run data buf bc) as Hs.
    destruct (scanLoop data (length buf) bc) as [[i|] bc'].
    + destruct Hs as (r1 & r2 & -> & -> & -> & Hrun).
      rewrite Hrun. cbn [fst snd].
      destruct (split_closed buf r1 r2) as [-> ->].
      specialize (IH idle r2 (pushParsed acc (buf ++ r1 ++ [close_brace]))).
      cbn [idle buffer inJson braceCount scanPosition app] in IH.
      rewrite IH.
      * by rewrite pushParsed_app, <- app_assoc.
      * done.
      * rewrite !length_app in Hlen. simpl in Hlen. lia.
    + by rewrite Hs, app_nil_r.
  - (* outside an object: look for the opener *)
    subst buf. cbn [app] in *.
    destruct (indexOf open_brace data) as [idx|] eqn:Hi.
    + destruct (indexOf_Some _ _ Hi) as (noise & rest & -> & <- & Hn).
      rewrite run_locate by done.
      cbn [buffer scanPosition braceCount inJson].
      rewrite drop_app_length, drop_0, scanLoop_opener.
      pose proof (scanLoop_run rest [open_brace] 1) as Hs.
      change (length [open_brace]) with 1%nat in Hs.
      destruct (scanLoop rest 1 1) as [[i|] bc'].
      * destruct Hs as (r1 & r2 & -> & -> & -> & Hrun).
        rewrite Hrun. cbn [fst snd].
        change (open_brace :: r1 ++ close_brace :: r2)
          with ([open_brace] ++ r1 ++ close_brace :: r2).
        change (S (1 + length r1))
          with (S (length [open_brace] + length r1)).
        destruct (split_closed [open_brace] r1 r2) as [-> ->].
        specialize (IH idle r2
          (pushParsed acc ([open_brace] ++ r1 ++ [close_brace]))).
        cbn [idle buffer inJson braceCount scanPosition] in IH.
        rewrite app_nil_l in IH. rewrite IH.
        -- by rewrite pushParsed_app, <- app_assoc.
        -- done.
        -- rewrite !length_app in Hlen. simpl in Hlen.
           rewrite length_app in Hlen. simpl in Hlen. lia.
      * by rewrite Hs, app_nil_r.
    + rewrite run_noise by (done || by apply indexOf_None).
      destruct data; [done|]. by rewrite app_nil_r.
Qed.

(** [feed] is total and computes the automaton run. *)
Lemma feed_run (p : Parser) (data : list ascii) :
  Rested p → feed p data = Some (run p data).
Proof.
  intros Hr. unfold feed. rewrite feedLoop_run by (done || lia).
  simpl. by destruct (run p data).
Qed.

Lemma feedAll_run (chunks : list (list ascii)) :
  ∀ p, Rested p → feedAll p chunks = Some (run p (concat chunks)).
Proof.
  induction chunks as [|d chunks IH]; intros p Hr; [done|].
  cbn [feedAll concat]. rewrite feed_run by done.
  pose proof (run_Rested p d Hr) as Hr1. rewrite run_app.
  destruct (run p d) as [p1 o1]. rewrite IH by done.
  by destruct (run p1 (concat chunks)).
Qed.

Lemma fresh_Rested : Rested fresh.
Proof. done. Qed.

(** C1.  Stream-parser split law: feeding [a ++ b] to a fresh parser
    returns the records that feeding [a] and then [b] returns, in the
    same order, and leaves the parser in the same state. *)
Theorem feed_split_law (a b : list ascii) :
  ∃ p1 out1 p2 out2,
    feed fresh a = Some (p1, out1)
    ∧ feed p1 b = Some (p2, out2)
    ∧ feed fresh (a ++ b) = Some (p2, out1 ++ out2).
Proof.
  pose proof (run_Rested fresh a fresh_Rested) as Hr1.
  pose proof (run_app fresh a b) as Happ.
  destruct (run fresh a) as [p1 out1] eqn:Ha.
  destruct (run p1 b) as [p2 out2] eqn:Hb.
  exists p1, out1, p2, out2.
  rewrite !feed_run by done || apply fresh_Rested.
  by rewrite Ha, Hb, Happ.
Qed.

(** ** Streams of records separated by noise *)

(** One record of the input stream: the noise in front of it, its text
    and the message its text decodes to. *)
Record Item := mkItem {
  noise : list ascii;
  text : list ascii;
  decoded : Msg
}.

Definition streamOf (items : list Item) : list ascii :=
  flat_map (λ it, noise it ++ text it) items.

(** The text begins with an opener and ends with a closer. *)
Definition delimited (r : list ascii) : bool :=
  match r, last r with
  | c :: _, Some d => Ascii.eqb c open_brace && Ascii.eqb d close_brace
  | _, _ => false
  end.

(** The statement of the specification: any noise, any record that is
    delimited by braces and decodes. *)
Definition emitsExactlyTheRecords : Prop :=
  ∀ (items : list Item) (chunks : list (list ascii)),
    Forall (λ it, delimited (text it) = true
                  ∧ JSON_parse (text it) = Some (decoded it)) items →
    concat chunks = streamOf items →
    ∃ p, feedAll fresh chunks = Some (p, map decoded items).

(** Noise without an opener. *)
Definition noOpener (s : list ascii) : bool :=
  forallb (λ c, negb (Ascii.eqb c open_brace)) s.

(** [closesAtEnd body depth]: counting every opener and closer of
    [body] from [depth], the count reaches zero at the last character
    of [body] and not before. *)
Fixpoint closesAtEnd (body : list ascii) (depth : Z) : bool :=
  match body with
  | [] => false
  | c :: rest =>
      if Ascii.eqb c open_brace then closesAtEnd rest (depth + 1)
      else if Ascii.eqb c close_brace then
        if depth - 1 =? 0 then
          match rest with [] => true | _ => false end
        else closesAtEnd rest (depth - 1)
      else closesAtEnd rest depth
  end.

(** A record whose braces balance for the raw counter: it starts with
    an opener and its count of openers minus closers, taken over every
    character, first returns to zero at its last character. *)
Definition balanced (r : list ascii) : bool :=
  match r with
  | c :: body => Ascii.eqb c open_brace && closesAtEnd body 1
  | [] => false
  end.

Lemma noOpener_noBrace (s : list ascii) : noOpener s = true → noBrace s.
Proof.
  unfold noOpener, noBrace. rewrite forallb_forall, Forall_forall.
  intros H c Hc. apply list_elem_of_In in Hc. apply H in Hc.
  by destruct (Ascii.eqb c open_brace).
Qed.

Lemma run_closes (body pre : list ascii) (bc : Z) :
  closesAtEnd body bc = true →
  run {| buffer := pre; inJson := true; braceCount := bc;
         scanPosition := length pre |} body
  = (idle, parsed (pre ++ body)).
Proof.
  revert pre bc. induction body as [|c body IH]; intros pre bc H; [done|].
  assert (Hlen : S (length pre) = length (pre ++ [c])).
  { rewrite length_app. simpl. lia. }
  cbn [closesAtEnd] in H. cbn [run]. unfold stepChar.
  cbn [inJson buffer braceCount].
  destruct (Ascii.eqb c open_brace).
  - rewrite (IH (pre ++ [c]) (bc + 1) H).
    by rewrite <- app_assoc.
  - destruct (Ascii.eqb c close_brace).
    + destruct (bc - 1 =? 0) eqn:Hz.
      * destruct body; [|done]. apply Z.eqb_eq in Hz. rewrite Hz.
        simpl. by rewrite app_nil_r.
      * rewrite (IH (pre ++ [c]) (bc - 1) H).
        by rewrite <- app_assoc.
    + rewrite (IH (pre ++ [c]) bc H). by rewrite <- app_assoc.
Qed.

Lemma run_record (p : Parser) (nz r : list ascii) :
  inJson p = false → noOpener nz = true → balanced r = true →
  run p (nz ++ r) = (idle, parsed r).
Proof.
  intros Hp Hn Hb. destruct r as [|c body]; [done|].
  apply andb_prop in Hb as [Hc Hb]. apply eqb_char_eq in Hc. subst c.
  rewrite run_locate by (done || by apply noOpener_noBrace).
  pose proof (run_closes body [open_brace] 1 Hb) as Hrun.
  change (length [open_brace]) with 1%nat in Hrun. by rewrite Hrun.
Qed.

Lemma run_items (items : list Item) :
  ∀ p, inJson p = false →
  Forall (λ it, noOpener (noise it) = true
                ∧ balanced (text it) = true
                ∧ JSON_parse (text it) = Some (decoded it)) items →
  (run p (streamOf items)).2 = map decoded items.
Proof.
  induction items as [|it items IH]; intros p Hp Hall; [done|].
  inversion Hall as [|? ? (Hn & Hb & Hd) Hall']; subst.
  cbn [streamOf flat_map map]. rewrite run_app.
  rewrite run_record by done.
  specialize (IH idle eq_refl Hall'). fold (streamOf items).
  destruct (run idle (streamOf items)) as [q o]. simpl in *.
  unfold parsed, pushParsed. by rewrite Hd, IH.
Qed.

(** C7, as the code has it.  For an input made of records whose braces
    balance for the raw counter and which decode, each preceded by
    noise without an opener, feeding the input in any chunking returns
    exactly the decoded records, in input order, once each. *)
Theorem feed_chunked_records (items : list Item) (chunks : list (list ascii)) :
  Forall (λ it, noOpener (noise it) = true
                ∧ balanced (text it) = true
                ∧ JSON_parse (text it) = Some (decoded it)) items →
  concat chunks = streamOf items →
  ∃ p, feedAll fresh chunks = Some (p, map decoded items).
Proof.
  intros Hall Hcat. rewrite feedAll_run by apply fresh_Rested.
  rewrite Hcat. pose proof (run_items items fresh eq_refl Hall) as Hout.
  destruct (run fresh (streamOf items)) as [p out]. simpl in Hout.
  subst out. by exists p.
Qed.

End Feed.

(** ** Further laws of the parser *)

Section FeedLaws.

Context {Msg : Type}.
Variable JSON_parse : list ascii -> option Msg.

(** [parseStream], for a stream that yields strings: everything the
    generator yields, in order. *)
Definition parseStream (stream : list (list ascii)) : option (list Msg) :=
  snd <$> feedAll JSON_parse fresh stream.

(** X1.  The messages that [parseStream] yields are those that one call of
    [feed] on the whole text returns: they do not depend on where the
    stream is cut into chunks. *)
Theorem parseStream_whole_text (stream : list (list ascii)) :
  ∃ p out,
    feed JSON_parse fresh (concat stream) = Some (p, out)
    ∧ parseStream stream = Some out.
Proof.
  unfold parseStream.
  rewrite feedAll_run, feed_run by apply fresh_Rested.
  destruct (run JSON_parse fresh (concat stream)) as [p out].
  by exists p, out.
Qed.

(** A stream of brace-balanced texts, each after noise without an
    opener, some of which do not decode. *)
Definition streamOfTexts (records : list (list ascii * list ascii))
  : list ascii :=
  flat_map (λ r, r.1 ++ r.2) records.

Lemma run_texts (records : list (list ascii * list ascii)) :
  ∀ p, inJson p = false →
  Forall (λ r, noOpener r.1 = true ∧ balanced r.2 = true) records →
  run JSON_parse p (streamOfTexts records)
  = (match records with [] => p | _ => idle end,
     omap JSON_parse (map snd records)).
Proof.
  induction records as [|[nz r] records IH]; intros p Hp Hall; [done|].
  inversion Hall as [|? ? [Hn Hb] Hall']; subst. simpl in Hn, Hb.
  cbn [streamOfTexts flat_map map fst snd]. rewrite run_app.
  rewrite run_record by done.
  specialize (IH idle eq_refl Hall'). fold (streamOfTexts records).
  rewrite IH. cbn [omap list_omap]. unfold parsed, pushParsed.
  destruct (JSON_parse r); by destruct records.
Qed.

(** X2.  A text between balanced braces that [JSON.parse] rejects is dropped
    without an error and without any effect on the texts around it: the
    parser returns, in order, the messages of the texts that decode, and
    nothing is left pending. *)
Theorem feed_skips_undecodable (records : list (list ascii * list ascii))
    (chunks : list (list ascii)) :
  Forall (λ r, noOpener r.1 = true ∧ balanced r.2 = true) records →
  concat chunks = streamOfTexts records →
  ∃ p, feedAll JSON_parse fresh chunks
       = Some (p, omap JSON_parse (map snd records))
    ∧ hasPending p = false.
Proof.
  intros Hall Hcat. rewrite feedAll_run by apply fresh_Rested.
  rewrite Hcat, (run_texts records fresh eq_refl Hall).
  eexists. split; [reflexivity|]. by destruct records.
Qed.

(** Openers minus closers. *)
Fixpoint depth (s : list ascii) : Z :=
  match s with
  | [] => 0
  | c :: r =>
      (if Ascii.eqb c open_brace then 1
       else if Ascii.eqb c close_brace then -1 else 0) + depth r
  end.

Lemma depth_app (a b : list ascii) : depth (a ++ b) = depth a + depth b.
Proof. induction a as [|c a IH]; simpl; [done|]. rewrite IH. lia. Qed.

(** What holds of the parser between two calls of [feed]: outside an
    object nothing is buffered; inside one the buffer starts with the
    opener, all of it has been scanned, and [braceCount] is the number
    of its openers minus that of its closers, which is positive. *)
Definition Consistent (p : Parser) : Prop :=
  if inJson p then
    head (buffer p) = Some open_brace
    ∧ scanPosition p = length (buffer p)
    ∧ braceCount p = depth (buffer p)
    ∧ 1 <= braceCount p
  else buffer p = [].

Lemma stepChar_Consistent (p : Parser) (c : ascii) :
  Consistent p → Consistent (stepChar JSON_parse p c).1.
Proof.
  unfold Consistent, stepChar. destruct (inJson p) eqn:Hin.
  - intros (Hhead & Hscan & Hbc & Hpos).
    assert (Hh : head (buffer p ++ [c]) = Some open_brace)
      by (by destruct (buffer p)).
    destruct (Ascii.eqb c open_brace) eqn:Ho; cbn.
    + rewrite depth_app. cbn. rewrite Ho. repeat split; [done|lia|lia].
    + destruct (Ascii.eqb c close_brace) eqn:Hc.
      * destruct (braceCount p - 1 =? 0) eqn:Hz; cbn; [done|].
        apply Z.eqb_neq in Hz. rewrite depth_app. cbn. rewrite Ho, Hc.
        repeat split; [done|lia|lia].
      * cbn. rewrite depth_app. cbn. rewrite Ho, Hc.
        repeat split; [done|lia|lia].
  - intros Hbuf. destruct (Ascii.eqb c open_brace) eqn:Ho; cbn; [|done].
    apply eqb_char_eq in Ho. subst c. by repeat split.
Qed.

Lemma run_Consistent (data : list ascii) :
  ∀ p, Consistent p → Consistent (run JSON_parse p data).1.
Proof.
  induction data as [|c data IH]; intros p Hp; [done|].
  cbn [run]. pose proof (stepChar_Consistent p c Hp) as H1.
  destruct (stepChar JSON_parse p c) as [p1 o1]. specialize (IH p1 H1).
  by destruct (run JSON_parse p1 data).
Qed.

(** X3.  After any number of calls of [feed] on a new parser, [hasPending]
    answers true exactly when the input ended inside an object; the
    pending buffer then starts with the opener of that object and
    [braceCount] is its positive nesting depth.  Text outside an object
    is never kept. *)
Theorem hasPending_inside_object (chunks : list (list ascii)) :
  ∃ p out,
    feedAll JSON_parse fresh chunks = Some (p, out)
    ∧ hasPending p = inJson p
    ∧ (inJson p = true →
       head (buffer p) = Some open_brace
       ∧ braceCount p = depth (buffer p)
       ∧ 1 <= braceCount p).
Proof.
  rewrite feedAll_run by apply fresh_Rested.
  pose proof (run_Consistent (concat chunks) fresh eq_refl) as H.
  destruct (run JSON_parse fresh (concat chunks)) as [p out].
  exists p, out. split; [done|]. unfold Consistent in H. simpl in H.
  unfold hasPending. destruct (inJson p).
  - destruct H as (Hh & _ & Hbc & Hpos). split; [|done].
    by destruct (buffer p).
  - rewrite H. by split.
Qed.









End FeedLaws.

(** ** The parser on concrete JSON texts *)

Import JSON.
Local Open Scope string_scope.

(** A record whose string value holds a closer: valid JSON, delimited by
    braces. *)
Definition closerInString : Item :=
  {| noise := []; text := jq "{'a':'}'}";
     decoded := Object [(js "a", Str (js "}"))] |}.

(** C7, as stated, fails: the single record [{"a":"}"}], fed whole with
    no noise at all, is cut at the closer inside its string, fails to
    decode and is dropped. *)
Lemma emitsExactlyTheRecords_fails : ¬ emitsExactlyTheRecords JSON.parse.
Proof.
  intros H.
  destruct (H [closerInString] [text closerInString]) as [p Hp].
  - repeat constructor.
  - vm_compute. reflexivity.
  - vm_compute in Hp. discriminate Hp.
Qed.

(** Noise may not hold an opener either: [{] followed by the record [{}]
    returns nothing and leaves the three characters pending. *)
Example opener_in_noise :
  JSON.parse (js "{}") = Some (Object [])
  ∧ feed JSON.parse fresh (js "{" ++ js "{}")%list
    = Some ({| buffer := js "{{}"; inJson := true; braceCount := 1;
               scanPosition := 3 |}, []).
Proof. split; vm_compute; reflexivity. Qed.

(** [feed_chunked_records] on a stream of two records with log noise,
    cut into four chunks in the middle of the records. *)
Lemma feed_chunked_records_witness :
  ∃ p, feedAll JSON.parse fresh
         [js "log: "; jq "{'type':'assi"; jq "stant','n':{'k':[1,2]}} ok {'t";
          jq "ype':'result'}"]
       = Some (p, [Object [(js "type", Str (js "assistant"));
                           (js "n", Object [(js "k", Array [Number (js "1");
                                                            Number (js "2")])])];
                   Object [(js "type", Str (js "result"))]]).
Proof.
  apply (feed_chunked_records JSON.parse
    [ {| noise := js "log: ";
         text := jq "{'type':'assistant','n':{'k':[1,2]}}";
         decoded := Object [(js "type", Str (js "assistant"));
                            (js "n", Object [(js "k", Array [Number (js "1");
                                                             Number (js "2")])])] |};
      {| noise := js " ok ";
         text := jq "{'type':'result'}";
         decoded := Object [(js "type", Str (js "result"))] |} ]).
  - repeat constructor.
  - vm_compute. reflexivity.
Defined.

(** [feed_skips_undecodable] on three texts in three chunks: the second
    text, [{oops}], is not JSON. *)
Lemma feed_skips_undecodable_witness :
  ∃ p, feedAll JSON.parse fresh
         [jq "x{'a':1}"; jq " {oo"; jq "ps}{'b':2}"]
       = Some (p, [Object [(js "a", Number (js "1"))];
                   Object [(js "b", Number (js "2"))]])
    ∧ hasPending p = false.
Proof.
  apply (feed_skips_undecodable JSON.parse
           [(js "x", jq "{'a':1}"); (js " ", js "{oops}");
            ([], jq "{'b':2}")]).
  - repeat constructor.
  - vm_compute. reflexivity.
Defined.

(** ** Messages *)

(** A value that [JSON.parse] returns.  An object has every key once. *)
#[local] Set Warnings "-register-all".
Inductive Value :=
| VNull
| VBool (b : bool)
| VNum (n : Q)
| VStr (s : string)
| VArr (items : list Value)
| VObj (members : list (string * Value)).

(** A [StreamMessage] is an object, given by its members. *)
Definition Message : Type := list (string * Value).

(** [message.name]; [undefined] is [None]. *)
Fixpoint field (name : string) (members : Message) : option Value :=
  match members with
  | [] => None
  | (k, v) :: rest => if String.eqb k name then Some v else field name rest
  end.

(** [v.name] for a value that is not [null] or [undefined], for the
    names this module reads: only an object has them. *)
Definition get (name : string) (v : Value) : option Value :=
  match v with
  | VObj members => field name members
  | _ => None
  end.

(** [v?.name]. *)
Definition getOpt (name : string) (v : option Value) : option Value :=
  match v with
  | None | Some VNull => None
  | Some v => get name v
  end.

(** [a ?? b]. *)
Definition orNullish (a b : option Value) : option Value :=
  match a with
  | None | Some VNull => b
  | Some _ => a
  end.

(** [v === "s"]. *)
Definition isStr (s : string) (v : option Value) : bool :=
  match v with
  | Some (VStr t) => String.eqb t s
  | _ => false
  end.

(** [extractMessageType]. *)
Definition extractMessageType (message : Message) : Value :=
  let msgType := field "type" message in
  if isStr "message" msgType then
    let inner := field "message" message in
    default (VStr "unknown")
      (orNullish (getOpt "type" inner) (Some (VStr "unknown")))
  else
    default (VStr "unknown") (orNullish msgType (Some (VStr "unknown"))).

Record UsageInfo := mkUsageInfo {
  u_input_tokens : Value;
  u_output_tokens : Value
}.

(** The [data] of a formatted result message. *)
Record ResultInfo := mkResultInfo {
  ri_subtype : Value;
  ri_result : option Value;
  ri_usage : UsageInfo;
  ri_duration_ms : option Value;
  ri_session_id : option Value
}.

Inductive Data :=
| DataValue (v : Value)
| DataResult (r : ResultInfo).

(** [FormattedMessage]; a key that is absent or holds [undefined] is
    [None]. *)
Record FormattedMessage := mkFormatted {
  f_type : Value;
  f_message : option Value;
  f_tool : option Value;
  f_input : option Value;
  f_result : option Value;
  f_event : option Value;
  f_data : option Data
}.

(** [usage.input_tokens ?? usage.inputTokens ?? 0] and its like, for
    [usage = m.usage ?? {}]. *)
Definition usageOf (message : Message) : UsageInfo :=
  let usage := default (VObj []) (orNullish (field "usage" message) (Some (VObj []))) in
  {| u_input_tokens :=
       default (VNum 0)
         (orNullish (orNullish (get "input_tokens" usage) (get "inputTokens" usage))
                    (Some (VNum 0)));
     u_output_tokens :=
       default (VNum 0)
         (orNullish (orNullish (get "output_tokens" usage) (get "outputTokens" usage))
                    (Some (VNum 0))) |}.

Definition bare (type : Value) : FormattedMessage :=
  {| f_type := type; f_message := None; f_tool := None; f_input := None;
     f_result := None; f_event := None; f_data := None |}.

(** [formatForClient]. *)
Definition formatForClient (message : Message) : FormattedMessage :=
  let msgType := extractMessageType message in
  if isStr "assistant" (Some msgType) then
    {| f_type := VStr "assistant"; f_message := field "message" message;
       f_tool := None; f_input := None; f_result := None; f_event := None;
       f_data := None |}
  else if isStr "tool_use" (Some msgType) then
    {| f_type := VStr "tool_use"; f_message := None;
       f_tool := orNullish (field "tool" message) (field "name" message);
       f_input := field "input" message; f_result := None; f_event := None;
       f_data := None |}
  else if isStr "tool_result" (Some msgType) then
    {| f_type := VStr "tool_result"; f_message := None;
       f_tool := orNullish (field "tool" message) (field "name" message);
       f_input := None;
       f_result := orNullish (field "result" message) (field "output" message);
       f_event := None; f_data := None |}
  else if isStr "system" (Some msgType) then
    {| f_type := VStr "system"; f_message := None; f_tool := None;
       f_input := None; f_result := None;
       f_event :=
         orNullish (orNullish (field "subtype" message) (field "event" message))
                   (Some (VStr "system"));
       f_data :=
         Some (DataValue
                 (default (VObj message)
                    (orNullish (field "data" message) (Some (VObj message))))) |}
  else if isStr "result" (Some msgType) then
    {| f_type := VStr "result"; f_message := None; f_tool := None;
       f_input := None; f_result := None; f_event := None;
       f_data :=
         Some (DataResult
                 {| ri_subtype :=
                      default (VStr "success")
                        (orNullish (field "subtype" message)
                                   (Some (VStr "success")));
                    ri_result := field "result" message;
                    ri_usage := usageOf message;
                    ri_duration_ms := field "duration_ms" message;
                    ri_session_id := field "session_id" message |}) |}
  else
    {| f_type := msgType; f_message := None; f_tool := None; f_input := None;
       f_result := None; f_event := None;
       f_data := Some (DataValue (VObj message)) |}.

(** [extractUsage]. *)
Definition extractUsage (message : Message) : UsageInfo :=
  if negb (isStr "result" (field "type" message))
  then {| u_input_tokens := VNum 0; u_output_tokens := VNum 0 |}
  else usageOf message.

(** [extractSessionId]. *)
Definition extractSessionId (message : Message) : option Value :=
  if negb (isStr "result" (field "type" message)) then None
  else field "session_id" message.

(** [isCompletionMessage]. *)
Definition isCompletionMessage (message : Message) : bool :=
  isStr "result" (field "type" message).

(** [isErrorMessage]. *)
Definition isErrorMessage (message : Message) : bool :=
  if isStr "error" (field "type" message) then true
  else if isStr "result" (field "type" message)
  then isStr "error" (field "subtype" message)
  else false.

Lemma isStr_true (s : string) (v : option Value) :
  isStr s v = true → v = Some (VStr s).
Proof.
  destruct v as [[]|]; simpl; try done. by intros ->%String.eqb_eq.
Qed.

(** The type of the formatted message is the type that
    [extractMessageType] finds, for every message: also for one that
    nests its type under [message], and for one without a type, which
    is formatted as [unknown]. *)
Theorem formatForClient_type (message : Message) :
  f_type (formatForClient message) = extractMessageType message.
Proof.
  unfold formatForClient.
  set (t := extractMessageType message).
  destruct (isStr "assistant" (Some t)) eqn:H1;
    [by apply isStr_true in H1 as [= ->]|].
  destruct (isStr "tool_use" (Some t)) eqn:H2;
    [by apply isStr_true in H2 as [= ->]|].
  destruct (isStr "tool_result" (Some t)) eqn:H3;
    [by apply isStr_true in H3 as [= ->]|].
  destruct (isStr "system" (Some t)) eqn:H4;
    [by apply isStr_true in H4 as [= ->]|].
  destruct (isStr "result" (Some t)) eqn:H5;
    [by apply isStr_true in H5 as [= ->]|].
  done.
Qed.

(** X4.  For a message whose own type is [result], the usage and the session
    id inside the formatted message are those that [extractUsage] and
    [extractSessionId] return; the message counts as complete, and as
    an error exactly when its subtype is [error]. *)
Theorem result_message_consistent (message : Message) :
  field "type" message = Some (VStr "result") →
  ∃ r, f_data (formatForClient message) = Some (DataResult r)
    ∧ ri_usage r = extractUsage message
    ∧ ri_session_id r = extractSessionId message
    ∧ isCompletionMessage message = true
    ∧ (isErrorMessage message = true
       ↔ field "subtype" message = Some (VStr "error")).
Proof.
  intros Ht.
  unfold formatForClient, extractMessageType, extractUsage, extractSessionId,
    isCompletionMessage, isErrorMessage.
  rewrite Ht. cbn. eexists. repeat split; try reflexivity.
  - apply isStr_true.
  - by intros ->.
Qed.

Lemma result_message_consistent_witness :
  let message :=
    [("type", VStr "result"); ("subtype", VStr "error");
     ("usage", VObj [("inputTokens", VNum 12); ("output_tokens", VNum 3)]);
     ("session_id", VStr "abc")] in
  ∃ r, f_data (formatForClient message) = Some (DataResult r)
    ∧ ri_usage r = extractUsage message
    ∧ ri_session_id r = extractSessionId message
    ∧ isCompletionMessage message = true
    ∧ (isErrorMessage message = true
       ↔ field "subtype" message = Some (VStr "error")).
Proof.
  apply (result_message_consistent
           [("type", VStr "result"); ("subtype", VStr "error");
            ("usage", VObj [("inputTokens", VNum 12); ("output_tokens", VNum 3)]);
            ("session_id", VStr "abc")]).
  reflexivity.
Defined.

(** A result nested under [message] is formatted as a result, with the
    usage of the outer object, while [extractUsage] answers zero. *)
Example nested_result_usage :
  let message :=
    [("type", VStr "message"); ("message", VObj [("type", VStr "result")]);
     ("usage", VObj [("input_tokens", VNum 7); ("output_tokens", VNum 2)])] in
  f_data (formatForClient message)
  = Some (DataResult
            {| ri_subtype := VStr "success"; ri_result := None;
               ri_usage := {| u_input_tokens := VNum 7;
                              u_output_tokens := VNum 2 |};
               ri_duration_ms := None; ri_session_id := None |})
  ∧ extractUsage message
    = {| u_input_tokens := VNum 0; u_output_tokens := VNum 0 |}.
Proof. split; reflexivity. Qed.

End StreamParser.

(* ===================================================================== *)
(** * Configuration  ([config.ts])                                        *)
(* ===================================================================== *)

Module Config.

Import JSON.
Local Open Scope string_scope.
Local Open Scope list_scope.
Local Open Scope Z_scope.

(** [DockerCCPoolConfig].  Counts and millisecond values are integers;
    [cpus] is the exact value of the double it holds. *)
Record DockerCCPoolConfig := mkConfig {
  enabled : bool;
  pool_minWarm : Z;
  pool_maxTotal : Z;
  pool_maxPerAgent : Z;
  image : string;
  resources_memory : string;
  resources_cpus : Q;
  resources_pidsLimit : Z;
  timeouts_idleMs : Z;
  timeouts_maxAgeMs : Z;
  timeouts_healthIntervalMs : Z;
  timeouts_startupMs : Z;
  redis_url : option string;
  redis_keyPrefix : string;
  docker_containerPrefix : string;
  docker_network : string;
  docker_capDrop : list string;
  docker_securityOpts : list string;
  docker_binds : option (list string);
  docker_env : option (list (string * string))
}.

Definition DEFAULT_DOCKER_CC_CONFIG : DockerCCPoolConfig :=
  {| enabled := false;
     pool_minWarm := 0;
     pool_maxTotal := 10;
     pool_maxPerAgent := 3;
     image := "clawdbot/docker-cc:latest";
     resources_memory := "4g";
     resources_cpus := 2;
     resources_pidsLimit := 256;
     timeouts_idleMs := 5 * 60 * 1000;
     timeouts_maxAgeMs := 60 * 60 * 1000;
     timeouts_healthIntervalMs := 10 * 1000;
     timeouts_startupMs := 30 * 1000;
     redis_url := None;
     redis_keyPrefix := "clawdbot:cc:";
     docker_containerPrefix := "clawdbot-cc-";
     docker_network := "clawdbot-net";
     docker_capDrop := ["ALL"];
     docker_securityOpts := ["no-new-privileges"];
     docker_binds := None;
     docker_env := None |}.

(** The double written [0.1]. *)
Definition double_0_1 : Q := 3602879701896397 # 36028797018963968.

(** [if (cond) errors.push(msg)]. *)
Definition pushIf (cond : bool) (msg : string) (errors : list string) : list string :=
  if cond then errors ++ [msg] else errors.

Record Validation := mkValidation { valid : bool; errors : list string }.

(** [validateDockerCCConfig]. *)
Definition validateDockerCCConfig (config : DockerCCPoolConfig) : Validation :=
  let errors := [] in
  let errors := pushIf (pool_minWarm config <? 0)
                  "pool.minWarm must be non-negative" errors in
  let errors := pushIf (pool_maxTotal config <? 1)
                  "pool.maxTotal must be at least 1" errors in
  let errors := pushIf (pool_minWarm config >? pool_maxTotal config)
                  "pool.minWarm cannot exceed pool.maxTotal" errors in
  let errors := pushIf (pool_maxPerAgent config <? 1)
                  "pool.maxPerAgent must be at least 1" errors in
  let errors := pushIf (String.eqb (image config) "")
                  "image is required" errors in
  let errors := pushIf (negb (Qle_bool double_0_1 (resources_cpus config)))
                  "resources.cpus must be at least 0.1" errors in
  let errors := pushIf (resources_pidsLimit config <? 10)
                  "resources.pidsLimit must be at least 10" errors in
  let errors := pushIf (timeouts_healthIntervalMs config <? 1000)
                  "timeouts.healthIntervalMs must be at least 1000ms" errors in
  let errors := pushIf (timeouts_startupMs config <? 5000)
                  "timeouts.startupMs must be at least 5000ms" errors in
  {| valid := (length errors =? 0)%nat; errors := errors |}.

(** ** Container names *)

Definition dash : ascii := "-"%char.
Definition isDash (c : ascii) : bool := Ascii.eqb c dash.

(** [String.prototype.toLowerCase] on a string whose code units are below
    256: the letters A-Z and the upper-case letters of Latin-1. *)
Definition lowerChar (c : ascii) : ascii :=
  let n := nat_of_ascii c in
  if ((65 <=? n) && (n <=? 90))%nat then ascii_of_nat (n + 32)
  else if ((192 <=? n) && (n <=? 222) && negb (n =? 215))%nat
       then ascii_of_nat (n + 32)
  else c.

Definition toLowerCase (s : list ascii) : list ascii := map lowerChar s.

(** The character class [[a-z0-9]]. *)
Definition isLowerAlnum (c : ascii) : bool :=
  let n := nat_of_ascii c in
  (((97 <=? n) && (n <=? 122)) || ((48 <=? n) && (n <=? 57)))%nat.

(** [.replace(/[^a-z0-9]/g, "-")]. *)
Definition replaceNonAlnum (s : list ascii) : list ascii :=
  map (λ c, if isLowerAlnum c then c else dash) s.

(** [.replace(/-+/g, "-")]: of every run of dashes one dash is left. *)
Fixpoint collapseDashes (s : list ascii) : list ascii :=
  match s with
  | [] => []
  | c :: r =>
      if isDash c then
        match r with
        | d :: _ => if isDash d then collapseDashes r else c :: collapseDashes r
        | [] => [c]
        end
      else c :: collapseDashes r
  end.

(** The [-$] alternative of [.replace(/^-|-$/g, "")]: a dash that is the
    last character is removed. *)
Fixpoint removeLastDash (s : list ascii) : list ascii :=
  match s with
  | [] => []
  | [c] => if isDash c then [] else [c]
  | c :: r => c :: removeLastDash r
  end.

(** [.replace(/^-|-$/g, "")]: a dash that is the first character is
    removed, then a dash that is the last character of what follows. *)
Definition stripEnds (s : list ascii) : list ascii :=
  match s with
  | c :: r => if isDash c then removeLastDash r else removeLastDash s
  | [] => []
  end.

(** [ToInt32]. *)
Definition toInt32 (z : Z) : Z := (z + 2 ^ 31) mod 2 ^ 32 - 2 ^ 31.

(** [a << n] and [a & b] on numbers. *)
Definition shl32 (a : Z) (n : Z) : Z := toInt32 (Z.shiftl (toInt32 a) n).
Definition and32 (a b : Z) : Z := Z.land (toInt32 a) (toInt32 b).

Definition charCode (c : ascii) : Z := Z.of_nat (nat_of_ascii c).

(** [simpleHash]. *)
Definition simpleHash (str : list ascii) : Z :=
  let hash :=
    fold_left (λ hash c,
                 let hash := shl32 hash 5 - hash + charCode c in
                 and32 hash hash)
              str 0 in
  Z.abs hash.

Definition hexDigit (d : Z) : ascii :=
  if d <? 10 then ascii_of_nat (48 + Z.to_nat d)
  else ascii_of_nat (87 + Z.to_nat d).

(** The digits of [n] in base 16, most significant first, in front of
    [acc]; [fuel] bounds their number. *)
Fixpoint hexDigits (fuel : nat) (n : Z) (acc : list ascii) : list ascii :=
  match fuel with
  | O => acc
  | S fuel' =>
      let acc' := hexDigit (n mod 16) :: acc in
      if n / 16 =? 0 then acc' else hexDigits fuel' (n / 16) acc'
  end.

(** [Number.prototype.toString(16)] for an integer [0 <= n < 16^14]
    (every integer that [simpleHash] returns is below [2^32]). *)
Definition toString16 (n : Z) : list ascii := hexDigits 14 n [].

(** [slugifySessionKey]. *)
Definition slugifySessionKey (sessionKey : list ascii) : list ascii :=
  let slug :=
    take 32 (stripEnds (collapseDashes (replaceNonAlnum (toLowerCase sessionKey)))) in
  let hash := take 8 (toString16 (simpleHash sessionKey)) in
  slug ++ [dash] ++ hash.

(** [generateContainerName]. *)
Definition generateContainerName (sessionKey : list ascii)
    (config : DockerCCPoolConfig) : list ascii :=
  js (docker_containerPrefix config) ++ slugifySessionKey sessionKey.

(** ** The derivation in the words of the specification *)

(** Every maximal run of characters that are not lower-case
    alphanumerics becomes one dash; [inRun] says that the previous
    character belonged to such a run. *)
Fixpoint replaceRuns (inRun : bool) (s : list ascii) : list ascii :=
  match s with
  | [] => []
  | c :: r =>
      if isLowerAlnum c then c :: replaceRuns false r
      else if inRun then replaceRuns true r
      else dash :: replaceRuns true r
  end.

Fixpoint dropLeadingDashes (s : list ascii) : list ascii :=
  match s with
  | c :: r => if isDash c then dropLeadingDashes r else s
  | [] => []
  end.

Fixpoint dropTrailingDashes (s : list ascii) : list ascii :=
  match s with
  | [] => []
  | c :: r =>
      match dropTrailingDashes r with
      | [] => if isDash c then [] else [c]
      | r' => c :: r'
      end
  end.

(** Lower-cased, non-alphanumerics replaced by a single dash, leading and
    trailing dashes stripped, truncated to 32 characters. *)
Definition safeSlug (sessionKey : list ascii) : list ascii :=
  take 32 (dropTrailingDashes (dropLeadingDashes
            (replaceRuns false (toLowerCase sessionKey)))).

(** The fingerprint of the key. *)
Definition fingerprint (sessionKey : list ascii) : list ascii :=
  toString16 (simpleHash sessionKey).

Definition isLowerHex (c : ascii) : bool :=
  let n := nat_of_ascii c in
  (((48 <=? n) && (n <=? 57)) || ((97 <=? n) && (n <=? 102)))%nat.

(** *** Validation *)

Lemma pushIf_true (msg : string) (errs : list string) :
  pushIf true msg errs ≠ [].
Proof. unfold pushIf. by destruct errs. Qed.

Lemma pushIf_keeps (cond : bool) (msg : string) (errs : list string) :
  errs ≠ [] → pushIf cond msg errs ≠ [].
Proof. unfold pushIf. destruct cond, errs; done. Qed.

Lemma invalid_of_errors (errs : list string) :
  errs ≠ [] → (length errs =? 0)%nat = false.
Proof. by destruct errs. Qed.

Create HintDb validation.
#[local] Hint Resolve pushIf_true pushIf_keeps : validation.

(** The configuration that differs from the defaults in [maxPerAgent]
    only, which exceeds [maxTotal]. *)
Definition perAgentAboveTotal : DockerCCPoolConfig :=
  {| enabled := false;
     pool_minWarm := 0;
     pool_maxTotal := 10;
     pool_maxPerAgent := 11;
     image := "clawdbot/docker-cc:latest";
     resources_memory := "4g";
     resources_cpus := 2;
     resources_pidsLimit := 256;
     timeouts_idleMs := 5 * 60 * 1000;
     timeouts_maxAgeMs := 60 * 60 * 1000;
     timeouts_healthIntervalMs := 10 * 1000;
     timeouts_startupMs := 30 * 1000;
     redis_url := None;
     redis_keyPrefix := "clawdbot:cc:";
     docker_containerPrefix := "clawdbot-cc-";
     docker_network := "clawdbot-net";
     docker_capDrop := ["ALL"];
     docker_securityOpts := ["no-new-privileges"];
     docker_binds := None;
     docker_env := None |}.

(** C4, as stated, fails: [maxPerAgent = 11 > maxTotal = 10] is accepted
    without an error. *)
Lemma validate_accepts_perAgent_above_total :
  pool_maxPerAgent perAgentAboveTotal > pool_maxTotal perAgentAboveTotal
  ∧ validateDockerCCConfig perAgentAboveTotal = {| valid := true; errors := [] |}.
Proof. split; [done | vm_compute; reflexivity]. Qed.

(** C4, as the code has it.  [validateDockerCCConfig] returns
    [valid = false] with an error whenever [minWarm > maxTotal],
    whenever [maxPerAgent < 1], or whenever [pidsLimit < 10]. *)
Theorem validate_enforces_caps (config : DockerCCPoolConfig) :
  pool_minWarm config > pool_maxTotal config
  ∨ pool_maxPerAgent config < 1
  ∨ resources_pidsLimit config < 10 →
  valid (validateDockerCCConfig config) = false
  ∧ errors (validateDockerCCConfig config) ≠ [].
Proof.
  intros H.
  assert (He : errors (validateDockerCCConfig config) ≠ []).
  { unfold validateDockerCCConfig. cbn [errors].
    destruct H as [H | [H | H]].
    - assert (Hb : (pool_minWarm config >? pool_maxTotal config) = true)
        by (apply Z.gtb_lt; lia).
      rewrite Hb. auto 10 with validation.
    - assert (Hb : (pool_maxPerAgent config <? 1) = true)
        by (apply Z.ltb_lt; lia).
      rewrite Hb. auto 10 with validation.
    - assert (Hb : (resources_pidsLimit config <? 10) = true)
        by (apply Z.ltb_lt; lia).
      rewrite Hb. auto 10 with validation. }
  split; [|done].
  unfold validateDockerCCConfig in *. cbn [valid errors] in *.
  by apply invalid_of_errors.
Qed.

Lemma validate_enforces_caps_witness :
  valid (validateDockerCCConfig
           {| enabled := true; pool_minWarm := 5; pool_maxTotal := 3;
              pool_maxPerAgent := 3; image := "img";
              resources_memory := "4g"; resources_cpus := 2;
              resources_pidsLimit := 256; timeouts_idleMs := 300000;
              timeouts_maxAgeMs := 3600000;
              timeouts_healthIntervalMs := 10000;
              timeouts_startupMs := 30000; redis_url := None;
              redis_keyPrefix := "clawdbot:cc:";
              docker_containerPrefix := "clawdbot-cc-";
              docker_network := "clawdbot-net"; docker_capDrop := [];
              docker_securityOpts := []; docker_binds := None;
              docker_env := None |}) = false.
Proof.
  refine (proj1 (validate_enforces_caps _ _)). left. simpl. lia.
Defined.

(** *** The slug *)

Lemma alnum_not_dash (c : ascii) : isLowerAlnum c = true → isDash c = false.
Proof.
  intros H. destruct (isDash c) eqn:Hd; [|done].
  apply Ascii.eqb_eq in Hd. subst c. by vm_compute in H.
Qed.

Lemma isDash_dash : isDash dash = true.
Proof. done. Qed.

(** No two dashes in a row. *)
Fixpoint noDoubleDash (s : list ascii) : bool :=
  match s with
  | c :: r =>
      match r with
      | d :: _ => negb (isDash c && isDash d) && noDoubleDash r
      | [] => true
      end
  | [] => true
  end.

Definition startsWithDash (s : list ascii) : bool :=
  match s with c :: _ => isDash c | [] => false end.

Lemma noDoubleDash_cons (c : ascii) (s : list ascii) :
  noDoubleDash (c :: s)
  = negb (isDash c && startsWithDash s) && noDoubleDash s.
Proof. destruct s; simpl; [|done]. by rewrite andb_false_r. Qed.

Lemma replaceRuns_shape (s : list ascii) (inRun : bool) :
  noDoubleDash (replaceRuns inRun s) = true
  ∧ (inRun = true → startsWithDash (replaceRuns inRun s) = false).
Proof.
  revert inRun. induction s as [|c s IH]; intros inRun; [done|].
  cbn [replaceRuns]. destruct (isLowerAlnum c) eqn:Ha.
  - destruct (IH false) as [IH1 _]. rewrite noDoubleDash_cons.
    cbn [startsWithDash]. rewrite (alnum_not_dash c Ha), IH1. done.
  - destruct inRun.
    + apply (IH true).
    + destruct (IH true) as [IH1 IH2]. rewrite noDoubleDash_cons.
      rewrite IH2, IH1 by done. by rewrite andb_false_r.
Qed.

(** Collapsing after the replacement leaves one dash per run. *)
Lemma collapse_replace (s : list ascii) :
  collapseDashes (replaceNonAlnum s) = replaceRuns false s
  ∧ (startsWithDash (replaceNonAlnum s) = true →
     collapseDashes (replaceNonAlnum s) = dash :: replaceRuns true s).
Proof.
  induction s as [|c s [IH1 IH2]]; [done|].
  unfold replaceNonAlnum in *. cbn [map collapseDashes replaceRuns startsWithDash].
  destruct (isLowerAlnum c) eqn:Ha.
  - rewrite (alnum_not_dash c Ha). rewrite IH1. split; [done|]. done.
  - rewrite isDash_dash.
    destruct s as [|d s]; [done|].
    cbn [map] in *. cbn [startsWithDash] in IH2.
    destruct (isLowerAlnum d) eqn:Hd.
    + rewrite (alnum_not_dash d Hd). rewrite IH1.
      cbn [replaceRuns]. by rewrite Hd.
    + rewrite isDash_dash. rewrite (IH2 eq_refl).
      cbn [replaceRuns]. by rewrite Hd.
Qed.

Lemma dropLeading_single (s : list ascii) :
  noDoubleDash s = true →
  dropLeadingDashes s
  = match s with c :: r => if isDash c then r else s | [] => [] end.
Proof.
  destruct s as [|c r]; [done|]. rewrite noDoubleDash_cons. intros H.
  cbn [dropLeadingDashes]. destruct (isDash c); [|done].
  destruct r as [|d r]; [done|]. simpl in *.
  by destruct (isDash d).
Qed.

Lemma dropTrailing_single (s : list ascii) :
  noDoubleDash s = true → dropTrailingDashes s = removeLastDash s.
Proof.
  induction s as [|c r IH]; [done|]. rewrite noDoubleDash_cons.
  intros H. apply andb_prop in H as [Hc Hr]. specialize (IH Hr).
  cbn [dropTrailingDashes]. rewrite IH.
  destruct r as [|d r]; [done|].
  destruct r as [|d' r']; [|done].
  (* when the tail is a lone dash, [c] is not a dash *)
  simpl in *. destruct (isDash d); [|done].
  rewrite andb_true_r in Hc. by destruct (isDash c).
Qed.

Lemma noDoubleDash_tail (c : ascii) (s : list ascii) :
  noDoubleDash (c :: s) = true → noDoubleDash s = true.
Proof. rewrite noDoubleDash_cons. intros H. by apply andb_prop in H as [_ ?]. Qed.

Lemma stripEnds_strips_all (s : list ascii) :
  noDoubleDash s = true →
  stripEnds s = dropTrailingDashes (dropLeadingDashes s).
Proof.
  intros H. rewrite (dropLeading_single s H).
  destruct s as [|c r]; [done|]. unfold stripEnds.
  destruct (isDash c).
  - symmetry. apply dropTrailing_single. by eapply noDoubleDash_tail.
  - symmetry. by apply dropTrailing_single.
Qed.

Lemma slug_is_safeSlug (key : list ascii) :
  take 32 (stripEnds (collapseDashes (replaceNonAlnum (toLowerCase key))))
  = safeSlug key.
Proof.
  unfold safeSlug.
  destruct (collapse_replace (toLowerCase key)) as [-> _].
  rewrite stripEnds_strips_all; [done|].
  apply replaceRuns_shape.
Qed.

(** *** The fingerprint *)

Lemma toInt32_range (z : Z) : - 2147483648 <= toInt32 z < 2147483648.
Proof.
  unfold toInt32.
  change (2 ^ 31) with 2147483648. change (2 ^ 32) with 4294967296.
  pose proof (Z.mod_pos_bound (z + 2147483648) 4294967296 ltac:(lia)). lia.
Qed.

Lemma simpleHash_range (str : list ascii) : 0 <= simpleHash str <= 2147483648.
Proof.
  unfold simpleHash.
  assert (H : ∀ h0, - 2147483648 <= h0 < 2147483648 →
    - 2147483648 <= fold_left (λ hash c,
                   let hash := shl32 hash 5 - hash + charCode c in
                   and32 hash hash) str h0 < 2147483648).
  { induction str as [|c str IH]; intros h0 Hh; [done|].
    cbn [fold_left]. apply IH. unfold and32. rewrite Z.land_diag.
    apply toInt32_range. }
  specialize (H 0 ltac:(lia)).
  set (h := fold_left _ str 0) in *. clearbody h. lia.
Qed.

Lemma hexDigit_hex (d : Z) : 0 <= d < 16 → isLowerHex (hexDigit d) = true.
Proof.
  intros H.
  assert (Hd : d = 0 ∨ d = 1 ∨ d = 2 ∨ d = 3 ∨ d = 4 ∨ d = 5 ∨ d = 6 ∨ d = 7
             ∨ d = 8 ∨ d = 9 ∨ d = 10 ∨ d = 11 ∨ d = 12 ∨ d = 13 ∨ d = 14
             ∨ d = 15) by lia.
  repeat (destruct Hd as [-> | Hd]; [done|]). by subst d.
Qed.

Lemma hexDigits_hex (fuel : nat) :
  ∀ (n : Z) (acc : list ascii),
    Forall (λ c, isLowerHex c = true) acc →
    Forall (λ c, isLowerHex c = true) (hexDigits fuel n acc).
Proof.
  induction fuel as [|fuel IH]; intros n acc Hacc; [done|].
  cbn [hexDigits].
  assert (Forall (λ c, isLowerHex c = true) (hexDigit (n mod 16) :: acc)).
  { constructor; [|done]. apply hexDigit_hex. apply Z.mod_pos_bound. lia. }
  destruct (n / 16 =? 0); [done | by apply IH].
Qed.

Lemma hexDigits_length (fuel : nat) :
  ∀ (n : Z) (acc : list ascii) (k : nat),
    0 <= n < 16 ^ Z.of_nat k → (1 <= k <= fuel)%nat →
    (length acc + 1 <= length (hexDigits fuel n acc) <= length acc + k)%nat.
Proof.
  induction fuel as [|fuel IH]; intros n acc k Hn Hk; [lia|].
  cbn [hexDigits]. destruct (n / 16 =? 0) eqn:Hq.
  - simpl. lia.
  - apply Z.eqb_neq in Hq.
    assert (Hk2 : (2 <= k)%nat).
    { destruct (decide (k = 1%nat)) as [->|]; [|lia].
      exfalso. apply Hq. apply Z.div_small. simpl in Hn. lia. }
    specialize (IH (n / 16) (hexDigit (n mod 16) :: acc) (k - 1)%nat).
    cbn [length] in IH.
    assert (Hpow : 16 ^ Z.of_nat k = 16 * 16 ^ Z.of_nat (k - 1)).
    { replace (Z.of_nat k) with (Z.succ (Z.of_nat (k - 1))) by lia.
      rewrite Z.pow_succ_r by lia. done. }
    assert (0 <= n / 16 < 16 ^ Z.of_nat (k - 1)).
    { split; [apply Z.div_pos; lia|].
      apply Z.div_lt_upper_bound; lia. }
    specialize (IH ltac:(done) ltac:(lia)). lia.
Qed.

Lemma fingerprint_length (key : list ascii) :
  (1 <= length (fingerprint key) <= 8)%nat.
Proof.
  unfold fingerprint, toString16.
  pose proof (simpleHash_range key) as Hr.
  pose proof (hexDigits_length 14 (simpleHash key) [] 8) as H.
  simpl length in H. apply H; [|lia].
  change (16 ^ Z.of_nat 8) with 4294967296. lia.
Qed.

(** C5, as the code has it.  The derived name is the key lower-cased,
    with every run of non-alphanumerics replaced by one dash, leading and
    trailing dashes stripped, truncated to 32 characters, followed by a
    dash and by the fingerprint of the original key, which is between one
    and eight lower-case hexadecimal digits; equal keys yield equal
    names. *)
Theorem slugify_derivation (key : list ascii) :
  slugifySessionKey key = safeSlug key ++ [dash] ++ fingerprint key
  ∧ (1 <= length (fingerprint key) <= 8)%nat
  ∧ Forall (λ c, isLowerHex c = true) (fingerprint key)
  ∧ (∀ key', key' = key → slugifySessionKey key' = slugifySessionKey key).
Proof.
  pose proof (fingerprint_length key) as Hlen.
  repeat split; try lia.
  - unfold slugifySessionKey. rewrite slug_is_safeSlug.
    fold (fingerprint key). by rewrite take_ge by lia.
  - apply hexDigits_hex. constructor.
  - by intros key' ->.
Qed.

(** C5, as stated, fails: the name derived from the key [a] is [a-61],
    four characters in all, so it does not end in eight characters of
    any kind. *)
Lemma fingerprint_shorter_than_eight :
  slugifySessionKey (js "a") = js "a-61"
  ∧ ¬ ∃ slug fp, slugifySessionKey (js "a") = slug ++ fp ∧ length fp = 8%nat.
Proof.
  split; [vm_compute; reflexivity|].
  intros (slug & fp & Heq & Hlen).
  apply (f_equal length) in Heq. rewrite length_app, Hlen in Heq.
  assert (H4 : length (slugifySessionKey (js "a")) = 4%nat)
    by (vm_compute; reflexivity).
  lia.
Qed.

Example slug_simple : slugifySessionKey (js "simple") = js "simple-35c7ce4e".
Proof. vm_compute. reflexivity. Qed.

Example slug_with_spaces :
  slugifySessionKey (js "With Spaces") = js "with-spaces-5f1630c7".
Proof. vm_compute. reflexivity. Qed.

Example slug_special :
  slugifySessionKey (js "special!@#chars") = js "special-chars-4f708652".
Proof. vm_compute. reflexivity. Qed.

(** *** Validation, completely *)

Lemma pushIf_empty (cond : bool) (msg : string) (errs : list string) :
  (length (pushIf cond msg errs) =? 0)%nat = true
  ↔ cond = false ∧ (length errs =? 0)%nat = true.
Proof.
  unfold pushIf. destruct cond.
  - rewrite length_app. simpl. split; [|by intros [? _]].
    intros H. apply Nat.eqb_eq in H. lia.
  - tauto.
Qed.

Lemma elem_of_pushIf (cond : bool) (msg m : string) (errs : list string) :
  m ∈ pushIf cond msg errs ↔ m ∈ errs ∨ (cond = true ∧ m = msg).
Proof.
  unfold pushIf. destruct cond.
  - rewrite elem_of_app, list_elem_of_singleton. tauto.
  - split; [tauto | by intros [? | [? _]]].
Qed.

(** X6.  A configuration is accepted exactly when it meets all nine
    constraints that [validateDockerCCConfig] tests. *)
Theorem validate_accepts_iff (config : DockerCCPoolConfig) :
  valid (validateDockerCCConfig config) = true
  ↔ 0 <= pool_minWarm config
    ∧ 1 <= pool_maxTotal config
    ∧ pool_minWarm config <= pool_maxTotal config
    ∧ 1 <= pool_maxPerAgent config
    ∧ image config ≠ ""
    ∧ (double_0_1 <= resources_cpus config)%Q
    ∧ 10 <= resources_pidsLimit config
    ∧ 1000 <= timeouts_healthIntervalMs config
    ∧ 5000 <= timeouts_startupMs config.
Proof.
  unfold validateDockerCCConfig. cbn [valid].
  rewrite !pushIf_empty.
  rewrite !Z.ltb_ge, Z.gtb_ltb, Z.ltb_ge, String.eqb_neq, negb_false_iff,
    Qle_bool_iff.
  cbn [length Nat.eqb]. tauto.
Qed.

Lemma elem_of_pushIf_other (cond : bool) (msg m : string) (errs : list string) :
  m ≠ msg → m ∈ pushIf cond msg errs ↔ m ∈ errs.
Proof. intros Hne. rewrite elem_of_pushIf. split; [|tauto]. by intros [? | [_ ?]]. Qed.

Lemma elem_of_pushIf_here (cond : bool) (msg : string) (errs : list string) :
  msg ∉ errs → msg ∈ pushIf cond msg errs ↔ cond = true.
Proof. intros Hne. rewrite elem_of_pushIf. split; [|tauto]. by intros [? | [? _]]. Qed.

Lemma not_elem_of_pushIf (cond : bool) (msg m : string) (errs : list string) :
  m ≠ msg → m ∉ errs → m ∉ pushIf cond msg errs.
Proof. intros Hne He. by rewrite elem_of_pushIf_other. Qed.

(** The message of one test is in the list exactly when the test
    fires: the tests after it add other messages, those before it
    too. *)
Ltac reported :=
  repeat (etransitivity; [apply elem_of_pushIf_other; discriminate|]);
  etransitivity;
  [ apply elem_of_pushIf_here;
    repeat (apply not_elem_of_pushIf; [discriminate|]);
    apply not_elem_of_nil
  | ].

(** Every violated constraint is reported, each under its own message:
    the validation does not stop at the first error. *)
Theorem validate_reports_each (config : DockerCCPoolConfig) :
  let errs := errors (validateDockerCCConfig config) in
  ("pool.minWarm must be non-negative" ∈ errs ↔ pool_minWarm config < 0)
  ∧ ("pool.maxTotal must be at least 1" ∈ errs ↔ pool_maxTotal config < 1)
  ∧ ("pool.minWarm cannot exceed pool.maxTotal" ∈ errs
     ↔ pool_minWarm config > pool_maxTotal config)
  ∧ ("pool.maxPerAgent must be at least 1" ∈ errs
     ↔ pool_maxPerAgent config < 1)
  ∧ ("image is required" ∈ errs ↔ image config = "")
  ∧ ("resources.cpus must be at least 0.1" ∈ errs
     ↔ ¬ (double_0_1 <= resources_cpus config)%Q)
  ∧ ("resources.pidsLimit must be at least 10" ∈ errs
     ↔ resources_pidsLimit config < 10)
  ∧ ("timeouts.healthIntervalMs must be at least 1000ms" ∈ errs
     ↔ timeouts_healthIntervalMs config < 1000)
  ∧ ("timeouts.startupMs must be at least 5000ms" ∈ errs
     ↔ timeouts_startupMs config < 5000).
Proof.
  unfold validateDockerCCConfig. cbn [errors]. cbn zeta.
  repeat match goal with |- _ ∧ _ => split end; reported.
  - apply Z.ltb_lt.
  - apply Z.ltb_lt.
  - rewrite Z.gtb_ltb, Z.ltb_lt. lia.
  - apply Z.ltb_lt.
  - apply String.eqb_eq.
  - rewrite negb_true_iff, <- not_true_iff_false. by rewrite Qle_bool_iff.
  - apply Z.ltb_lt.
  - apply Z.ltb_lt.
  - apply Z.ltb_lt.
Qed.
(** *** The characters of a name *)

(** The class [[a-z0-9-]]. *)
Definition isNameChar (c : ascii) : bool := isLowerAlnum c || isDash c.

Lemma collapseDashes_sub (P : ascii → Prop) (s : list ascii) :
  Forall P s → Forall P (collapseDashes s).
Proof.
  induction s as [|c s IH]; [done|]. intros [Hc Hs]%Forall_cons.
  cbn [collapseDashes]. destruct (isDash c).
  - destruct s as [|d s]; [by constructor|].
    destruct (isDash d); [by apply IH|]. constructor; [done | by apply IH].
  - constructor; [done | by apply IH].
Qed.

Lemma removeLastDash_sub (P : ascii → Prop) (s : list ascii) :
  Forall P s → Forall P (removeLastDash s).
Proof.
  induction s as [|c s IH]; [done|]. intros [Hc Hs]%Forall_cons.
  cbn [removeLastDash]. destruct s as [|d s].
  - destruct (isDash c); by repeat constructor.
  - constructor; [done | by apply IH].
Qed.

Lemma removeLastDash_length (s : list ascii) :
  (length (removeLastDash s) <= length s)%nat.
Proof.
  induction s as [|c s IH]; [done|]. cbn [removeLastDash].
  destruct s as [|d s]; [by destruct (isDash c); simpl; lia|].
  simpl in *. lia.
Qed.

Lemma stripEnds_sub (P : ascii → Prop) (s : list ascii) :
  Forall P s → Forall P (stripEnds s).
Proof.
  intros H. unfold stripEnds. destruct s as [|c r]; [done|].
  destruct (isDash c).
  - apply removeLastDash_sub. by apply Forall_cons in H as [_ ?].
  - by apply removeLastDash_sub.
Qed.

Lemma lowerHex_nameChar (c : ascii) :
  isLowerHex c = true → isNameChar c = true.
Proof.
  unfold isLowerHex, isNameChar, isLowerAlnum.
  set (n := nat_of_ascii c). intros H. apply orb_true_intro. left.
  apply orb_prop in H as [H | H]; apply andb_prop in H as [H1 H2].
  - by rewrite H1, H2, orb_true_r.
  - apply Nat.leb_le in H1, H2.
    assert (Ha : (97 <=? n)%nat = true) by (apply Nat.leb_le; lia).
    assert (Hb : (n <=? 122)%nat = true) by (apply Nat.leb_le; lia).
    by rewrite Ha, Hb.
Qed.

(** X7.  Whatever the session key, the slug is made of lower-case letters,
    digits and dashes only, and is between 2 and 41 characters long. *)
Theorem slug_is_name_safe (key : list ascii) :
  Forall (λ c, isNameChar c = true) (slugifySessionKey key)
  ∧ (2 <= length (slugifySessionKey key) <= 41)%nat.
Proof.
  pose proof (fingerprint_length key) as Hfp.
  unfold fingerprint in Hfp.
  unfold slugifySessionKey. split.
  - apply Forall_app. split; [|apply Forall_app; split].
    + apply Forall_take, stripEnds_sub, collapseDashes_sub.
      unfold replaceNonAlnum. apply Forall_forall. intros c Hc.
      apply list_elem_of_fmap in Hc as (d & -> & _). unfold isNameChar.
      destruct (isLowerAlnum d) eqn:Hd; [by rewrite Hd | done].
    + by repeat constructor.
    + apply Forall_take.
      eapply Forall_impl; [apply hexDigits_hex; constructor|].
      apply lowerHex_nameChar.
  - rewrite !length_app, !length_take. cbn [length]. lia.
Qed.

End Config.

(* ===================================================================== *)
(** * Results of code that may throw                                      *)
(* ===================================================================== *)

Inductive Result (A : Type) : Type :=
| Ok (a : A)
| Err (msg : string).
Arguments Ok {A} a.
Arguments Err {A} msg.

(* ===================================================================== *)
(** * Registry  ([registry.ts])                                           *)
(* ===================================================================== *)

Module Registry.

Local Open Scope string_scope.
Local Open Scope list_scope.
Local Open Scope Z_scope.

Inductive ContainerStatus :=
| creating | starting | idle | running | stopping | stopped | failed.

Definition status_eqb (a b : ContainerStatus) : bool :=
  match a, b with
  | creating, creating | starting, starting | idle, idle | running, running
  | stopping, stopping | stopped, stopped | failed, failed => true
  | _, _ => false
  end.

(** [ContainerRegistryEntry]. *)
Record ContainerRegistryEntry := mkEntry {
  containerId : string;
  containerName : string;
  sessionKey : option string;
  agentId : option string;
  status : ContainerStatus;
  createdAt : Z;
  lastHeartbeat : Z;
  claudeSessionId : option string;
  turnCount : Z;
  configHash : string
}.

(** [RegistryData]. *)
Record RegistryData := mkRegistry {
  version : Z;
  entries : list ContainerRegistryEntry
}.

Definition REGISTRY_VERSION : Z := 1.

(** The registry file: absent, holding a document, or not readable as
    one (the read then throws). *)
Inductive RegistryFile :=
| Missing
| Stored (data : RegistryData)
| Unreadable.

(** [readRegistry]. *)
Definition readRegistry (file : RegistryFile) : Result RegistryData :=
  match file with
  | Stored data =>
      if negb (version data =? REGISTRY_VERSION)
      then Ok {| version := REGISTRY_VERSION; entries := [] |}
      else Ok data
  | Missing => Ok {| version := REGISTRY_VERSION; entries := [] |}
  | Unreadable => Err "SyntaxError"
  end.

(** [writeRegistry]: the file holds the document afterwards. *)
Definition writeRegistry (data : RegistryData) : RegistryFile := Stored data.

Definition named (name : string) (e : ContainerRegistryEntry) : bool :=
  String.eqb (containerName e) name.

(** [Array.prototype.findIndex]. *)
Fixpoint findIndex {A} (p : A → bool) (l : list A) : option nat :=
  match l with
  | [] => None
  | x :: r => if p x then Some 0%nat else S <$> findIndex p r
  end.

(** Assignments to the fields of the object that [find] returned: the
    first element that satisfies [p] is changed in place. *)
Fixpoint modifyFirst {A} (p : A → bool) (f : A → A) (l : list A) : list A :=
  match l with
  | [] => []
  | x :: r => if p x then f x :: r else x :: modifyFirst p f r
  end.

Definition withEntries (registry : RegistryData)
    (es : list ContainerRegistryEntry) : RegistryData :=
  {| version := version registry; entries := es |}.

(** [updateContainerEntry]. *)
Definition updateContainerEntry (entry : ContainerRegistryEntry)
    (file : RegistryFile) : Result (unit * RegistryFile) :=
  match readRegistry file with
  | Err m => Err m
  | Ok registry =>
      let es :=
        match findIndex (named (containerName entry)) (entries registry) with
        | Some index => <[index := entry]> (entries registry)
        | None => entries registry ++ [entry]
        end in
      Ok (tt, writeRegistry (withEntries registry es))
  end.

(** [removeContainerEntry]. *)
Definition removeContainerEntry (name : string)
    (file : RegistryFile) : Result (unit * RegistryFile) :=
  match readRegistry file with
  | Err m => Err m
  | Ok registry =>
      Ok (tt, writeRegistry
                (withEntries registry
                   (List.filter (λ e, negb (named name e)) (entries registry))))
  end.

(** [getContainerEntry]. *)
Definition getContainerEntry (name : string) (file : RegistryFile)
  : Result (option ContainerRegistryEntry) :=
  match readRegistry file with
  | Err m => Err m
  | Ok registry => Ok (List.find (named name) (entries registry))
  end.

(** [getContainerBySessionKey]. *)
Definition getContainerBySessionKey (key : string) (file : RegistryFile)
  : Result (option ContainerRegistryEntry) :=
  match readRegistry file with
  | Err m => Err m
  | Ok registry =>
      Ok (List.find (λ e, match sessionKey e with
                          | Some k => String.eqb k key
                          | None => false
                          end) (entries registry))
  end.

(** [listContainerEntries]. *)
Definition listContainerEntries (file : RegistryFile)
  : Result (list ContainerRegistryEntry) :=
  match readRegistry file with
  | Err m => Err m
  | Ok registry => Ok (entries registry)
  end.

(** [listContainersByAgent]. *)
Definition listContainersByAgent (agent : string) (file : RegistryFile)
  : Result (list ContainerRegistryEntry) :=
  match readRegistry file with
  | Err m => Err m
  | Ok registry =>
      Ok (List.filter (λ e, match agentId e with
                            | Some a => String.eqb a agent
                            | None => false
                            end) (entries registry))
  end.

Definition isWarm (e : ContainerRegistryEntry) : bool :=
  match sessionKey e with
  | None => status_eqb (status e) idle
  | Some _ => false
  end.

(** [listWarmContainers]. *)
Definition listWarmContainers (file : RegistryFile)
  : Result (list ContainerRegistryEntry) :=
  match readRegistry file with
  | Err m => Err m
  | Ok registry => Ok (List.filter isWarm (entries registry))
  end.

(** [updateContainerStatus]; [now] is the value of [Date.now()]. *)
Definition updateContainerStatus (now : Z) (name : string)
    (st : ContainerStatus) (file : RegistryFile)
  : Result (unit * RegistryFile) :=
  match readRegistry file with
  | Err m => Err m
  | Ok registry =>
      match List.find (named name) (entries registry) with
      | Some _ =>
          let change e :=
            {| containerId := containerId e; containerName := containerName e;
               sessionKey := sessionKey e; agentId := agentId e;
               status := st; createdAt := createdAt e;
               lastHeartbeat := now;
               claudeSessionId := claudeSessionId e;
               turnCount := turnCount e; configHash := configHash e |} in
          Ok (tt, writeRegistry
                    (withEntries registry
                       (modifyFirst (named name) change (entries registry))))
      | None => Ok (tt, file)
      end
  end.

(** [updateContainerHeartbeat]. *)
Definition updateContainerHeartbeat (now : Z) (name : string)
    (newClaudeSessionId : option string) (newTurnCount : option Z)
    (file : RegistryFile) : Result (unit * RegistryFile) :=
  match readRegistry file with
  | Err m => Err m
  | Ok registry =>
      match List.find (named name) (entries registry) with
      | Some _ =>
          let change e :=
            {| containerId := containerId e; containerName := containerName e;
               sessionKey := sessionKey e; agentId := agentId e;
               status := status e; createdAt := createdAt e;
               lastHeartbeat := now;
               claudeSessionId :=
                 match newClaudeSessionId with
                 | Some id => Some id
                 | None => claudeSessionId e
                 end;
               turnCount :=
                 match newTurnCount with
                 | Some n => n
                 | None => turnCount e
                 end;
               configHash := configHash e |} in
          Ok (tt, writeRegistry
                    (withEntries registry
                       (modifyFirst (named name) change (entries registry))))
      | None => Ok (tt, file)
      end
  end.

(** [assignContainerToSession]. *)
Definition assignContainerToSession (now : Z) (name : string)
    (key : string) (agent : option string) (file : RegistryFile)
  : Result (unit * RegistryFile) :=
  match readRegistry file with
  | Err m => Err m
  | Ok registry =>
      match List.find (named name) (entries registry) with
      | Some _ =>
          let change e :=
            {| containerId := containerId e; containerName := containerName e;
               sessionKey := Some key; agentId := agent;
               status := status e; createdAt := createdAt e;
               lastHeartbeat := now;
               claudeSessionId := claudeSessionId e;
               turnCount := turnCount e; configHash := configHash e |} in
          Ok (tt, writeRegistry
                    (withEntries registry
                       (modifyFirst (named name) change (entries registry))))
      | None => Ok (tt, file)
      end
  end.

(** [unassignContainer]. *)
Definition unassignContainer (now : Z) (name : string) (file : RegistryFile)
  : Result (unit * RegistryFile) :=
  match readRegistry file with
  | Err m => Err m
  | Ok registry =>
      match List.find (named name) (entries registry) with
      | Some _ =>
          let change e :=
            {| containerId := containerId e; containerName := containerName e;
               sessionKey := None; agentId := None;
               status := idle; createdAt := createdAt e;
               lastHeartbeat := now;
               claudeSessionId := None;
               turnCount := 0; configHash := configHash e |} in
          Ok (tt, writeRegistry
                    (withEntries registry
                       (modifyFirst (named name) change (entries registry))))
      | None => Ok (tt, file)
      end
  end.

(** [getIdleContainers]. *)
Definition getIdleContainers (now : Z) (idleTimeoutMs : Z) (file : RegistryFile)
  : Result (list ContainerRegistryEntry) :=
  match readRegistry file with
  | Err m => Err m
  | Ok registry =>
      Ok (List.filter (λ e, if negb (status_eqb (status e) idle) then false
                            else now - lastHeartbeat e >? idleTimeoutMs)
                      (entries registry))
  end.

(** [getExpiredContainers]. *)
Definition getExpiredContainers (now : Z) (maxAgeMs : Z) (file : RegistryFile)
  : Result (list ContainerRegistryEntry) :=
  match readRegistry file with
  | Err m => Err m
  | Ok registry =>
      Ok (List.filter (λ e, now - createdAt e >? maxAgeMs) (entries registry))
  end.

(** [getStaleContainers]. *)
Definition getStaleContainers (now : Z) (staleThresholdMs : Z)
    (file : RegistryFile) : Result (list ContainerRegistryEntry) :=
  match readRegistry file with
  | Err m => Err m
  | Ok registry =>
      Ok (List.filter
            (λ e, if negb (status_eqb (status e) running)
                     && negb (status_eqb (status e) idle) then false
                  else now - lastHeartbeat e >? staleThresholdMs)
            (entries registry))
  end.

(** [syncWithDocker]: the names removed and the file afterwards. *)
Definition syncWithDocker (existingContainerNames : gset string)
    (file : RegistryFile) : Result (list string * RegistryFile) :=
  match readRegistry file with
  | Err m => Err m
  | Ok registry =>
      let keep e := bool_decide (containerName e ∈ existingContainerNames) in
      let removed :=
        map containerName (List.filter (λ e, negb (keep e)) (entries registry)) in
      let kept := List.filter keep (entries registry) in
      if (0 <? length removed)%nat
      then Ok (removed, writeRegistry (withEntries registry kept))
      else Ok (removed, file)
  end.

(** [clearRegistry]. *)
Definition clearRegistry (file : RegistryFile) : RegistryFile :=
  writeRegistry {| version := REGISTRY_VERSION; entries := [] |}.

(** ** Properties *)

Lemma readRegistry_version (file : RegistryFile) (registry : RegistryData) :
  readRegistry file = Ok registry → version registry = REGISTRY_VERSION.
Proof.
  destruct file as [|data|]; simpl; try (by intros [= <-]).
  destruct (version data =? REGISTRY_VERSION) eqn:Hv; simpl; intros [= <-].
  - by apply Z.eqb_eq.
  - done.
Qed.

(** What was written is what is read back. *)
Lemma read_after_write (registry : RegistryData)
    (es : list ContainerRegistryEntry) :
  version registry = REGISTRY_VERSION →
  readRegistry (writeRegistry (withEntries registry es))
  = Ok (withEntries registry es).
Proof. intros H. simpl. rewrite H. done. Qed.

Lemma find_modifyFirst {A} (p : A → bool) (f : A → A) (l : list A) (x : A) :
  List.find p l = Some x → p (f x) = true →
  List.find p (modifyFirst p f l) = Some (f x).
Proof.
  induction l as [|y l IH]; simpl; [done|]. intros H Hf.
  destruct (p y) eqn:Hy.
  - injection H as ->. simpl. by rewrite Hf.
  - simpl. rewrite Hy. by apply IH.
Qed.

Lemma find_named (name : string) (l : list ContainerRegistryEntry)
    (e : ContainerRegistryEntry) :
  List.find (named name) l = Some e → containerName e = name.
Proof.
  intros H. apply List.find_some in H as [_ H]. by apply String.eqb_eq in H.
Qed.

(** The mutators leave the name of the entry alone. *)
Ltac name_kept :=
  match goal with
  | H : containerName _ = ?name |- named ?name _ = true =>
      unfold named; simpl; rewrite H; apply String.eqb_refl
  end.

(** C8.  Round trip on the registry: when the registry holds an entry
    named [name], [assignContainerToSession] followed by
    [unassignContainer] leaves that entry with no session key, status
    idle, turn count zero and no resumable session id. *)
Theorem assign_then_unassign (now1 now2 : Z) (name key : string)
    (agent : option string) (file : RegistryFile) (e : ContainerRegistryEntry) :
  getContainerEntry name file = Ok (Some e) →
  ∃ file1 file2 e2,
    assignContainerToSession now1 name key agent file = Ok (tt, file1)
    ∧ unassignContainer now2 name file1 = Ok (tt, file2)
    ∧ getContainerEntry name file2 = Ok (Some e2)
    ∧ sessionKey e2 = None
    ∧ status e2 = idle
    ∧ turnCount e2 = 0
    ∧ claudeSessionId e2 = None.
Proof.
  unfold getContainerEntry, assignContainerToSession, unassignContainer.
  destruct (readRegistry file) as [registry|] eqn:Hread; [|done].
  intros [= Hfind]. rewrite Hfind.
  pose proof (find_named _ _ _ Hfind) as Hname.
  pose proof (readRegistry_version _ _ Hread) as Hv.
  eexists _, _, _. split; [reflexivity|].
  rewrite read_after_write by done. cbn [entries withEntries].
  erewrite find_modifyFirst; [| exact Hfind | name_kept].
  split; [reflexivity|].
  rewrite read_after_write by done. cbn [entries withEntries].
  erewrite find_modifyFirst;
    [| erewrite find_modifyFirst; [reflexivity | exact Hfind | name_kept]
     | name_kept].
  by repeat split.
Qed.

Definition sampleEntry : ContainerRegistryEntry :=
  {| containerId := "3f9a"; containerName := "clawdbot-cc-s1-e5f";
     sessionKey := None; agentId := None; status := running;
     createdAt := 1000; lastHeartbeat := 2000;
     claudeSessionId := Some "resume-7"; turnCount := 4;
     configHash := "" |}.

Lemma assign_then_unassign_witness :
  ∃ file1 file2 e2,
    assignContainerToSession 3000 "clawdbot-cc-s1-e5f" "s1" (Some "main")
      (Stored {| version := 1; entries := [sampleEntry] |}) = Ok (tt, file1)
    ∧ unassignContainer 4000 "clawdbot-cc-s1-e5f" file1 = Ok (tt, file2)
    ∧ getContainerEntry "clawdbot-cc-s1-e5f" file2 = Ok (Some e2)
    ∧ sessionKey e2 = None
    ∧ status e2 = idle
    ∧ turnCount e2 = 0
    ∧ claudeSessionId e2 = None.
Proof.
  apply (assign_then_unassign 3000 4000 "clawdbot-cc-s1-e5f" "s1" (Some "main")
           (Stored {| version := 1; entries := [sampleEntry] |}) sampleEntry).
  reflexivity.
Defined.

(** C10.  When the registry holds no entry with the given name, each of
    [assignContainerToSession], [unassignContainer],
    [updateContainerStatus] and [updateContainerHeartbeat] returns
    without an error and leaves the registry file as it was. *)
Theorem mutations_absent_name_noop (now : Z) (name key : string)
    (agent : option string) (st : ContainerStatus)
    (newClaudeSessionId : option string) (newTurnCount : option Z)
    (file : RegistryFile) :
  getContainerEntry name file = Ok None →
  assignContainerToSession now name key agent file = Ok (tt, file)
  ∧ unassignContainer now name file = Ok (tt, file)
  ∧ updateContainerStatus now name st file = Ok (tt, file)
  ∧ updateContainerHeartbeat now name newClaudeSessionId newTurnCount file
    = Ok (tt, file).
Proof.
  unfold getContainerEntry, assignContainerToSession, unassignContainer,
    updateContainerStatus, updateContainerHeartbeat.
  destruct (readRegistry file) as [registry|]; [|done].
  intros [= ->]. done.
Qed.

Lemma mutations_absent_name_noop_witness :
  let file := Stored {| version := 1; entries := [sampleEntry] |} in
  assignContainerToSession 5000 "other" "s2" None file = Ok (tt, file)
  ∧ unassignContainer 5000 "other" file = Ok (tt, file)
  ∧ updateContainerStatus 5000 "other" failed file = Ok (tt, file)
  ∧ updateContainerHeartbeat 5000 "other" (Some "r") (Some 2) file
    = Ok (tt, file).
Proof.
  apply (mutations_absent_name_noop 5000 "other" "s2" None failed
           (Some "r") (Some 2)
           (Stored {| version := 1; entries := [sampleEntry] |})).
  reflexivity.
Defined.

(** ** The entries of the file, and what each function does to them *)

Definition entriesOf (file : RegistryFile) : list ContainerRegistryEntry :=
  match readRegistry file with
  | Ok registry => entries registry
  | Err _ => []
  end.

(** At most one entry per container name. *)
Definition UniqueNames (file : RegistryFile) : Prop :=
  NoDup (map containerName (entriesOf file)).

(** [updateContainerEntry] on the list of entries. *)
Definition upsert (entry : ContainerRegistryEntry)
    (es : list ContainerRegistryEntry) : list ContainerRegistryEntry :=
  match findIndex (named (containerName entry)) es with
  | Some index => <[index := entry]> es
  | None => es ++ [entry]
  end.

Lemma entriesOf_read (file : RegistryFile) (registry : RegistryData) :
  readRegistry file = Ok registry → entriesOf file = entries registry.
Proof. unfold entriesOf. by intros ->. Qed.

Lemma entriesOf_write (registry : RegistryData)
    (es : list ContainerRegistryEntry) :
  version registry = REGISTRY_VERSION →
  entriesOf (writeRegistry (withEntries registry es)) = es.
Proof. intros H. unfold entriesOf. by rewrite read_after_write. Qed.

Lemma modifyFirst_absent {A} (p : A → bool) (f : A → A) (l : list A) :
  List.find p l = None → modifyFirst p f l = l.
Proof.
  induction l as [|x l IH]; simpl; [done|].
  destruct (p x); [done|]. intros H. by rewrite IH.
Qed.

Lemma map_modifyFirst {A B} (g : A → B) (p : A → bool) (f : A → A) (l : list A) :
  (∀ x, g (f x) = g x) → map g (modifyFirst p f l) = map g l.
Proof.
  intros Hg. induction l as [|x l IH]; simpl; [done|].
  destruct (p x); simpl; by rewrite ?Hg, ?IH.
Qed.

Lemma elem_of_modifyFirst {A} (p : A → bool) (f : A → A) (l : list A) (y : A) :
  y ∈ modifyFirst p f l → y ∈ l ∨ ∃ x, x ∈ l ∧ p x = true ∧ y = f x.
Proof.
  induction l as [|x l IH]; simpl; [by left|].
  destruct (p x) eqn:Hp.
  - intros [-> | H]%elem_of_cons.
    + right. exists x. split; [by left|done].
    + left. by right.
  - intros [-> | H]%elem_of_cons; [left; by left|].
    destruct (IH H) as [?|(x' & ? & ? & ?)]; [left; by right|].
    right. exists x'. split; [by right|done].
Qed.

Lemma findIndex_Some {A} (p : A → bool) (l : list A) (i : nat) :
  findIndex p l = Some i → ∃ x, l !! i = Some x ∧ p x = true.
Proof.
  revert i. induction l as [|y l IH]; simpl; intros i; [done|].
  destruct (p y) eqn:Hp.
  - intros [= <-]. by exists y.
  - destruct (findIndex p l) as [j|]; simpl; [|done].
    intros [= <-]. by apply IH.
Qed.

Lemma findIndex_None {A} (p : A → bool) (l : list A) :
  findIndex p l = None → ∀ x, x ∈ l → p x = false.
Proof.
  induction l as [|y l IH]; simpl; intros H x Hx; [by apply elem_of_nil in Hx|].
  destruct (p y) eqn:Hp; [done|].
  destruct (findIndex p l); simpl in H; [done|].
  apply elem_of_cons in Hx as [-> | Hx]; [done | by apply IH].
Qed.

Lemma named_true (name : string) (e : ContainerRegistryEntry) :
  named name e = true ↔ containerName e = name.
Proof. unfold named. apply String.eqb_eq. Qed.

Lemma named_false (name : string) (e : ContainerRegistryEntry) :
  named name e = false ↔ containerName e ≠ name.
Proof. unfold named. apply String.eqb_neq. Qed.

Lemma upsert_names (entry : ContainerRegistryEntry)
    (es : list ContainerRegistryEntry) :
  NoDup (map containerName es) → NoDup (map containerName (upsert entry es)).
Proof.
  intros Hnd. unfold upsert.
  destruct (findIndex _ es) as [i|] eqn:Hi.
  - destruct (findIndex_Some _ _ _ Hi) as (x & Hx & Hn%named_true).
    rewrite list_fmap_insert. rewrite <- Hn.
    rewrite list_insert_id; [done|]. by rewrite list_lookup_fmap, Hx.
  - rewrite map_app. simpl. apply NoDup_app. split; [done|].
    split; [|apply NoDup_singleton].
    intros n Hn ->%list_elem_of_singleton.
    apply list_elem_of_fmap in Hn as (x & Hname & Hx).
    pose proof (findIndex_None _ _ Hi x Hx) as Hf.
    apply named_false in Hf. congruence.
Qed.

Lemma elem_of_upsert (entry e : ContainerRegistryEntry)
    (es : list ContainerRegistryEntry) :
  e ∈ upsert entry es → e = entry ∨ e ∈ es.
Proof.
  unfold upsert. destruct (findIndex _ es) as [i|].
  - intros H. apply list_elem_of_lookup in H as [j Hj].
    destruct (decide (i = j)) as [-> | Hne].
    + destruct (decide (j < length es)%nat).
      * rewrite list_lookup_insert_eq in Hj by done. left. congruence.
      * rewrite list_insert_ge in Hj by lia. right.
        by eapply list_elem_of_lookup_2.
    + rewrite list_lookup_insert_ne in Hj by done. right.
      by eapply list_elem_of_lookup_2.
  - intros [H | ->%list_elem_of_singleton]%elem_of_app; [by right | by left].
Qed.

Lemma entry_in_upsert (entry : ContainerRegistryEntry)
    (es : list ContainerRegistryEntry) :
  entry ∈ upsert entry es.
Proof.
  unfold upsert. destruct (findIndex _ es) as [i|] eqn:Hi.
  - destruct (findIndex_Some _ _ _ Hi) as (x & Hx & _).
    apply list_elem_of_lookup. exists i.
    apply list_lookup_insert_eq. by eapply lookup_lt_Some.
  - apply elem_of_app. right. by left.
Qed.

(** With unique names, an entry is determined by its name. *)
Lemma unique_by_name (es : list ContainerRegistryEntry)
    (e1 e2 : ContainerRegistryEntry) :
  NoDup (map containerName es) → e1 ∈ es → e2 ∈ es →
  containerName e1 = containerName e2 → e1 = e2.
Proof.
  intros Hnd H1 H2 Hn.
  apply list_elem_of_lookup in H1 as [i Hi].
  apply list_elem_of_lookup in H2 as [j Hj].
  assert (i = j) as ->; [|congruence].
  eapply NoDup_lookup; [exact Hnd| |].
  - rewrite list_lookup_fmap, Hi. reflexivity.
  - rewrite list_lookup_fmap, Hj. simpl. by rewrite Hn.
Qed.

Lemma filter_names (p : ContainerRegistryEntry → bool)
    (es : list ContainerRegistryEntry) :
  NoDup (map containerName es) → NoDup (map containerName (List.filter p es)).
Proof.
  induction es as [|x es IH]; simpl; [done|].
  intros [Hx Hnd]%NoDup_cons. destruct (p x); simpl; [|by apply IH].
  apply NoDup_cons. split; [|by apply IH].
  intros Hin. apply Hx.
  apply list_elem_of_fmap in Hin as (y & -> & Hy).
  apply list_elem_of_fmap. exists y. split; [done|].
  apply list_elem_of_In. apply list_elem_of_In in Hy.
  by apply List.filter_In in Hy as [? _].
Qed.

Lemma elem_of_filter_list (p : ContainerRegistryEntry → bool)
    (es : list ContainerRegistryEntry) (e : ContainerRegistryEntry) :
  e ∈ List.filter p es ↔ e ∈ es ∧ p e = true.
Proof. rewrite !list_elem_of_In. apply List.filter_In. Qed.

(** *** The functions that write *)

Lemma updateContainerEntry_entries (entry : ContainerRegistryEntry)
    (file file' : RegistryFile) (u : unit) :
  updateContainerEntry entry file = Ok (u, file') →
  entriesOf file' = upsert entry (entriesOf file).
Proof.
  unfold updateContainerEntry.
  destruct (readRegistry file) as [registry|] eqn:Hr; [|done].
  intros [= _ <-]. rewrite (entriesOf_read _ _ Hr).
  rewrite entriesOf_write by (by eapply readRegistry_version). done.
Qed.

Lemma removeContainerEntry_entries (name : string)
    (file file' : RegistryFile) (u : unit) :
  removeContainerEntry name file = Ok (u, file') →
  entriesOf file' = List.filter (λ e, negb (named name e)) (entriesOf file).
Proof.
  unfold removeContainerEntry.
  destruct (readRegistry file) as [registry|] eqn:Hr; [|done].
  intros [= _ <-]. rewrite (entriesOf_read _ _ Hr).
  by rewrite entriesOf_write by (by eapply readRegistry_version).
Qed.

(** The four mutators change the first entry of the given name, if there
    is one, by a function that keeps its name. *)
Definition setsStatus (now : Z) (st : ContainerStatus)
    (e : ContainerRegistryEntry) : ContainerRegistryEntry :=
  {| containerId := containerId e; containerName := containerName e;
     sessionKey := sessionKey e; agentId := agentId e; status := st;
     createdAt := createdAt e; lastHeartbeat := now;
     claudeSessionId := claudeSessionId e; turnCount := turnCount e;
     configHash := configHash e |}.

Definition assigns (now : Z) (key : string) (agent : option string)
    (e : ContainerRegistryEntry) : ContainerRegistryEntry :=
  {| containerId := containerId e; containerName := containerName e;
     sessionKey := Some key; agentId := agent; status := status e;
     createdAt := createdAt e; lastHeartbeat := now;
     claudeSessionId := claudeSessionId e; turnCount := turnCount e;
     configHash := configHash e |}.

Definition unassigns (now : Z) (e : ContainerRegistryEntry)
  : ContainerRegistryEntry :=
  {| containerId := containerId e; containerName := containerName e;
     sessionKey := None; agentId := None; status := idle;
     createdAt := createdAt e; lastHeartbeat := now;
     claudeSessionId := None; turnCount := 0; configHash := configHash e |}.

Lemma updateContainerStatus_entries (now : Z) (name : string)
    (st : ContainerStatus) (file file' : RegistryFile) (u : unit) :
  updateContainerStatus now name st file = Ok (u, file') →
  entriesOf file' = modifyFirst (named name) (setsStatus now st) (entriesOf file).
Proof.
  unfold updateContainerStatus.
  destruct (readRegistry file) as [registry|] eqn:Hr; [|done].
  rewrite (entriesOf_read _ _ Hr).
  destruct (List.find _ _) eqn:Hf; intros [= _ <-].
  - by rewrite entriesOf_write by (by eapply readRegistry_version).
  - by rewrite modifyFirst_absent, (entriesOf_read _ _ Hr).
Qed.

Lemma assignContainerToSession_entries (now : Z) (name key : string)
    (agent : option string) (file file' : RegistryFile) (u : unit) :
  assignContainerToSession now name key agent file = Ok (u, file') →
  entriesOf file'
  = modifyFirst (named name) (assigns now key agent) (entriesOf file).
Proof.
  unfold assignContainerToSession.
  destruct (readRegistry file) as [registry|] eqn:Hr; [|done].
  rewrite (entriesOf_read _ _ Hr).
  destruct (List.find _ _) eqn:Hf; intros [= _ <-].
  - by rewrite entriesOf_write by (by eapply readRegistry_version).
  - by rewrite modifyFirst_absent, (entriesOf_read _ _ Hr).
Qed.

Lemma unassignContainer_entries (now : Z) (name : string)
    (file file' : RegistryFile) (u : unit) :
  unassignContainer now name file = Ok (u, file') →
  entriesOf file' = modifyFirst (named name) (unassigns now) (entriesOf file).
Proof.
  unfold unassignContainer.
  destruct (readRegistry file) as [registry|] eqn:Hr; [|done].
  rewrite (entriesOf_read _ _ Hr).
  destruct (List.find _ _) eqn:Hf; intros [= _ <-].
  - by rewrite entriesOf_write by (by eapply readRegistry_version).
  - by rewrite modifyFirst_absent, (entriesOf_read _ _ Hr).
Qed.

Lemma filter_all {A} (p : A → bool) (l : list A) :
  List.filter (λ x, negb (p x)) l = [] → List.filter p l = l.
Proof.
  induction l as [|x l IH]; simpl; [done|].
  destruct (p x); simpl; [|done]. intros H. by rewrite IH.
Qed.

Lemma syncWithDocker_entries (existing : gset string)
    (file file' : RegistryFile) (removed : list string) :
  syncWithDocker existing file = Ok (removed, file') →
  entriesOf file'
  = List.filter (λ e, bool_decide (containerName e ∈ existing)) (entriesOf file).
Proof.
  unfold syncWithDocker.
  destruct (readRegistry file) as [registry|] eqn:Hr; [|done].
  rewrite (entriesOf_read _ _ Hr).
  destruct (0 <? length _)%nat eqn:Hlen; intros [= _ <-].
  - by rewrite entriesOf_write by (by eapply readRegistry_version).
  - apply Nat.ltb_ge in Hlen. rewrite (entriesOf_read _ _ Hr).
    symmetry. apply filter_all.
    destruct (List.filter _ (entries registry)); [done|]. simpl in Hlen. lia.
Qed.

(** *** The functions that read *)

Lemma getContainerBySessionKey_entries (key : string) (file : RegistryFile)
    (found : option ContainerRegistryEntry) :
  getContainerBySessionKey key file = Ok found →
  found = List.find (λ e, match sessionKey e with
                          | Some k => String.eqb k key
                          | None => false
                          end) (entriesOf file).
Proof.
  unfold getContainerBySessionKey, entriesOf.
  destruct (readRegistry file); [|done]. by intros [= <-].
Qed.

Lemma listContainerEntries_entries (file : RegistryFile)
    (es : list ContainerRegistryEntry) :
  listContainerEntries file = Ok es → es = entriesOf file.
Proof.
  unfold listContainerEntries, entriesOf.
  destruct (readRegistry file); [|done]. by intros [= <-].
Qed.

Lemma listWarmContainers_entries (file : RegistryFile)
    (es : list ContainerRegistryEntry) :
  listWarmContainers file = Ok es → es = List.filter isWarm (entriesOf file).
Proof.
  unfold listWarmContainers, entriesOf.
  destruct (readRegistry file); [|done]. by intros [= <-].
Qed.

Lemma getStaleContainers_subset (now threshold : Z) (file : RegistryFile)
    (es : list ContainerRegistryEntry) :
  getStaleContainers now threshold file = Ok es → es ⊆ entriesOf file.
Proof.
  unfold getStaleContainers, entriesOf.
  destruct (readRegistry file); [|done]. intros [= <-] e He.
  by apply elem_of_filter_list in He as [? _].
Qed.

(** The same on an absent or foreign-version file, which reads as an
    empty registry: nothing is written. *)
Lemma mutations_leave_missing_file (now : Z) (name key : string)
    (agent : option string) :
  assignContainerToSession now name key agent Missing = Ok (tt, Missing)
  ∧ unassignContainer now name Missing = Ok (tt, Missing).
Proof. done. Qed.

(** ** Laws of the registry *)

Lemma readable (file : RegistryFile) :
  file ≠ Unreadable → ∃ registry, readRegistry file = Ok registry.
Proof.
  destruct file as [|data|]; [by eexists| |done]. intros _. simpl.
  destruct (negb (version data =? REGISTRY_VERSION)); by eexists.
Qed.

Lemma upsert_cons (entry x : ContainerRegistryEntry)
    (es : list ContainerRegistryEntry) :
  upsert entry (x :: es)
  = if named (containerName entry) x then entry :: es
    else x :: upsert entry es.
Proof.
  unfold upsert. simpl. destruct (named (containerName entry) x); [done|].
  by destruct (findIndex (named (containerName entry)) es).
Qed.

Lemma find_upsert (entry : ContainerRegistryEntry)
    (es : list ContainerRegistryEntry) (name : string) :
  List.find (named name) (upsert entry es)
  = if String.eqb (containerName entry) name then Some entry
    else List.find (named name) es.
Proof.
  induction es as [|x es IH].
  - unfold upsert. simpl. unfold named at 1.
    by destruct (String.eqb (containerName entry) name).
  - rewrite upsert_cons.
    destruct (named (containerName entry) x) eqn:Hx.
    + apply named_true in Hx. simpl. unfold named at 1 3. rewrite Hx.
      by destruct (String.eqb (containerName entry) name).
    + simpl. rewrite IH. apply named_false in Hx.
      destruct (named name x) eqn:Hn; [|done].
      apply named_true in Hn.
      destruct (String.eqb (containerName entry) name) eqn:He; [|done].
      apply String.eqb_eq in He. congruence.
Qed.

Lemma getContainerEntry_entries (name : string) (file : RegistryFile)
    (registry : RegistryData) :
  readRegistry file = Ok registry →
  getContainerEntry name file = Ok (List.find (named name) (entriesOf file)).
Proof. intros H. unfold getContainerEntry, entriesOf. by rewrite H. Qed.

Lemma readRegistry_written (registry : RegistryData)
    (es : list ContainerRegistryEntry) :
  version registry = REGISTRY_VERSION →
  readRegistry (Stored (withEntries registry es)) = Ok (withEntries registry es).
Proof. apply read_after_write. Qed.

(** X8.  Insert, then look up: on a file that can be read,
    [updateContainerEntry] succeeds, the entry is then what
    [getContainerEntry] returns for its name, and the answer for every
    other name is as before. *)
Theorem update_then_get (entry : ContainerRegistryEntry) (file : RegistryFile) :
  file ≠ Unreadable →
  ∃ file',
    updateContainerEntry entry file = Ok (tt, file')
    ∧ getContainerEntry (containerName entry) file' = Ok (Some entry)
    ∧ ∀ name, name ≠ containerName entry →
        getContainerEntry name file' = getContainerEntry name file.
Proof.
  intros [registry Hr]%readable.
  pose proof (readRegistry_version _ _ Hr) as Hv.
  unfold updateContainerEntry. rewrite Hr. eexists. split; [reflexivity|].
  fold (upsert entry (entries registry)).
  unfold getContainerEntry at 1 2. unfold writeRegistry.
  rewrite readRegistry_written by done. cbn [entries withEntries].
  split.
  - by rewrite find_upsert, String.eqb_refl.
  - intros name Hne. unfold getContainerEntry. rewrite Hr.
    rewrite find_upsert.
    destruct (String.eqb (containerName entry) name) eqn:He; [|done].
    apply String.eqb_eq in He. congruence.
Qed.

Lemma find_filter_other (name other : string)
    (es : list ContainerRegistryEntry) :
  List.find (named other) (List.filter (λ e, negb (named name e)) es)
  = if String.eqb other name then None else List.find (named other) es.
Proof.
  induction es as [|x es IH]; simpl; [by destruct (String.eqb other name)|].
  destruct (named name x) eqn:Hx; simpl.
  - rewrite IH. apply named_true in Hx.
    destruct (String.eqb other name) eqn:Ho; [done|].
    apply String.eqb_neq in Ho.
    assert (named other x = false) as -> by (apply named_false; congruence).
    done.
  - destruct (named other x) eqn:Hox.
    + apply named_true in Hox. apply named_false in Hx.
      assert (String.eqb other name = false) as ->
        by (apply String.eqb_neq; congruence).
      done.
    + exact IH.
Qed.

Lemma filter_filter_same {A} (p : A → bool) (l : list A) :
  List.filter p (List.filter p l) = List.filter p l.
Proof.
  induction l as [|x l IH]; simpl; [done|].
  destruct (p x) eqn:Hp; simpl; [|done]. by rewrite Hp, IH.
Qed.

(** X9.  Remove, then look up: on a file that can be read,
    [removeContainerEntry] succeeds, no entry of that name is found
    afterwards (every entry of the name goes, not only the first), the
    answer for every other name is as before, and removing again
    changes nothing. *)
Theorem remove_then_get (name : string) (file : RegistryFile) :
  file ≠ Unreadable →
  ∃ file',
    removeContainerEntry name file = Ok (tt, file')
    ∧ getContainerEntry name file' = Ok None
    ∧ (∀ other, other ≠ name →
         getContainerEntry other file' = getContainerEntry other file)
    ∧ removeContainerEntry name file' = Ok (tt, file').
Proof.
  intros [registry Hr]%readable.
  pose proof (readRegistry_version _ _ Hr) as Hv.
  unfold removeContainerEntry. rewrite Hr. eexists. split; [reflexivity|].
  unfold getContainerEntry, writeRegistry.
  rewrite readRegistry_written by done. cbn [entries withEntries version].
  split; [|split].
  - by rewrite find_filter_other, String.eqb_refl.
  - intros other Hne. rewrite Hr, find_filter_other.
    by apply String.eqb_neq in Hne as ->.
  - unfold withEntries. cbn [version entries].
    by rewrite filter_filter_same.
Qed.

(** X10.  A stored document of another version is read as an empty registry,
    and the next entry written replaces the whole document: what it
    held is gone. *)
Theorem foreign_version_is_dropped (data : RegistryData)
    (entry : ContainerRegistryEntry) :
  version data ≠ REGISTRY_VERSION →
  listContainerEntries (Stored data) = Ok []
  ∧ updateContainerEntry entry (Stored data)
    = Ok (tt, Stored {| version := REGISTRY_VERSION; entries := [entry] |}).
Proof.
  intros Hv%Z.eqb_neq.
  unfold listContainerEntries, updateContainerEntry, readRegistry.
  by rewrite Hv.
Qed.

(** X11.  Every function that writes keeps the names of the entries unique. *)
Theorem writers_keep_names_unique (now : Z) (name key : string)
    (agent : option string) (st : ContainerStatus)
    (newId : option string) (newTurns : option Z) (existing : gset string)
    (entry : ContainerRegistryEntry) (file file' : RegistryFile)
    (removed : list string) :
  UniqueNames file →
  updateContainerEntry entry file = Ok (tt, file')
  ∨ removeContainerEntry name file = Ok (tt, file')
  ∨ updateContainerStatus now name st file = Ok (tt, file')
  ∨ updateContainerHeartbeat now name newId newTurns file = Ok (tt, file')
  ∨ assignContainerToSession now name key agent file = Ok (tt, file')
  ∨ unassignContainer now name file = Ok (tt, file')
  ∨ syncWithDocker existing file = Ok (removed, file')
  ∨ file' = clearRegistry file →
  UniqueNames file'.
Proof.
  unfold UniqueNames. intros Hu [H | [H | [H | [H | [H | [H | [H | H]]]]]]].
  - rewrite (updateContainerEntry_entries _ _ _ _ H). by apply upsert_names.
  - rewrite (removeContainerEntry_entries _ _ _ _ H). by apply filter_names.
  - rewrite (updateContainerStatus_entries _ _ _ _ _ _ H).
    by rewrite map_modifyFirst.
  - revert H. unfold updateContainerHeartbeat.
    destruct (readRegistry file) as [registry|] eqn:Hr; [|done].
    rewrite (entriesOf_read _ _ Hr) in Hu.
    destruct (List.find _ _); intros [= <-].
    + rewrite entriesOf_write by (by eapply readRegistry_version).
      by rewrite map_modifyFirst.
    + by rewrite (entriesOf_read _ _ Hr).
  - rewrite (assignContainerToSession_entries _ _ _ _ _ _ _ H).
    by rewrite map_modifyFirst.
  - rewrite (unassignContainer_entries _ _ _ _ _ H).
    by rewrite map_modifyFirst.
  - rewrite (syncWithDocker_entries _ _ _ _ H). by apply filter_names.
  - subst file'. constructor.
Qed.

Lemma filter_none_left {A} (p : A → bool) (l : list A) :
  List.filter (λ x, negb (p x)) (List.filter p l) = [].
Proof.
  induction l as [|x l IH]; simpl; [done|].
  destruct (p x) eqn:Hx; simpl; [|done]. by rewrite Hx.
Qed.

(** X12.  [syncWithDocker] keeps exactly the entries whose container exists,
    reports the names of the others, and is idempotent: a second call
    with the same set removes nothing and leaves the file alone. *)
Theorem syncWithDocker_keeps_existing (existing : gset string)
    (file file' : RegistryFile) (removed : list string) :
  syncWithDocker existing file = Ok (removed, file') →
  (∀ e, e ∈ entriesOf file'
        ↔ e ∈ entriesOf file ∧ containerName e ∈ existing)
  ∧ (∀ n, n ∈ removed
          ↔ ∃ e, e ∈ entriesOf file ∧ containerName e = n ∧ n ∉ existing)
  ∧ syncWithDocker existing file' = Ok ([], file').
Proof.
  intros H. pose proof (syncWithDocker_entries _ _ _ _ H) as He.
  split; [|split].
  - intros e. rewrite He, elem_of_filter_list, bool_decide_eq_true. done.
  - revert H. unfold syncWithDocker.
    destruct (readRegistry file) as [registry|] eqn:Hr; [|done].
    rewrite (entriesOf_read _ _ Hr).
    intros Hres.
    assert (removed = map containerName
              (List.filter (λ e, negb (bool_decide (containerName e ∈ existing)))
                 (entries registry))) as ->
      by (by destruct (0 <? _)%nat; injection Hres as <- _).
    intros n. rewrite list_elem_of_fmap. split.
    + intros (e & -> & Hin). apply elem_of_filter_list in Hin as [Hin Hk].
      exists e. apply negb_true_iff, bool_decide_eq_false in Hk. done.
    + intros (e & Hin & <- & Hn). exists e. split; [done|].
      apply elem_of_filter_list. split; [done|].
      by apply negb_true_iff, bool_decide_eq_false.
  - assert (Hread : ∃ registry', readRegistry file' = Ok registry').
    { revert H. unfold syncWithDocker.
      destruct (readRegistry file) as [registry|] eqn:Hr; [|done].
      destruct (0 <? _)%nat; intros [= _ <-].
      - eexists. apply read_after_write. by eapply readRegistry_version.
      - by eexists. }
    destruct Hread as [registry' Hr'].
    unfold syncWithDocker. rewrite Hr'.
    rewrite <- (entriesOf_read _ _ Hr'), He.
    by rewrite (filter_none_left
                  (λ e, bool_decide (containerName e ∈ existing))).
Qed.

(** X13.  A heartbeat refreshes the entry: [updateContainerHeartbeat] sets the
    time of the last heartbeat, replaces the resumable session id and
    the turn count only when they are given (a turn count of zero is
    given), keeps status and session, and the entry is then not among
    the stale ones for as long as the threshold lasts. *)
Theorem heartbeat_refreshes (now : Z) (name : string) (newId : option string)
    (newTurns : option Z) (file : RegistryFile) (e : ContainerRegistryEntry) :
  getContainerEntry name file = Ok (Some e) →
  ∃ file' e',
    updateContainerHeartbeat now name newId newTurns file = Ok (tt, file')
    ∧ getContainerEntry name file' = Ok (Some e')
    ∧ lastHeartbeat e' = now
    ∧ claudeSessionId e'
      = match newId with Some id => Some id | None => claudeSessionId e end
    ∧ turnCount e' = default (turnCount e) newTurns
    ∧ status e' = status e
    ∧ sessionKey e' = sessionKey e
    ∧ ∀ later threshold stale,
        later - now <= threshold →
        getStaleContainers later threshold file' = Ok stale →
        e' ∉ stale.
Proof.
  unfold getContainerEntry, updateContainerHeartbeat.
  destruct (readRegistry file) as [registry|] eqn:Hread; [|done].
  intros [= Hfind]. rewrite Hfind.
  pose proof (find_named _ _ _ Hfind) as Hname.
  pose proof (readRegistry_version _ _ Hread) as Hv.
  eexists _, _. split; [reflexivity|].
  rewrite read_after_write by done. cbn [entries withEntries].
  erewrite find_modifyFirst; [| exact Hfind | name_kept].
  split; [reflexivity|]. cbn.
  repeat split; try done; try by destruct newTurns.
  intros later threshold stale Hlater.
  unfold getStaleContainers. rewrite read_after_write by done.
  intros [= <-] [_ Hp]%elem_of_filter_list. cbn in Hp.
  destruct (negb _ && negb _); [done|].
  apply Z.gtb_lt in Hp. lia.
Qed.

(** X14.  Assignment decides what [listWarmContainers] lists: once
    unassigned, the container is listed; once assigned to a session,
    no entry of its name is (names being unique). *)
Theorem warm_list_follows_assignment (now : Z) (name key : string)
    (agent : option string) (file : RegistryFile) (e : ContainerRegistryEntry) :
  UniqueNames file →
  getContainerEntry name file = Ok (Some e) →
  (∃ file' warm e',
     unassignContainer now name file = Ok (tt, file')
     ∧ listWarmContainers file' = Ok warm
     ∧ e' ∈ warm ∧ containerName e' = name)
  ∧ (∃ file' warm,
       assignContainerToSession now name key agent file = Ok (tt, file')
       ∧ listWarmContainers file' = Ok warm
       ∧ ∀ x, x ∈ warm → containerName x ≠ name).
Proof.
  intros Hu Hget. unfold getContainerEntry in Hget.
  destruct (readRegistry file) as [registry|] eqn:Hread; [|done].
  injection Hget as Hfind.
  pose proof (find_named _ _ _ Hfind) as Hname.
  pose proof (readRegistry_version _ _ Hread) as Hv.
  unfold UniqueNames in Hu. rewrite (entriesOf_read _ _ Hread) in Hu.
  split.
  - unfold unassignContainer, listWarmContainers. rewrite Hread, Hfind.
    eexists _, _, (unassigns now e). split; [reflexivity|].
    rewrite read_after_write by done. split; [reflexivity|].
    cbn [entries withEntries]. split; [|done].
    apply elem_of_filter_list. split; [|done].
    apply list_elem_of_In.
    eapply (List.find_some (named name)).
    erewrite find_modifyFirst; [reflexivity | exact Hfind | name_kept].
  - unfold assignContainerToSession, listWarmContainers. rewrite Hread, Hfind.
    eexists _, _. split; [reflexivity|].
    rewrite read_after_write by done. split; [reflexivity|].
    cbn [entries withEntries]. intros x [Hx Hwarm]%elem_of_filter_list Hxn.
    assert (Hnd : NoDup (map containerName
              (modifyFirst (named name) (assigns now key agent) (entries registry))))
      by (by rewrite map_modifyFirst).
    assert (Hin : assigns now key agent e
              ∈ modifyFirst (named name) (assigns now key agent) (entries registry)).
    { apply list_elem_of_In. eapply (List.find_some (named name)).
      erewrite find_modifyFirst; [reflexivity | exact Hfind | name_kept]. }
    assert (x = assigns now key agent e) as ->.
    { eapply unique_by_name; [exact Hnd | exact Hx | exact Hin |].
      simpl. congruence. }
    done.
Qed.

Lemma update_then_get_witness :
  ∃ file',
    updateContainerEntry sampleEntry Missing = Ok (tt, file')
    ∧ getContainerEntry (containerName sampleEntry) file' = Ok (Some sampleEntry)
    ∧ ∀ name, name ≠ containerName sampleEntry →
        getContainerEntry name file' = getContainerEntry name Missing.
Proof. apply (update_then_get sampleEntry Missing). discriminate. Defined.

Lemma remove_then_get_witness :
  let file := Stored {| version := 1; entries := [sampleEntry; sampleEntry] |} in
  ∃ file',
    removeContainerEntry "clawdbot-cc-s1-e5f" file = Ok (tt, file')
    ∧ getContainerEntry "clawdbot-cc-s1-e5f" file' = Ok None
    ∧ (∀ other, other ≠ "clawdbot-cc-s1-e5f" →
         getContainerEntry other file' = getContainerEntry other file)
    ∧ removeContainerEntry "clawdbot-cc-s1-e5f" file' = Ok (tt, file').
Proof.
  apply (remove_then_get "clawdbot-cc-s1-e5f"
           (Stored {| version := 1; entries := [sampleEntry; sampleEntry] |})).
  discriminate.
Defined.

Lemma foreign_version_is_dropped_witness :
  listContainerEntries (Stored {| version := 2; entries := [sampleEntry] |})
  = Ok []
  ∧ updateContainerEntry sampleEntry
      (Stored {| version := 2; entries := [sampleEntry; sampleEntry] |})
    = Ok (tt, Stored {| version := REGISTRY_VERSION; entries := [sampleEntry] |}).
Proof.
  split.
  - apply (foreign_version_is_dropped
             {| version := 2; entries := [sampleEntry] |} sampleEntry).
    discriminate.
  - apply (foreign_version_is_dropped
             {| version := 2; entries := [sampleEntry; sampleEntry] |}
             sampleEntry).
    discriminate.
Defined.

Lemma writers_keep_names_unique_witness :
  UniqueNames (Stored {| version := 1; entries := [] |}).
Proof.
  apply (writers_keep_names_unique 0 "clawdbot-cc-s1-e5f" "s" None idle None
           None ∅ sampleEntry
           (Stored {| version := 1; entries := [sampleEntry] |})
           (Stored {| version := 1; entries := [] |}) []).
  - repeat constructor. apply not_elem_of_nil.
  - right. left. reflexivity.
Defined.

Lemma syncWithDocker_keeps_existing_witness :
  let file := Stored {| version := 1; entries := [sampleEntry] |} in
  let file' := Stored {| version := 1; entries := [] |} in
  (∀ e, e ∈ entriesOf file' ↔ e ∈ entriesOf file ∧ containerName e ∈ (∅ : gset string))
  ∧ (∀ n, n ∈ ["clawdbot-cc-s1-e5f"]
          ↔ ∃ e, e ∈ entriesOf file ∧ containerName e = n
                 ∧ n ∉ (∅ : gset string))
  ∧ syncWithDocker ∅ file' = Ok ([], file').
Proof.
  apply (syncWithDocker_keeps_existing ∅
           (Stored {| version := 1; entries := [sampleEntry] |})
           (Stored {| version := 1; entries := [] |})
           ["clawdbot-cc-s1-e5f"]).
  reflexivity.
Defined.

Lemma heartbeat_refreshes_witness :
  ∃ file' e',
    updateContainerHeartbeat 9000 "clawdbot-cc-s1-e5f" None (Some 0)
      (Stored {| version := 1; entries := [sampleEntry] |}) = Ok (tt, file')
    ∧ getContainerEntry "clawdbot-cc-s1-e5f" file' = Ok (Some e')
    ∧ lastHeartbeat e' = 9000
    ∧ claudeSessionId e' = Some "resume-7"
    ∧ turnCount e' = 0
    ∧ status e' = running
    ∧ sessionKey e' = None
    ∧ ∀ later threshold stale,
        later - 9000 <= threshold →
        getStaleContainers later threshold file' = Ok stale →
        e' ∉ stale.
Proof.
  apply (heartbeat_refreshes 9000 "clawdbot-cc-s1-e5f" None (Some 0)
           (Stored {| version := 1; entries := [sampleEntry] |}) sampleEntry).
  reflexivity.
Defined.

Lemma warm_list_follows_assignment_witness :
  let file := Stored {| version := 1; entries := [sampleEntry] |} in
  (∃ file' warm e',
     unassignContainer 5000 "clawdbot-cc-s1-e5f" file = Ok (tt, file')
     ∧ listWarmContainers file' = Ok warm
     ∧ e' ∈ warm ∧ containerName e' = "clawdbot-cc-s1-e5f")
  ∧ (∃ file' warm,
       assignContainerToSession 5000 "clawdbot-cc-s1-e5f" "s1" (Some "main") file
       = Ok (tt, file')
       ∧ listWarmContainers file' = Ok warm
       ∧ ∀ x, x ∈ warm → containerName x ≠ "clawdbot-cc-s1-e5f").
Proof.
  apply (warm_list_follows_assignment 5000 "clawdbot-cc-s1-e5f" "s1" (Some "main")
           (Stored {| version := 1; entries := [sampleEntry] |}) sampleEntry).
  - repeat constructor. apply not_elem_of_nil.
  - reflexivity.
Defined.

End Registry.

(* ===================================================================== *)
(** * Numbers and dates of the language                                   *)
(* ===================================================================== *)

Module Js.

Local Open Scope Z_scope.

(** A number that is an integer or [NaN]. *)
Inductive Num := NaN | Fin (z : Z).

(** [a > b] on numbers: false when either is [NaN]. *)
Definition gt (a : Num) (b : Z) : bool :=
  match a with Fin z => z >? b | NaN => false end.

(** [a - b]. *)
Definition sub (a : Z) (b : Num) : Num :=
  match b with Fin z => Fin (a - z) | NaN => NaN end.

(** Truthiness of a string that may be [undefined]. *)
Definition truthy (s : option string) : bool :=
  match s with
  | Some s => negb (String.eqb s "")
  | None => false
  end.

(** [a || b] on strings that may be [undefined]. *)
Definition orElse (a b : option string) : option string :=
  if truthy a then a else b.

Definition digitValue (c : ascii) : option Z :=
  let n := nat_of_ascii c in
  if ((48 <=? n) && (n <=? 57))%nat then Some (Z.of_nat n - 48) else None.

(** The value of a string of decimal digits, [None] if some character is
    not a digit. *)
Fixpoint digitsValue (s : list ascii) (acc : Z) : option Z :=
  match s with
  | [] => Some acc
  | c :: r =>
      match digitValue c with
      | Some d => digitsValue r (10 * acc + d)
      | None => None
      end
  end.

(** The longest prefix of decimal digits. *)
Fixpoint digitPrefix (s : list ascii) : list ascii :=
  match s with
  | c :: r => match digitValue c with
              | Some _ => c :: digitPrefix r
              | None => []
              end
  | [] => []
  end.

(** [Number.parseInt(s, 10)]. *)
Definition parseInt10 (s : string) : Num :=
  let t := JSON.skipWs (list_ascii_of_string s) in
  let '(sign, t) :=
    match t with
    | "-"%char :: r => (-1, r)
    | "+"%char :: r => (1, r)
    | _ => (1, t)
    end in
  match digitPrefix t with
  | [] => NaN
  | ds => match digitsValue ds 0 with
          | Some v => Fin (sign * v)
          | None => NaN
          end
  end.

(** Days from 1970-01-01 to the given civil date. *)
Definition daysFromCivil (y m d : Z) : Z :=
  let y' := if m <=? 2 then y - 1 else y in
  let era := y' / 400 in
  let yoe := y' - era * 400 in
  let mp := if m >? 2 then m - 3 else m + 9 in
  let doy := (153 * mp + 2) / 5 + d - 1 in
  let doe := yoe * 365 + yoe / 4 - yoe / 100 + doy in
  era * 146097 + doe - 719468.

Definition isLeap (y : Z) : bool :=
  ((y mod 4 =? 0) && negb (y mod 100 =? 0)) || (y mod 400 =? 0).

Definition daysInMonth (y m : Z) : Z :=
  if m =? 2 then (if isLeap y then 29 else 28)
  else if (m =? 4) || (m =? 6) || (m =? 9) || (m =? 11) then 30 else 31.

(** [new Date(s).getTime()] for a string that
    [Date.prototype.toISOString] writes, [YYYY-MM-DDTHH:mm:ss.sssZ].
    Strings of another shape, or with a field out of range, are outside
    this model and answer [NaN]. *)
Definition isoTime (s : string) : Num :=
  match list_ascii_of_string s with
  | [y1; y2; y3; y4; "-"; m1; m2; "-"; d1; d2; "T";
     h1; h2; ":"; n1; n2; ":"; s1; s2; "."; f1; f2; f3; "Z"]%char =>
      match digitsValue [y1; y2; y3; y4] 0, digitsValue [m1; m2] 0,
            digitsValue [d1; d2] 0, digitsValue [h1; h2] 0,
            digitsValue [n1; n2] 0, digitsValue [s1; s2] 0,
            digitsValue [f1; f2; f3] 0 with
      | Some y, Some m, Some d, Some h, Some n, Some sec, Some ms =>
          if (1 <=? m) && (m <=? 12) && (1 <=? d) && (d <=? daysInMonth y m)
             && (h <=? 23) && (n <=? 59) && (sec <=? 59)
          then Fin ((((daysFromCivil y m d * 24 + h) * 60 + n) * 60 + sec)
                    * 1000 + ms)
          else NaN
      | _, _, _, _, _, _, _ => NaN
      end
  | _ => NaN
  end.

Example isoTime_epoch : isoTime "1970-01-01T00:00:00.000Z" = Fin 0.
Proof. reflexivity. Qed.

Example isoTime_2024 : isoTime "2024-01-01T00:00:00.000Z" = Fin 1704067200000.
Proof. vm_compute. reflexivity. Qed.

Example isoTime_leap : isoTime "2024-02-29T12:30:15.250Z" = Fin 1709209815250.
Proof. vm_compute. reflexivity. Qed.

Example parseInt10_examples :
  parseInt10 "42" = Fin 42 ∧ parseInt10 " -7x" = Fin (-7) ∧ parseInt10 "x" = NaN.
Proof. repeat split; vm_compute; reflexivity. Qed.

(** ** Integers written out and read back *)

Definition digitChars (d : Decimal.uint) : list ascii :=
  list_ascii_of_string (NilEmpty.string_of_uint d).

Lemma digitPrefix_digits (d : Decimal.uint) :
  digitPrefix (digitChars d) = digitChars d.
Proof.
  unfold digitChars. induction d; simpl; [done|..]; by rewrite IHd.
Qed.

Lemma digitsValue_acc (d : Decimal.uint) :
  ∀ acc : positive,
    digitsValue (digitChars d) (Z.pos acc) = Some (Z.pos (Pos.of_uint_acc d acc)).
Proof.
  unfold digitChars.
  induction d; intros acc; [done|..];
    cbn [NilEmpty.string_of_uint list_ascii_of_string digitsValue
         Pos.of_uint_acc];
    (etransitivity; [|apply IHd]); f_equal;
    rewrite ?Pos2Z.inj_add, ?Pos2Z.inj_mul; vm_compute (Z.of_nat _); lia.
Qed.

Lemma digitsValue_digits (d : Decimal.uint) :
  digitsValue (digitChars d) 0 = Some (Z.of_N (Pos.of_uint d)).
Proof.
  unfold digitChars.
  induction d; [done|..];
    cbn [NilEmpty.string_of_uint list_ascii_of_string digitsValue Pos.of_uint];
    first [ exact IHd | apply (digitsValue_acc d) ].
Qed.

(** [Number.prototype.toString] for an integer below [10^21] in
    absolute value. *)
Definition integerToString (z : Z) : string :=
  NilZero.string_of_int (Z.to_int z).

Lemma parseInt10_digits (d : Decimal.uint) (sign : Z) (s : list ascii) :
  d ≠ Decimal.Nil →
  match digitPrefix (digitChars d) with
  | [] => NaN
  | ds => match digitsValue ds 0 with
          | Some v => Fin (sign * v)
          | None => NaN
          end
  end = Fin (sign * Z.of_N (Pos.of_uint d)).
Proof.
  intros Hd. rewrite digitPrefix_digits.
  pose proof (digitsValue_digits d) as Hv.
  destruct (digitChars d) eqn:Hc; [by destruct d|]. by rewrite Hv.
Qed.

Lemma parseInt10_unsigned (d : Decimal.uint) :
  d ≠ Decimal.Nil →
  parseInt10 (NilEmpty.string_of_uint d) = Fin (Z.of_N (Pos.of_uint d)).
Proof.
  intros Hd. pose proof (parseInt10_digits d 1 [] Hd) as H.
  rewrite Z.mul_1_l in H. rewrite <- H. unfold parseInt10, digitChars.
  by destruct d.
Qed.

Lemma parseInt10_negative (d : Decimal.uint) :
  d ≠ Decimal.Nil →
  parseInt10 (String "-" (NilEmpty.string_of_uint d))
  = Fin (- Z.of_N (Pos.of_uint d)).
Proof.
  intros Hd. pose proof (parseInt10_digits d (-1) [] Hd) as H.
  replace (- Z.of_N (Pos.of_uint d)) with (-1 * Z.of_N (Pos.of_uint d)) by lia.
  rewrite <- H. done.
Qed.

(** An integer written out and read back by [parseInt] is itself. *)
Lemma parseInt10_integerToString (z : Z) :
  parseInt10 (integerToString z) = Fin z.
Proof.
  unfold integerToString. destruct z as [|p|p]; [done| |].
  - pose proof (Unsigned.to_uint_nonnil p) as Hn.
    cbn [Z.to_int NilZero.string_of_int].
    replace (NilZero.string_of_uint (Pos.to_uint p))
      with (NilEmpty.string_of_uint (Pos.to_uint p))
      by (by destruct (Pos.to_uint p)).
    rewrite parseInt10_unsigned by done.
    by rewrite DecimalPos.Unsigned.of_to.
  - pose proof (Unsigned.to_uint_nonnil p) as Hn.
    cbn [Z.to_int NilZero.string_of_int].
    replace (NilZero.string_of_uint (Pos.to_uint p))
      with (NilEmpty.string_of_uint (Pos.to_uint p))
      by (by destruct (Pos.to_uint p)).
    rewrite parseInt10_negative by done.
    by rewrite DecimalPos.Unsigned.of_to.
Qed.

Lemma integerToString_nonempty (z : Z) : integerToString z ≠ "".
Proof.
  unfold integerToString. destruct z as [|p|p]; [done| |done].
  pose proof (Unsigned.to_uint_nonnil p) as Hn. simpl.
  by destruct (Pos.to_uint p).
Qed.

(** [Number.MAX_SAFE_INTEGER]: up to it in absolute value every integer
    is a number of JavaScript, printed by [toString] digit by digit. *)
Definition MAX_SAFE_INTEGER : Z := 9007199254740991.

(** [n.toString()] for a number that is [NaN] or such an integer. *)
Definition numberToString (n : Num) : string :=
  match n with
  | Fin z => integerToString z
  | NaN => "NaN"
  end.

End Js.

(* ===================================================================== *)
(** * Broker client  ([redis-client.ts])                                  *)
(* ===================================================================== *)

Module RedisClient.

Import Config.
Local Open Scope string_scope.
Local Open Scope list_scope.
Local Open Scope Z_scope.

(** The broker's data that the host reads and writes: hashes, plain
    values and lists, by key. *)
Record Store := mkStore {
  hashes : gmap string (gmap string string);
  values : gmap string string;
  lists : gmap string (list string)
}.

(** [SessionRedisKeys]. *)
Record SessionRedisKeys := mkKeys {
  k_input : string;
  k_output : string;
  k_outputBuffer : string;
  k_state : string;
  k_result : string;
  k_control : string;
  k_interruptQueue : string
}.

(** [getSessionRedisKeys] of [config.ts]. *)
Definition getSessionRedisKeys (sessionKey : string)
    (config : DockerCCPoolConfig) : SessionRedisKeys :=
  let key := (redis_keyPrefix config ++ sessionKey)%string in
  {| k_input := key ++ ":input";
     k_output := key ++ ":output";
     k_outputBuffer := key ++ ":output_buffer";
     k_state := key ++ ":state";
     k_result := key ++ ":result";
     k_control := key ++ ":control";
     k_interruptQueue := key ++ ":interrupt_queue" |}%string.

(** [HGETALL]: the empty object for a key that does not exist. *)
Definition hgetall (key : string) (store : Store) : gmap string string :=
  default ∅ (hashes store !! key).

(** [GET]. *)
Definition get (key : string) (store : Store) : option string :=
  values store !! key.

(** [RPUSH]. *)
Definition rpush (key value : string) (store : Store) : Store :=
  {| hashes := hashes store; values := values store;
     lists := <[key := default [] (lists store !! key) ++ [value]]> (lists store) |}.

(** [ContainerHealthStatus], with what the fields of the hash can hold
    at run time. *)
Record ContainerHealthStatus := mkHealthStatus {
  sessionId : string;
  status : option string;
  lastHeartbeat : option string;
  claudeSessionId : option string;
  turnCount : Js.Num
}.

(** The fields of [DockerCCRedisClient] that the calls below test:
    [client] and [subscriber] are connections or [null], and
    [subscriptions] maps a session key to its channel. *)
Record Client := mkClient {
  client : bool;
  subscriber : bool;
  subscriptions : gmap string string;
  isConnected : bool
}.

(** [getSessionState]. *)
Definition getSessionState (config : DockerCCPoolConfig) (c : Client)
    (sessionKey : string) (store : Store)
  : Result (option ContainerHealthStatus) :=
  if negb (client c) then Err "Not connected to Redis"
  else
    let keys := getSessionRedisKeys sessionKey config in
    let state := hgetall (k_state keys) store in
    if (size state =? 0)%nat then Ok None
    else
      Ok (Some
        {| sessionId := sessionKey;
           status := state !! "status";
           lastHeartbeat :=
             Js.orElse (state !! "last_heartbeat") (state !! "lastHeartbeat");
           claudeSessionId :=
             Js.orElse (state !! "claude_session_id") (state !! "claudeSessionId");
           turnCount :=
             Js.parseInt10
               (default "0"
                  (Js.orElse (Js.orElse (state !! "turn_count")
                                        (state !! "turnCount"))
                             (Some "0"))) |}).

(** ** The keys of a session *)

Definition keyList (k : SessionRedisKeys) : list string :=
  [k_input k; k_output k; k_outputBuffer k; k_state k; k_result k;
   k_control k; k_interruptQueue k].

Lemma chars_app (a b : string) :
  list_ascii_of_string (a ++ b)
  = list_ascii_of_string a ++ list_ascii_of_string b.
Proof. induction a as [|c a IH]; simpl; [done|]. by rewrite IH. Qed.

Lemma chars_inj (a b : string) :
  list_ascii_of_string a = list_ascii_of_string b → a = b.
Proof.
  intros H. apply (f_equal string_of_list_ascii) in H.
  by rewrite !string_of_list_ascii_of_string in H.
Qed.

(** Two keys, each the prefix, a session key and a suffix, seen from
    their ends. *)
Lemma key_ends (p s1 s2 a b : string) :
  ((p ++ s1) ++ a)%string = ((p ++ s2) ++ b)%string →
  rev (list_ascii_of_string a) ++ rev (list_ascii_of_string s1)
  = rev (list_ascii_of_string b) ++ rev (list_ascii_of_string s2).
Proof.
  intros H. apply (f_equal list_ascii_of_string) in H.
  rewrite !chars_app, <- !app_assoc in H. apply app_inv_head in H.
  apply (f_equal (@rev ascii)) in H. by rewrite !rev_app_distr in H.
Qed.

Lemma rev_chars_inj (s1 s2 : string) :
  rev (list_ascii_of_string s1) = rev (list_ascii_of_string s2) → s1 = s2.
Proof.
  intros H. apply chars_inj. apply (f_equal (@rev ascii)) in H.
  by rewrite !rev_involutive in H.
Qed.

(** No suffix ends another: equal keys come from the same session and
    have the same role. *)
Lemma keys_clash (config : DockerCCPoolConfig) (s1 s2 k : string) (i j : nat) :
  keyList (getSessionRedisKeys s1 config) !! i = Some k →
  keyList (getSessionRedisKeys s2 config) !! j = Some k →
  s1 = s2 ∧ i = j.
Proof.
  intros Hi Hj. unfold keyList, getSessionRedisKeys in *.
  cbn [k_input k_output k_outputBuffer k_state k_result k_control
       k_interruptQueue] in *.
  destruct i as [|[|[|[|[|[|[|i]]]]]]]; try done;
  destruct j as [|[|[|[|[|[|[|j]]]]]]]; try done;
  simpl in Hi, Hj; rewrite <- Hj in Hi; injection Hi as Hi;
  apply key_ends in Hi; simpl in Hi;
  first [ discriminate Hi
        | split; [|done]; apply rev_chars_inj; by simplify_list_eq ].
Qed.

(** X15.  The seven keys of a session are distinct, and no key of one session
    is a key of another, whatever the session keys are. *)
Theorem session_keys_disjoint (config : DockerCCPoolConfig) (s1 s2 : string) :
  NoDup (keyList (getSessionRedisKeys s1 config))
  ∧ (s1 ≠ s2 →
     ∀ k, k ∈ keyList (getSessionRedisKeys s1 config) →
          k ∉ keyList (getSessionRedisKeys s2 config)).
Proof.
  split.
  - apply NoDup_alt. intros i j k Hi Hj.
    by destruct (keys_clash config s1 s1 k i j Hi Hj).
  - intros Hne k [i Hi]%list_elem_of_lookup [j Hj]%list_elem_of_lookup.
    by destruct (keys_clash config s1 s2 k i j Hi Hj).
Qed.

(** ** Writing and clearing the data of a session *)

(** [DEL]: the keys are gone, whatever they held. *)
Definition del (keys : list string) (store : Store) : Store :=
  {| hashes := foldr delete (hashes store) keys;
     values := foldr delete (values store) keys;
     lists := foldr delete (lists store) keys |}.

(** [HSET key mapping]: the fields of the mapping are set, the other
    fields of the hash stay.  The broker refuses a command without
    fields. *)
Definition hset (key : string) (mapping : gmap string string) (store : Store)
  : Result Store :=
  if (size mapping =? 0)%nat
  then Err "ERR wrong number of arguments for 'hset' command"
  else Ok {| hashes := <[key := mapping ∪ hgetall key store]> (hashes store);
             values := values store; lists := lists store |}.

(** [LRANGE key 0 -1]. *)
Definition lrange (key : string) (store : Store) : list string :=
  default [] (lists store !! key).

(** [LTRIM key -n -1]: the last [n] elements stay. *)
Definition ltrimLast (key : string) (n : nat) (store : Store) : Store :=
  match lists store !! key with
  | Some l =>
      {| hashes := hashes store; values := values store;
         lists := <[key := drop (length l - n) l]> (lists store) |}
  | None => store
  end.

Definition MAX_OUTPUT_BUFFER : nat := 1000.

(** [clearSessionData]. *)
Definition clearSessionData (config : DockerCCPoolConfig) (c : Client)
    (sessionKey : string) (store : Store) : Result Store :=
  if negb (client c) then Err "Not connected to Redis"
  else Ok (del (keyList (getSessionRedisKeys sessionKey config)) store).

(** [Partial<ContainerHealthStatus>], the fields that
    [updateSessionState] reads. *)
Record PartialHealthStatus := mkPartialHealth {
  ps_status : option string;
  ps_lastHeartbeat : option string;
  ps_claudeSessionId : option string;
  ps_turnCount : option Js.Num
}.

(** [if (value) mapping[field] = value]. *)
Definition setIfTruthy (field : string) (value : option string)
    (mapping : gmap string string) : gmap string string :=
  if Js.truthy value then <[field := default "" value]> mapping else mapping.

(** [updateSessionState].  The expiry that it sets on the key is not
    part of the store: what is written is what a read finds for as
    long as the key lives. *)
Definition updateSessionState (config : DockerCCPoolConfig) (c : Client)
    (sessionKey : string) (state : PartialHealthStatus) (store : Store)
  : Result Store :=
  if negb (client c) then Err "Not connected to Redis"
  else
    let keys := getSessionRedisKeys sessionKey config in
    let mapping : gmap string string := ∅ in
    let mapping := setIfTruthy "status" (ps_status state) mapping in
    let mapping := setIfTruthy "last_heartbeat" (ps_lastHeartbeat state) mapping in
    let mapping :=
      setIfTruthy "claude_session_id" (ps_claudeSessionId state) mapping in
    let mapping :=
      match ps_turnCount state with
      | Some n => <["turn_count" := Js.numberToString n]> mapping
      | None => mapping
      end in
    hset (k_state keys) mapping store.

(** [publishOutput], given the text of the payload
    ([JSON.stringify(payload)]).  Publishing on the channel reaches the
    subscribers and leaves the store alone, and the expiry is not part
    of the store. *)
Definition publishOutput (config : DockerCCPoolConfig) (c : Client)
    (sessionKey : string) (payloadJson : string) (store : Store)
  : Result Store :=
  if negb (client c) then Err "Not connected to Redis"
  else
    let keys := getSessionRedisKeys sessionKey config in
    let store := rpush (k_outputBuffer keys) payloadJson store in
    Ok (ltrimLast (k_outputBuffer keys) MAX_OUTPUT_BUFFER store).

Lemma lookup_foldr_delete {A} (keys : list string) (m : gmap string A)
    (k : string) :
  foldr delete m keys !! k = if bool_decide (k ∈ keys) then None else m !! k.
Proof.
  induction keys as [|x keys IH]; simpl; [done|].
  destruct (decide (x = k)) as [-> | Hne].
  - rewrite lookup_delete_eq, bool_decide_eq_true_2; [done | by left].
  - rewrite lookup_delete_ne, IH by done.
    destruct (bool_decide (k ∈ keys)) eqn:Hk.
    + apply bool_decide_eq_true in Hk.
      rewrite bool_decide_eq_true_2; [done | by right].
    + apply bool_decide_eq_false in Hk.
      rewrite bool_decide_eq_false_2; [done|].
      intros [-> | ?]%elem_of_cons; done.
Qed.

Lemma state_key_listed (config : DockerCCPoolConfig) (s : string) :
  k_state (getSessionRedisKeys s config)
  ∈ keyList (getSessionRedisKeys s config).
Proof. unfold keyList. set_solver. Qed.

Lemma result_key_listed (config : DockerCCPoolConfig) (s : string) :
  k_result (getSessionRedisKeys s config)
  ∈ keyList (getSessionRedisKeys s config).
Proof. unfold keyList. set_solver. Qed.

Lemma input_key_listed (config : DockerCCPoolConfig) (s : string) :
  k_input (getSessionRedisKeys s config)
  ∈ keyList (getSessionRedisKeys s config).
Proof. unfold keyList. set_solver. Qed.

Lemma foreign_key (config : DockerCCPoolConfig) (s s' k : string) :
  s' ≠ s →
  k ∈ keyList (getSessionRedisKeys s' config) →
  k ∉ keyList (getSessionRedisKeys s config).
Proof.
  intros Hne [i Hi]%list_elem_of_lookup [j Hj]%list_elem_of_lookup.
  by destruct (keys_clash config s' s k i j Hi Hj).
Qed.

(** X16.  Clearing one session leaves the others alone.  After
    [clearSessionData] the session has no state record, no result and
    no queued input; for every other session, whatever its key, the
    state record, the result and the input queue are what they were. *)
Theorem clearSessionData_isolated (config : DockerCCPoolConfig) (c : Client)
    (sessionKey : string) (store : Store) :
  client c = true →
  ∃ store',
    clearSessionData config c sessionKey store = Ok store'
    ∧ getSessionState config c sessionKey store' = Ok None
    ∧ get (k_result (getSessionRedisKeys sessionKey config)) store' = None
    ∧ lrange (k_input (getSessionRedisKeys sessionKey config)) store' = []
    ∧ ∀ other, other ≠ sessionKey →
        let keys := getSessionRedisKeys other config in
        getSessionState config c other store'
        = getSessionState config c other store
        ∧ get (k_result keys) store' = get (k_result keys) store
        ∧ lrange (k_input keys) store' = lrange (k_input keys) store.
Proof.
  intros Hc. unfold clearSessionData. rewrite Hc. cbn [negb].
  eexists. split; [reflexivity|].
  unfold getSessionState, hgetall, get, lrange, del. rewrite Hc.
  cbn [negb hashes values lists]. rewrite !lookup_foldr_delete.
  rewrite !bool_decide_eq_true_2
    by (apply state_key_listed || apply result_key_listed
        || apply input_key_listed).
  repeat split; try done.
  - rewrite lookup_foldr_delete, bool_decide_eq_false_2; [done|].
    apply (foreign_key config sessionKey other); [done | apply state_key_listed].
  - rewrite lookup_foldr_delete, bool_decide_eq_false_2; [done|].
    apply (foreign_key config sessionKey other); [done | apply result_key_listed].
  - rewrite lookup_foldr_delete, bool_decide_eq_false_2; [done|].
    apply (foreign_key config sessionKey other); [done | apply input_key_listed].
Qed.

Lemma hgetall_written (key : string) (m : gmap string string)
    (h : gmap string (gmap string string)) (v : gmap string string)
    (l : gmap string (list string)) :
  hgetall key {| hashes := <[key := m]> h; values := v; lists := l |} = m.
Proof. unfold hgetall. cbn [hashes]. by rewrite lookup_insert_eq. Qed.

Lemma truthy_Some_iff (v : option string) (s : string) :
  v = Some s → s ≠ "" → Js.truthy v = true.
Proof. intros -> Hs. simpl. by apply negb_true_iff, String.eqb_neq. Qed.

(** X17.  What was written is read back.  When the state given has a status,
    [updateSessionState] succeeds and [getSessionState] then returns
    that status, and returns the heartbeat, the resumable session id
    and the turn count (a safe integer) that were given, whatever the
    hash held before under either spelling of their fields. *)
Theorem updateSessionState_then_get (config : DockerCCPoolConfig) (c : Client)
    (sessionKey : string) (state : PartialHealthStatus) (store : Store)
    (st : string) :
  client c = true →
  ps_status state = Some st → st ≠ "" →
  ∃ store' r,
    updateSessionState config c sessionKey state store = Ok store'
    ∧ getSessionState config c sessionKey store' = Ok (Some r)
    ∧ sessionId r = sessionKey
    ∧ status r = Some st
    ∧ (∀ h, ps_lastHeartbeat state = Some h → h ≠ "" →
         lastHeartbeat r = Some h)
    ∧ (∀ id, ps_claudeSessionId state = Some id → id ≠ "" →
         claudeSessionId r = Some id)
    ∧ (∀ n, ps_turnCount state = Some (Js.Fin n) →
         Z.abs n <= Js.MAX_SAFE_INTEGER → turnCount r = Js.Fin n).
Proof.
  intros Hc Hst Hne. unfold updateSessionState. rewrite Hc. cbn [negb].
  cbn zeta.
  assert (E : setIfTruthy "status" (ps_status state) ∅
              = <["status" := st]> (∅ : gmap string string)).
  { unfold setIfTruthy. by rewrite (truthy_Some_iff _ st Hst Hne), Hst. }
  rewrite E. clear E.
  set (m1 := <["status" := st]> (∅ : gmap string string)).
  set (m2 := setIfTruthy "last_heartbeat" (ps_lastHeartbeat state) m1).
  set (m3 := setIfTruthy "claude_session_id" (ps_claudeSessionId state) m2).
  set (m4 := match ps_turnCount state with
             | Some n => <["turn_count" := Js.numberToString n]> m3
             | None => m3
             end).
  assert (H1 : m1 !! "status" = Some st) by apply lookup_insert_eq.
  assert (H2 : m2 !! "status" = Some st).
  { unfold m2, setIfTruthy. destruct (Js.truthy _); [|done].
    by rewrite lookup_insert_ne. }
  assert (H3 : m3 !! "status" = Some st).
  { unfold m3, setIfTruthy. destruct (Js.truthy _); [|done].
    by rewrite lookup_insert_ne. }
  assert (H4 : m4 !! "status" = Some st).
  { unfold m4. destruct (ps_turnCount state); [|done].
    by rewrite lookup_insert_ne. }
  assert (Hsize : (size m4 =? 0)%nat = false).
  { apply Nat.eqb_neq. intros Hz%map_size_empty_iff.
    rewrite Hz in H4. by rewrite lookup_empty in H4. }
  unfold hset. rewrite Hsize. eexists _, _. split; [reflexivity|].
  unfold getSessionState. rewrite Hc. cbn [negb].
  rewrite hgetall_written.
  set (old := hgetall _ store).
  assert (Hsize' : (size (m4 ∪ old) =? 0)%nat = false).
  { apply Nat.eqb_neq. intros Hz%map_size_empty_iff.
    assert (Hl : (m4 ∪ old) !! "status" = Some st)
      by (by apply lookup_union_Some_l).
    rewrite Hz in Hl. by rewrite lookup_empty in Hl. }
  rewrite Hsize'. split; [reflexivity|].
  cbn [sessionId status lastHeartbeat claudeSessionId turnCount].
  split; [done|]. split; [by apply lookup_union_Some_l|].
  split; [|split].
  - intros h Hh Hhne.
    assert (Hl : m4 !! "last_heartbeat" = Some h).
    { unfold m4. destruct (ps_turnCount state);
        rewrite ?lookup_insert_ne by done;
        unfold m3, setIfTruthy; destruct (Js.truthy (ps_claudeSessionId _));
        rewrite ?lookup_insert_ne by done;
        unfold m2, setIfTruthy; rewrite (truthy_Some_iff _ h Hh Hhne), Hh;
        apply lookup_insert_eq. }
    rewrite (lookup_union_Some_l _ _ _ _ Hl). unfold Js.orElse.
    by rewrite (truthy_Some_iff _ h eq_refl Hhne).
  - intros i Hi Hine.
    assert (Hl : m4 !! "claude_session_id" = Some i).
    { unfold m4. destruct (ps_turnCount state);
        rewrite ?lookup_insert_ne by done;
        unfold m3, setIfTruthy; rewrite (truthy_Some_iff _ i Hi Hine), Hi;
        apply lookup_insert_eq. }
    rewrite (lookup_union_Some_l _ _ _ _ Hl). unfold Js.orElse.
    by rewrite (truthy_Some_iff _ i eq_refl Hine).
  - intros n Hn _.
    assert (Hl : m4 !! "turn_count" = Some (Js.integerToString n)).
    { unfold m4. rewrite Hn. apply lookup_insert_eq. }
    rewrite (lookup_union_Some_l _ _ _ _ Hl). unfold Js.orElse at 2.
    pose proof (Js.integerToString_nonempty n) as Hnz.
    rewrite (truthy_Some_iff _ _ eq_refl Hnz). unfold Js.orElse.
    rewrite (truthy_Some_iff _ _ eq_refl Hnz). cbn [default from_option id].
    apply Js.parseInt10_integerToString.
Qed.

(** X18.  The buffer of a session never holds more than
    [MAX_OUTPUT_BUFFER] payloads: after [publishOutput] it holds the
    last payloads of what it held followed by the new one, the new one
    last. *)
Theorem publishOutput_bounds_buffer (config : DockerCCPoolConfig) (c : Client)
    (sessionKey payloadJson : string) (store : Store) :
  client c = true →
  let key := k_outputBuffer (getSessionRedisKeys sessionKey config) in
  let all := lrange key store ++ [payloadJson] in
  ∃ store',
    publishOutput config c sessionKey payloadJson store = Ok store'
    ∧ lrange key store' = drop (length all - MAX_OUTPUT_BUFFER) all
    ∧ (length (lrange key store') <= MAX_OUTPUT_BUFFER)%nat
    ∧ last (lrange key store') = Some payloadJson.
Proof.
  intros Hc key all. unfold publishOutput. rewrite Hc. cbn [negb].
  eexists. split; [reflexivity|]. fold key.
  unfold ltrimLast, rpush, lrange. cbn [lists].
  rewrite lookup_insert_eq. cbn [lists]. rewrite lookup_insert_eq.
  cbn [default from_option id]. fold (lrange key store). fold all.
  assert (Hlen : length all = S (length (lrange key store)))
    by (unfold all; rewrite length_app; simpl; lia).
  split; [done|]. split.
  - rewrite length_drop. unfold MAX_OUTPUT_BUFFER. lia.
  - unfold all at 2.
    rewrite drop_app_le by (unfold MAX_OUTPUT_BUFFER; lia).
    apply last_snoc.
Qed.

Definition connectedClient : Client :=
  {| client := true; subscriber := true; subscriptions := ∅;
     isConnected := true |}.

Definition emptyStore : Store := {| hashes := ∅; values := ∅; lists := ∅ |}.

Lemma clearSessionData_isolated_witness :
  ∃ store',
    clearSessionData DEFAULT_DOCKER_CC_CONFIG connectedClient "s1" emptyStore
    = Ok store'
    ∧ getSessionState DEFAULT_DOCKER_CC_CONFIG connectedClient "s1" store'
      = Ok None
    ∧ get (k_result (getSessionRedisKeys "s1" DEFAULT_DOCKER_CC_CONFIG)) store'
      = None
    ∧ lrange (k_input (getSessionRedisKeys "s1" DEFAULT_DOCKER_CC_CONFIG)) store'
      = []
    ∧ ∀ other, other ≠ "s1" →
        let keys := getSessionRedisKeys other DEFAULT_DOCKER_CC_CONFIG in
        getSessionState DEFAULT_DOCKER_CC_CONFIG connectedClient other store'
        = getSessionState DEFAULT_DOCKER_CC_CONFIG connectedClient other emptyStore
        ∧ get (k_result keys) store' = get (k_result keys) emptyStore
        ∧ lrange (k_input keys) store' = lrange (k_input keys) emptyStore.
Proof.
  apply (clearSessionData_isolated DEFAULT_DOCKER_CC_CONFIG connectedClient
           "s1" emptyStore).
  reflexivity.
Defined.

Lemma updateSessionState_then_get_witness :
  let state := {| ps_status := Some "running";
                  ps_lastHeartbeat := Some "2024-01-01T00:00:00.000Z";
                  ps_claudeSessionId := None;
                  ps_turnCount := Some (Js.Fin 3) |} in
  ∃ store' r,
    updateSessionState DEFAULT_DOCKER_CC_CONFIG connectedClient "s1" state
      emptyStore = Ok store'
    ∧ getSessionState DEFAULT_DOCKER_CC_CONFIG connectedClient "s1" store'
      = Ok (Some r)
    ∧ sessionId r = "s1"
    ∧ status r = Some "running"
    ∧ (∀ h, ps_lastHeartbeat state = Some h → h ≠ "" →
         lastHeartbeat r = Some h)
    ∧ (∀ id, ps_claudeSessionId state = Some id → id ≠ "" →
         claudeSessionId r = Some id)
    ∧ (∀ n, ps_turnCount state = Some (Js.Fin n) →
         Z.abs n <= Js.MAX_SAFE_INTEGER → turnCount r = Js.Fin n).
Proof.
  apply (updateSessionState_then_get DEFAULT_DOCKER_CC_CONFIG connectedClient
           "s1"
           {| ps_status := Some "running";
              ps_lastHeartbeat := Some "2024-01-01T00:00:00.000Z";
              ps_claudeSessionId := None;
              ps_turnCount := Some (Js.Fin 3) |}
           emptyStore "running").
  - reflexivity.
  - reflexivity.
  - discriminate.
Defined.

Lemma publishOutput_bounds_buffer_witness :
  let key := k_outputBuffer (getSessionRedisKeys "s1" DEFAULT_DOCKER_CC_CONFIG) in
  let all := lrange key emptyStore ++ ["{}"] in
  ∃ store',
    publishOutput DEFAULT_DOCKER_CC_CONFIG connectedClient "s1" "{}" emptyStore
    = Ok store'
    ∧ lrange key store' = drop (length all - MAX_OUTPUT_BUFFER) all
    ∧ (length (lrange key store') <= MAX_OUTPUT_BUFFER)%nat
    ∧ last (lrange key store') = Some "{}".
Proof.
  apply (publishOutput_bounds_buffer DEFAULT_DOCKER_CC_CONFIG connectedClient
           "s1" "{}" emptyStore).
  reflexivity.
Defined.

End RedisClient.

(* ===================================================================== *)
(** * Health monitor  ([health.ts])                                       *)
(* ===================================================================== *)

Module Health.

Import Config RedisClient.
Local Open Scope string_scope.
Local Open Scope list_scope.
Local Open Scope Z_scope.

(** [ContainerHealthCheckResult]. *)
Record ContainerHealthCheckResult := mkCheck {
  healthy : bool;
  c_status : option ContainerHealthStatus;
  lastHeartbeatAgeMs : option Js.Num;
  isStale : bool
}.

Definition isIdleOrRunning (st : option string) : bool :=
  match st with
  | Some s => String.eqb s "idle" || String.eqb s "running"
  | None => false
  end.

Section Monitor.

(** [new Date(s).getTime()]. *)
Variable Date_getTime : string → Js.Num.

(** The fields of [DockerCCHealthMonitor]. *)
Record DockerCCHealthMonitor := mkMonitor {
  config : DockerCCPoolConfig;
  redisClient : option Client
}.

(** [checkContainer]; [now] is the value of [Date.now()] and [store]
    what the broker holds when it is asked. *)
Definition checkContainer (m : DockerCCHealthMonitor) (now : Z)
    (sessionKey : string) (store : Store) : Result ContainerHealthCheckResult :=
  match redisClient m with
  | None =>
      Ok {| healthy := false; c_status := None; lastHeartbeatAgeMs := None;
            isStale := true |}
  | Some c =>
      match getSessionState (config m) c sessionKey store with
      | Err e => Err e
      | Ok None =>
          Ok {| healthy := false; c_status := None;
                lastHeartbeatAgeMs := None; isStale := true |}
      | Ok (Some status) =>
          let lastHeartbeatAgeMs :=
            if Js.truthy (lastHeartbeat status)
            then Some (Js.sub now (Date_getTime (default "" (lastHeartbeat status))))
            else None in
          let staleThreshold := timeouts_healthIntervalMs (config m) * 3 in
          let isStale :=
            match lastHeartbeatAgeMs with
            | Some age => Js.gt age staleThreshold
            | None => false
            end in
          let healthy :=
            isIdleOrRunning (RedisClient.status status) && negb isStale in
          Ok {| healthy := healthy; c_status := Some status;
                lastHeartbeatAgeMs := lastHeartbeatAgeMs; isStale := isStale |}
      end
  end.

(** [parseHeartbeatAge]. *)
Definition parseHeartbeatAge (now : Z) (timestamp : option string)
  : option Js.Num :=
  if negb (Js.truthy timestamp) then None
  else Some (Js.sub now (Date_getTime (default "" timestamp))).

(** [isHeartbeatStale]. *)
Definition isHeartbeatStale (now : Z) (timestamp : option string)
    (thresholdMs : Z) : bool :=
  match parseHeartbeatAge now timestamp with
  | None => true
  | Some age => Js.gt age thresholdMs
  end.

(** The time of the heartbeat of a state record, when it carries one
    that reads as a date. *)
Definition heartbeatAt (st : ContainerHealthStatus) : option Z :=
  if Js.truthy (lastHeartbeat st) then
    match Date_getTime (default "" (lastHeartbeat st)) with
    | Js.Fin t => Some t
    | Js.NaN => None
    end
  else None.

(** The state record is absent, or carries a heartbeat that reads as a
    date. *)
Definition heartbeatKnown (record : Result (option ContainerHealthStatus)) : bool :=
  match record with
  | Ok None => true
  | Ok (Some st) => bool_decide (is_Some (heartbeatAt st))
  | Err _ => false
  end.

(** C3, as the code has it.  For a monitor whose broker client is
    connected, and a session whose state record is absent or carries a
    heartbeat: [checkContainer] reports healthy exactly when the state
    record exists, its status is idle or running, and its heartbeat age
    is at most [3 * healthIntervalMs]; and absence of the state record
    yields unhealthy and stale. *)
Theorem checkContainer_health (m : DockerCCHealthMonitor) (c : Client)
    (now : Z) (sessionKey : string) (store : Store) :
  redisClient m = Some c →
  client c = true →
  heartbeatKnown (getSessionState (config m) c sessionKey store) = true →
  ∃ r, checkContainer m now sessionKey store = Ok r
    ∧ (healthy r = true ↔
       ∃ st t, getSessionState (config m) c sessionKey store = Ok (Some st)
         ∧ isIdleOrRunning (RedisClient.status st) = true
         ∧ heartbeatAt st = Some t
         ∧ now - t <= 3 * timeouts_healthIntervalMs (config m))
    ∧ (getSessionState (config m) c sessionKey store = Ok None →
       healthy r = false ∧ isStale r = true ∧ c_status r = None).
Proof.
  intros Hm Hc Hk. unfold checkContainer. rewrite Hm.
  destruct (getSessionState (config m) c sessionKey store)
    as [[st|]|] eqn:Hs; [| |done].
  - (* the record exists *)
    simpl in Hk. apply bool_decide_eq_true in Hk as [t Ht].
    eexists. split; [reflexivity|]. cbn [healthy isStale c_status].
    unfold heartbeatAt in Ht.
    destruct (Js.truthy (lastHeartbeat st)) eqn:Htr; [|done].
    destruct (Date_getTime (default "" (lastHeartbeat st))) as [|t'] eqn:Hd;
      [done|]. injection Ht as ->.
    cbn [Js.sub Js.gt]. split; [split|done].
    + intros H. apply andb_prop in H as [Hst Hage].
      exists st, t. repeat split; try done.
      * unfold heartbeatAt. by rewrite Htr, Hd.
      * apply negb_true_iff in Hage. rewrite Z.gtb_ltb in Hage.
        apply Z.ltb_ge in Hage. lia.
    + intros (st' & t' & [= <-] & Hst & Ht' & Hage).
      unfold heartbeatAt in Ht'. rewrite Htr, Hd in Ht'. injection Ht' as <-.
      rewrite Hst. simpl. apply negb_true_iff.
      rewrite Z.gtb_ltb. apply Z.ltb_ge. lia.
  - (* no record *)
    eexists. split; [reflexivity|]. cbn [healthy isStale c_status].
    split; [split; [done|]|done].
    by intros (st & t & [=] & _).
Qed.

(** X19.  What [checkContainer] never does: report a container healthy that
    it reports stale, or healthy without a state record whose status is
    idle or running.  Its staleness is that of [isHeartbeatStale] for
    the threshold of three intervals whenever the record carries a
    heartbeat. *)
Theorem stale_is_never_healthy (m : DockerCCHealthMonitor) (now : Z)
    (sessionKey : string) (store : Store) (r : ContainerHealthCheckResult) :
  checkContainer m now sessionKey store = Ok r →
  (isStale r = true → healthy r = false)
  ∧ (healthy r = true →
     ∃ st, c_status r = Some st
           ∧ isIdleOrRunning (RedisClient.status st) = true)
  ∧ (c_status r = None →
     healthy r = false ∧ isStale r = true ∧ lastHeartbeatAgeMs r = None)
  ∧ (∀ st, c_status r = Some st → Js.truthy (lastHeartbeat st) = true →
       isStale r
       = isHeartbeatStale now (lastHeartbeat st)
           (timeouts_healthIntervalMs (config m) * 3)).
Proof.
  unfold checkContainer.
  destruct (redisClient m) as [c|]; [|by intros [= <-]].
  destruct (getSessionState (config m) c sessionKey store)
    as [[st|]|]; [| by intros [= <-] | done].
  intros [= <-]. cbn [healthy isStale c_status lastHeartbeatAgeMs].
  split; [|split; [|split; [done|]]].
  - intros ->. by rewrite andb_false_r.
  - intros [H _]%andb_prop. by exists st.
  - intros st' [= <-] Ht. unfold isHeartbeatStale, parseHeartbeatAge.
    by rewrite Ht.
Qed.

(** X20.  Staleness only grows with time: a heartbeat that is stale stays
    stale at every later time and for every smaller threshold.  A
    missing timestamp is always stale; one that does not read as a date
    never is. *)
Theorem isHeartbeatStale_monotone (now later : Z) (timestamp : option string)
    (threshold smaller : Z) :
  now <= later → smaller <= threshold →
  (isHeartbeatStale now timestamp threshold = true →
   isHeartbeatStale later timestamp smaller = true)
  ∧ (Js.truthy timestamp = false →
     isHeartbeatStale now timestamp threshold = true)
  ∧ (Js.truthy timestamp = true →
     Date_getTime (default "" timestamp) = Js.NaN →
     isHeartbeatStale now timestamp threshold = false).
Proof.
  intros Hnow Hth. unfold isHeartbeatStale, parseHeartbeatAge.
  destruct (Js.truthy timestamp); cbn [negb]; [|done].
  split; [|split; [done|]].
  - destruct (Date_getTime (default "" timestamp)) as [|t]; [done|].
    cbn [Js.sub Js.gt]. rewrite !Z.gtb_ltb, !Z.ltb_lt. lia.
  - by intros _ ->.
Qed.

End Monitor.

(** ** The monitor on concrete records *)

Definition connected : Client :=
  {| client := true; subscriber := true; subscriptions := ∅;
     isConnected := true |}.

Definition defaultMonitor : DockerCCHealthMonitor :=
  {| config := DEFAULT_DOCKER_CC_CONFIG; redisClient := Some connected |}.

(** The broker holding one state record for session [s1]. *)
Definition storeWith (fields : list (string * string)) : Store :=
  {| hashes := {[ "clawdbot:cc:s1:state" := list_to_map fields ]};
     values := ∅; lists := ∅ |}.

Definition idleAtNewYear : Store :=
  storeWith [("status", "idle");
             ("last_heartbeat", "2024-01-01T00:00:00.000Z")].

(** C3, as stated, fails: a heartbeat that is exactly
    [3 * healthIntervalMs = 30000] ms old, which is not strictly less
    than that bound, is reported healthy and not stale. *)
Lemma healthy_at_three_intervals :
  ∃ r, checkContainer Js.isoTime defaultMonitor (1704067200000 + 30000)
         "s1" idleAtNewYear = Ok r
    ∧ lastHeartbeatAgeMs r = Some (Js.Fin 30000)
    ∧ ¬ (30000 < 3 * timeouts_healthIntervalMs (config defaultMonitor))
    ∧ healthy r = true
    ∧ isStale r = false.
Proof.
  eexists. split; [vm_compute; reflexivity|].
  repeat split. vm_compute. by intros [=].
Qed.

Lemma checkContainer_health_witness :
  ∃ r, checkContainer Js.isoTime defaultMonitor (1704067200000 + 12000)
         "s1" idleAtNewYear = Ok r
    ∧ (healthy r = true ↔
       ∃ st t, getSessionState (config defaultMonitor) connected "s1"
                 idleAtNewYear = Ok (Some st)
         ∧ isIdleOrRunning (RedisClient.status st) = true
         ∧ heartbeatAt Js.isoTime st = Some t
         ∧ 1704067200000 + 12000 - t
           <= 3 * timeouts_healthIntervalMs (config defaultMonitor))
    ∧ (getSessionState (config defaultMonitor) connected "s1" idleAtNewYear
       = Ok None →
       healthy r = false ∧ isStale r = true ∧ c_status r = None).
Proof.
  apply (checkContainer_health Js.isoTime defaultMonitor connected
           (1704067200000 + 12000) "s1" idleAtNewYear).
  - reflexivity.
  - reflexivity.
  - vm_compute. reflexivity.
Defined.

(** A record without a heartbeat field: [checkContainer] reports it
    healthy and not stale, while [isHeartbeatStale] of the same module
    calls a missing timestamp stale. *)
Example no_heartbeat_field :
  (∃ r, checkContainer Js.isoTime defaultMonitor 1704067200000 "s1"
          (storeWith [("status", "running")]) = Ok r
     ∧ healthy r = true ∧ isStale r = false ∧ lastHeartbeatAgeMs r = None)
  ∧ isHeartbeatStale Js.isoTime 1704067200000 None 30000 = true.
Proof. split; [eexists; split; [vm_compute; reflexivity|done] | done]. Qed.

(** Without a broker client the monitor answers unhealthy and stale
    whatever the broker holds. *)
Example no_client (now : Z) (key : string) (store : Store) :
  checkContainer Js.isoTime
    {| config := DEFAULT_DOCKER_CC_CONFIG; redisClient := None |} now key store
  = Ok {| healthy := false; c_status := None; lastHeartbeatAgeMs := None;
          isStale := true |}.
Proof. done. Qed.

Lemma stale_is_never_healthy_witness :
  let r := {| healthy := false;
              c_status :=
                Some {| sessionId := "s1"; RedisClient.status := Some "idle";
                        lastHeartbeat := Some "2024-01-01T00:00:00.000Z";
                        claudeSessionId := None; turnCount := Js.Fin 0 |};
              lastHeartbeatAgeMs := Some (Js.Fin 40000);
              isStale := true |} in
  (isStale r = true → healthy r = false)
  ∧ (healthy r = true →
     ∃ st, c_status r = Some st
           ∧ isIdleOrRunning (RedisClient.status st) = true)
  ∧ (c_status r = None →
     healthy r = false ∧ isStale r = true ∧ lastHeartbeatAgeMs r = None)
  ∧ (∀ st, c_status r = Some st → Js.truthy (lastHeartbeat st) = true →
       isStale r
       = isHeartbeatStale Js.isoTime (1704067200000 + 40000) (lastHeartbeat st)
           (timeouts_healthIntervalMs (config defaultMonitor) * 3)).
Proof.
  apply (stale_is_never_healthy Js.isoTime defaultMonitor
           (1704067200000 + 40000) "s1" idleAtNewYear).
  vm_compute. reflexivity.
Defined.

Lemma isHeartbeatStale_monotone_witness :
  let ts := Some "2024-01-01T00:00:00.000Z" in
  (isHeartbeatStale Js.isoTime (1704067200000 + 40000) ts 30000 = true →
   isHeartbeatStale Js.isoTime (1704067200000 + 50000) ts 20000 = true)
  ∧ (Js.truthy ts = false →
     isHeartbeatStale Js.isoTime (1704067200000 + 40000) ts 30000 = true)
  ∧ (Js.truthy ts = true →
     Js.isoTime (default "" ts) = Js.NaN →
     isHeartbeatStale Js.isoTime (1704067200000 + 40000) ts 30000 = false).
Proof.
  apply (isHeartbeatStale_monotone Js.isoTime (1704067200000 + 40000)
           (1704067200000 + 50000) (Some "2024-01-01T00:00:00.000Z")
           30000 20000); lia.
Defined.

End Health.

(* ===================================================================== *)
(** * Pool manager  ([pool-manager.ts])                                   *)
(* ===================================================================== *)

Module PoolManager.

#[local] Set Warnings "-clear-no-such-hyp".
Import Config Registry.
Local Open Scope string_scope.
Local Open Scope list_scope.
Local Open Scope Z_scope.

(** [ClaudeContainerConfig], the fields the runner sets. *)
Record ClaudeContainerConfig := mkClaudeConfig {
  cc_model : option string;
  cc_systemPrompt : option string;
  cc_permissionMode : option string
}.

(** [ContainerCreateOptions]. *)
Record ContainerCreateOptions := mkOptions {
  o_sessionKey : string;
  o_agentId : option string;
  o_workspaceDir : string;
  o_config : DockerCCPoolConfig;
  o_claudeConfig : option ClaudeContainerConfig
}.

(** What [createAndStartContainer] resolves to. *)
Record Created := mkCreated {
  cr_containerId : string;
  cr_containerName : string
}.

(** What [getContainerState] resolves to. *)
Record ContainerState := mkContainerState {
  cs_exists : bool;
  cs_running : bool
}.

(** [ContainerAssignment]. *)
Record ContainerAssignment := mkAssignment {
  a_containerName : string;
  a_containerId : string;
  a_isNew : bool;
  a_wasWarm : bool
}.

(** [PoolState]. *)
Record PoolState := mkPoolState {
  containers : gmap string ContainerRegistryEntry;
  sessionToContainer : gmap string string;
  warmPool : gset string
}.

(** The parameters of [getContainer]. *)
Record GetParams := mkGetParams {
  p_sessionKey : string;
  p_agentId : option string;
  p_workspaceDir : string;
  p_claudeConfig : option ClaudeContainerConfig
}.

(** Number to string, as in a template literal. *)
Definition showZ (z : Z) : string := NilZero.string_of_int (Z.to_int z).

(** [idleContainers.sort((a, b) => a.lastHeartbeat - b.lastHeartbeat)]:
    the sort is stable. *)
Fixpoint insertByHeartbeat (e : ContainerRegistryEntry)
    (l : list ContainerRegistryEntry) : list ContainerRegistryEntry :=
  match l with
  | [] => [e]
  | x :: r =>
      if lastHeartbeat e <=? lastHeartbeat x then e :: l
      else x :: insertByHeartbeat e r
  end.

Definition sortByHeartbeat (l : list ContainerRegistryEntry)
  : list ContainerRegistryEntry :=
  foldr insertByHeartbeat [] l.

Section Manager.

(** The world outside the process, the registry file apart: the
    container runtime, the clock and the random source.  The module
    [container.ts] is not part of the sources at hand; its functions are
    parameters here, each a transition of the runtime that resolves or
    throws. *)
Variable Runtime : Type.
Variable Date_now : Runtime → Z.
(** [Math.random().toString(36).slice(2, 8)]. *)
Variable randomTag : Runtime → string.
Variable isDockerAvailable : Runtime → Result bool * Runtime.
(** [listContainers], of which only the names are used. *)
Variable listContainers : Runtime → Result (list string) * Runtime.
Variable getContainerState : string → Runtime → Result ContainerState * Runtime.
Variable createAndStartContainer :
  ContainerCreateOptions → Runtime → Result Created * Runtime.
Variable stopContainer : string → Runtime → Result unit * Runtime.
Variable removeContainer : string → Runtime → Result unit * Runtime.

(** The fields of [DockerCCPoolManager], with the registry file and the
    runtime it acts on. *)
Record World := mkWorld {
  config : DockerCCPoolConfig;
  state : PoolState;
  healthCheckInterval : bool;
  maintenanceInterval : bool;
  isRunning : bool;
  file : RegistryFile;
  runtime : Runtime
}.

(** A method: it ends in a value or a thrown error, and in a world. *)
Definition M (A : Type) : Type := World → Result A * World.

#[local] Instance M_ret : MRet M := λ A a w, (Ok a, w).
#[local] Instance M_bind : MBind M := λ A B k m w,
  match m w with
  | (Ok a, w') => k a w'
  | (Err e, w') => (Err e, w')
  end.

Definition throw {A} (msg : string) : M A := λ w, (Err msg, w).

(** [try { m } catch { }]. *)
Definition tryCatch (m : M unit) : M unit := λ w,
  match m w with
  | (Ok a, w') => (Ok a, w')
  | (Err _, w') => (Ok tt, w')
  end.

(** [for (const x of l) { body }]. *)
Fixpoint forEach {A} (l : list A) (body : A → M unit) : M unit :=
  match l with
  | [] => mret tt
  | x :: r => body x ≫= λ _, forEach r body
  end.

(** [for (let i = 0; i < n; i++) { body }]. *)
Fixpoint times (n : nat) (body : M unit) : M unit :=
  match n with
  | O => mret tt
  | S n' => body ≫= λ _, times n' body
  end.

Definition getWorld : M World := λ w, (Ok w, w).

Definition withState (w : World) (st : PoolState) : World :=
  {| config := config w; state := st;
     healthCheckInterval := healthCheckInterval w;
     maintenanceInterval := maintenanceInterval w;
     isRunning := isRunning w; file := file w; runtime := runtime w |}.

Definition withFile (w : World) (f : RegistryFile) : World :=
  {| config := config w; state := state w;
     healthCheckInterval := healthCheckInterval w;
     maintenanceInterval := maintenanceInterval w;
     isRunning := isRunning w; file := f; runtime := runtime w |}.

Definition withRuntime (w : World) (r : Runtime) : World :=
  {| config := config w; state := state w;
     healthCheckInterval := healthCheckInterval w;
     maintenanceInterval := maintenanceInterval w;
     isRunning := isRunning w; file := file w; runtime := r |}.

Definition withTimers (w : World) (health maint running : bool) : World :=
  {| config := config w; state := state w;
     healthCheckInterval := health;
     maintenanceInterval := maint;
     isRunning := running; file := file w; runtime := runtime w |}.

(** Assignments to [this.state]. *)
Definition modifyState (f : PoolState → PoolState) : M unit := λ w,
  (Ok tt, withState w (f (state w))).

Definition setContainer (name : string) (e : ContainerRegistryEntry)
    (st : PoolState) : PoolState :=
  {| containers := <[name := e]> (containers st);
     sessionToContainer := sessionToContainer st; warmPool := warmPool st |}.

Definition deleteContainer (name : string) (st : PoolState) : PoolState :=
  {| containers := delete name (containers st);
     sessionToContainer := sessionToContainer st; warmPool := warmPool st |}.

Definition setSession (key name : string) (st : PoolState) : PoolState :=
  {| containers := containers st;
     sessionToContainer := <[key := name]> (sessionToContainer st);
     warmPool := warmPool st |}.

Definition deleteSession (key : string) (st : PoolState) : PoolState :=
  {| containers := containers st;
     sessionToContainer := delete key (sessionToContainer st);
     warmPool := warmPool st |}.

Definition addWarm (name : string) (st : PoolState) : PoolState :=
  {| containers := containers st;
     sessionToContainer := sessionToContainer st;
     warmPool := {[name]} ∪ warmPool st |}.

Definition deleteWarm (name : string) (st : PoolState) : PoolState :=
  {| containers := containers st;
     sessionToContainer := sessionToContainer st;
     warmPool := warmPool st ∖ {[name]} |}.

Definition emptyState : PoolState :=
  {| containers := ∅; sessionToContainer := ∅; warmPool := ∅ |}.

(** A call of a function of [container.ts]. *)
Definition callRuntime {A} (f : Runtime → Result A * Runtime) : M A := λ w,
  let '(res, r') := f (runtime w) in (res, withRuntime w r').

(** A call of a function of [registry.ts] that may write the file. *)
Definition callRegistry {A}
    (f : RegistryFile → Result (A * RegistryFile)) : M A := λ w,
  match f (file w) with
  | Ok (a, f') => (Ok a, withFile w f')
  | Err e => (Err e, w)
  end.

(** A call of a function of [registry.ts] that only reads the file. *)
Definition readFromRegistry {A} (f : RegistryFile → Result A) : M A := λ w,
  (f (file w), w).

(** [Date.now()]. *)
Definition now : M Z := λ w, (Ok (Date_now (runtime w)), w).

(** [new DockerCCPoolManager(config)], given the file and the runtime it
    will act on. *)
Definition create (cfg : DockerCCPoolConfig) (f : RegistryFile) (r : Runtime)
  : World :=
  {| config := cfg; state := emptyState; healthCheckInterval := false;
     maintenanceInterval := false; isRunning := false; file := f;
     runtime := r |}.

(** [removeContainerByName]. *)
Definition removeContainerByName (containerName : string) : M unit :=
  w ← getWorld;
  let entry := containers (state w) !! containerName in
  (match entry with
   | Some e =>
       if Js.truthy (sessionKey e)
       then modifyState (deleteSession (default "" (sessionKey e)))
       else mret tt
   | None => mret tt
   end) ≫= λ _,
  modifyState (deleteWarm containerName) ≫= λ _,
  modifyState (deleteContainer containerName) ≫= λ _,
  callRuntime (stopContainer containerName) ≫= λ _,
  callRuntime (removeContainer containerName) ≫= λ _,
  callRegistry (removeContainerEntry containerName).

(** [createWarmContainer]. *)
Definition createWarmContainer : M unit :=
  w ← getWorld;
  let warmSessionKey :=
    ("warm-" ++ showZ (Date_now (runtime w)) ++ "-" ++ randomTag (runtime w))%string in
  let options :=
    {| o_sessionKey := warmSessionKey; o_agentId := None;
       o_workspaceDir := "/tmp/clawdbot-warm"; o_config := config w;
       o_claudeConfig := None |} in
  result ← callRuntime (createAndStartContainer options);
  t ← now;
  let entry :=
    {| containerId := cr_containerId result;
       containerName := cr_containerName result;
       sessionKey := None; agentId := None; status := idle;
       createdAt := t; lastHeartbeat := t; claudeSessionId := None;
       turnCount := 0; configHash := "" |} in
  callRegistry (updateContainerEntry entry) ≫= λ _,
  modifyState (setContainer (cr_containerName result) entry) ≫= λ _,
  modifyState (addWarm (cr_containerName result)).

(** [ensureWarmPool]. *)
Definition ensureWarmPool : M unit :=
  w ← getWorld;
  let needed := pool_minWarm (config w) - Z.of_nat (size (warmPool (state w))) in
  if needed <=? 0 then mret tt
  else
    let currentTotal := Z.of_nat (size (containers (state w))) in
    let canCreate := Z.min needed (pool_maxTotal (config w) - currentTotal) in
    times (Z.to_nat canCreate) (tryCatch createWarmContainer).

(** [syncState]. *)
Definition syncState : M unit :=
  dockerContainers ← callRuntime listContainers;
  let dockerNames : gset string := list_to_set dockerContainers in
  callRegistry (syncWithDocker dockerNames) ≫= λ _,
  registryEntries ← readFromRegistry listContainerEntries;
  modifyState (λ _, emptyState) ≫= λ _,
  forEach registryEntries (λ entry,
    modifyState (setContainer (containerName entry) entry) ≫= λ _,
    if Js.truthy (sessionKey entry)
    then modifyState (setSession (default "" (sessionKey entry))
                                 (containerName entry))
    else if status_eqb (status entry) idle
    then modifyState (addWarm (containerName entry))
    else mret tt).

(** [start]. *)
Definition start : M unit :=
  w ← getWorld;
  if isRunning w then mret tt
  else
    dockerOk ← callRuntime isDockerAvailable;
    if negb dockerOk then throw "Docker is not available"
    else
      syncState ≫= λ _,
      (λ w, (Ok tt, withTimers w true true true)) ≫= λ _,
      ensureWarmPool.

(** [stop]. *)
Definition stop : M unit :=
  w ← getWorld;
  if negb (isRunning w) then mret tt
  else λ w, (Ok tt, withTimers w false false false).

(** [getContainer].  The top-up of the warm pool that it starts in the
    background is run here to its end before the assignment is
    returned. *)
Definition getContainer (params : GetParams) : M ContainerAssignment :=
  w ← getWorld;
  let existingName := sessionToContainer (state w) !! p_sessionKey params in
  let cached :=
    if Js.truthy existingName
    then
      match containers (state w) !! default "" existingName with
      | Some entry =>
          Some {| a_containerName := default "" existingName;
                  a_containerId := containerId entry;
                  a_isNew := false; a_wasWarm := false |}
      | None => None
      end
    else None in
  match cached with
  | Some assignment => mret assignment
  | None =>
      registryEntry ← readFromRegistry (getContainerBySessionKey (p_sessionKey params));
      adopted ←
        match registryEntry with
        | Some e =>
            st ← callRuntime (getContainerState (containerName e));
            if cs_exists st && cs_running st
            then
              modifyState (setContainer (containerName e) e) ≫= λ _,
              modifyState (setSession (p_sessionKey params) (containerName e)) ≫= λ _,
              mret (Some {| a_containerName := containerName e;
                            a_containerId := containerId e;
                            a_isNew := false; a_wasWarm := false |})
            else mret None
        | None => mret None
        end;
      match adopted with
      | Some assignment => mret assignment
      | None =>
          w ← getWorld;
          agentContainers ←
            readFromRegistry (listContainersByAgent (default "" (p_agentId params)));
          if Z.of_nat (length agentContainers) >=? pool_maxPerAgent (config w)
          then throw ("Max containers per agent ("
                      ++ showZ (pool_maxPerAgent (config w)) ++ ") reached")%string
          else
            allContainers ← readFromRegistry listContainerEntries;
            if Z.of_nat (length allContainers) >=? pool_maxTotal (config w)
            then throw ("Max total containers ("
                        ++ showZ (pool_maxTotal (config w)) ++ ") reached")%string
            else
              warmContainers ← readFromRegistry listWarmContainers;
              match warmContainers with
              | warm :: _ =>
                  t ← now;
                  callRegistry (assignContainerToSession t (containerName warm)
                                  (p_sessionKey params) (p_agentId params)) ≫= λ _,
                  modifyState (deleteWarm (containerName warm)) ≫= λ _,
                  modifyState (setSession (p_sessionKey params)
                                          (containerName warm)) ≫= λ _,
                  modifyState (setContainer (containerName warm)
                    {| containerId := containerId warm;
                       containerName := containerName warm;
                       sessionKey := Some (p_sessionKey params);
                       agentId := p_agentId params;
                       status := status warm; createdAt := createdAt warm;
                       lastHeartbeat := lastHeartbeat warm;
                       claudeSessionId := claudeSessionId warm;
                       turnCount := turnCount warm;
                       configHash := configHash warm |}) ≫= λ _,
                  tryCatch ensureWarmPool ≫= λ _,
                  mret {| a_containerName := containerName warm;
                          a_containerId := containerId warm;
                          a_isNew := false; a_wasWarm := true |}
              | [] =>
                  let options :=
                    {| o_sessionKey := p_sessionKey params;
                       o_agentId := p_agentId params;
                       o_workspaceDir := p_workspaceDir params;
                       o_config := config w;
                       o_claudeConfig := p_claudeConfig params |} in
                  result ← callRuntime (createAndStartContainer options);
                  t ← now;
                  let entry :=
                    {| containerId := cr_containerId result;
                       containerName := cr_containerName result;
                       sessionKey := Some (p_sessionKey params);
                       agentId := p_agentId params; status := idle;
                       createdAt := t; lastHeartbeat := t;
                       claudeSessionId := None; turnCount := 0;
                       configHash := "" |} in
                  callRegistry (updateContainerEntry entry) ≫= λ _,
                  modifyState (setContainer (cr_containerName result) entry) ≫= λ _,
                  modifyState (setSession (p_sessionKey params)
                                          (cr_containerName result)) ≫= λ _,
                  mret {| a_containerName := cr_containerName result;
                          a_containerId := cr_containerId result;
                          a_isNew := true; a_wasWarm := false |}
              end
      end
  end.

(** [releaseContainer]; [returnToPool] is [opts?.returnToPool], false
    when absent. *)
Definition releaseContainer (key : string) (returnToPool : bool) : M unit :=
  w ← getWorld;
  let containerName := sessionToContainer (state w) !! key in
  if negb (Js.truthy containerName) then mret tt
  else
    let name := default "" containerName in
    modifyState (deleteSession key) ≫= λ _,
    if returnToPool
       && (Z.of_nat (size (warmPool (state w))) <? pool_minWarm (config w))
    then
      t ← now;
      callRegistry (unassignContainer t name) ≫= λ _,
      modifyState (addWarm name) ≫= λ _,
      modifyState (λ st,
        match containers st !! name with
        | Some entry =>
            setContainer name
              {| containerId := containerId entry;
                 containerName := Registry.containerName entry;
                 sessionKey := None; agentId := None; status := idle;
                 createdAt := createdAt entry;
                 lastHeartbeat := lastHeartbeat entry;
                 claudeSessionId := claudeSessionId entry;
                 turnCount := turnCount entry;
                 configHash := configHash entry |} st
        | None => st
        end)
    else
      callRuntime (stopContainer name) ≫= λ _,
      callRuntime (removeContainer name) ≫= λ _,
      callRegistry (removeContainerEntry name) ≫= λ _,
      modifyState (deleteContainer name).

(** [checkHealth], the health tick. *)
Definition checkHealth : M unit :=
  w ← getWorld;
  if negb (isRunning w) then mret tt
  else
    let staleThreshold := timeouts_healthIntervalMs (config w) * 6 in
    t ← now;
    staleContainers ← readFromRegistry (getStaleContainers t staleThreshold);
    forEach staleContainers (λ container,
      st ← callRuntime (getContainerState (containerName container));
      if negb (cs_exists st) || negb (cs_running st)
      then removeContainerByName (containerName container)
      else
        t ← now;
        callRegistry (updateContainerStatus t (containerName container) failed) ≫= λ _,
        if Js.truthy (sessionKey container)
        then modifyState (deleteSession (default "" (sessionKey container)))
        else mret tt).

(** [maintenance], the maintenance tick. *)
Definition maintenance : M unit :=
  w ← getWorld;
  if negb (isRunning w) then mret tt
  else
    t ← now;
    idleContainers ← readFromRegistry (getIdleContainers t (timeouts_idleMs (config w)));
    let keepWarm :=
      Z.max 0 (pool_minWarm (config w) - Z.of_nat (size (warmPool (state w)))) in
    let idleContainers := sortByHeartbeat idleContainers in
    let toRemove := drop (Z.to_nat keepWarm) idleContainers in
    forEach toRemove (λ container,
      removeContainerByName (containerName container)) ≫= λ _,
    t ← now;
    expiredContainers ←
      readFromRegistry (getExpiredContainers t (timeouts_maxAgeMs (config w)));
    forEach expiredContainers (λ container,
      removeContainerByName (containerName container)) ≫= λ _,
    ensureWarmPool.

(** [shutdown].  The map is walked in the order of [map_to_list]; every
    error is ignored and the maps are emptied at the end. *)
Definition shutdown : M unit :=
  stop ≫= λ _,
  w ← getWorld;
  forEach (map_to_list (containers (state w))).*1 (λ name,
    tryCatch (
      callRuntime (stopContainer name) ≫= λ _,
      callRuntime (removeContainer name) ≫= λ _,
      callRegistry (removeContainerEntry name))) ≫= λ _,
  modifyState (λ _, emptyState).

(** [getStats]. *)
Definition getStats (w : World) : Z * Z * Z * Z * Z :=
  (Z.of_nat (size (containers (state w))),
   Z.of_nat (size (sessionToContainer (state w))),
   Z.of_nat (size (warmPool (state w))),
   pool_maxTotal (config w), pool_maxPerAgent (config w)).

(** [getContainerNameForSession]. *)
Definition getContainerNameForSession (key : string) (w : World) : option string :=
  sessionToContainer (state w) !! key.

(** [isHealthy]. *)
Definition isHealthy (w : World) : bool := isRunning w.

(** ** The operations of the manager *)

Inductive Op :=
| OpStart
| OpStop
| OpGetContainer (params : GetParams)
| OpReleaseContainer (key : string) (returnToPool : bool)
| OpRemoveContainerByName (name : string)
| OpHealthTick
| OpMaintenanceTick
| OpShutdown.

Definition perform (op : Op) : M unit :=
  match op with
  | OpStart => start
  | OpStop => stop
  | OpGetContainer params => getContainer params ≫= λ _, mret tt
  | OpReleaseContainer key returnToPool => releaseContainer key returnToPool
  | OpRemoveContainerByName name => removeContainerByName name
  | OpHealthTick => checkHealth
  | OpMaintenanceTick => maintenance
  | OpShutdown => shutdown
  end.

(** ** The invariant of the specification and what the code keeps of it *)

(** The container is mapped from its session key. *)
Definition mapped (st : PoolState) (name : string)
    (e : ContainerRegistryEntry) : Prop :=
  ∃ key, sessionKey e = Some key ∧ sessionToContainer st !! key = Some name.

(** As the specification states it: every container of the map is mapped
    from its session key or is in the warm pool, and never both. *)
Definition eitherNotBoth (st : PoolState) : Prop :=
  ∀ name e, containers st !! name = Some e →
    (mapped st name e ∨ name ∈ warmPool st)
    ∧ ¬ (mapped st name e ∧ name ∈ warmPool st).

(** The half that the code keeps: never both. *)
Definition neverBoth (st : PoolState) : Prop :=
  ∀ name e, containers st !! name = Some e →
    ¬ (mapped st name e ∧ name ∈ warmPool st).

(** The registry records no session for a member of the warm pool. *)
Definition warmUnassigned (w : World) : Prop :=
  ∀ name e, name ∈ warmPool (state w) → e ∈ entriesOf (file w) →
    containerName e = name → Js.truthy (sessionKey e) = false.

(** What every operation preserves. *)
Definition Inv (w : World) : Prop :=
  neverBoth (state w) ∧ UniqueNames (file w) ∧ warmUnassigned w.

(** What the caller and the runtime must respect for [op] in [w]:
    [getContainer] is given a session key that is not empty, and the
    runtime does not give a container created for that session the name
    of a member of the warm pool. *)
Definition respected (op : Op) (w : World) : Prop :=
  match op with
  | OpGetContainer params =>
      p_sessionKey params ≠ ""
      ∧ ∀ r created r',
          createAndStartContainer
            {| o_sessionKey := p_sessionKey params;
               o_agentId := p_agentId params;
               o_workspaceDir := p_workspaceDir params;
               o_config := config w;
               o_claudeConfig := p_claudeConfig params |} r
          = (Ok created, r') →
          cr_containerName created ∉ warmPool (state w)
  | _ => True
  end.

(** ** A program logic for the methods

    [triple P m Q]: from a world in [P], the method [m] ends in a value
    and a world in [Q], or throws in a world in [Inv]. *)
Definition triple {A} (P : World → Prop) (m : M A) (Q : A → World → Prop) : Prop :=
  ∀ w, P w →
    match m w with
    | (Ok a, w') => Q a w'
    | (Err _, w') => Inv w'
    end.

Lemma triple_ret {A} (P : World → Prop) (a : A) (Q : A → World → Prop) :
  (∀ w, P w → Q a w) → triple P (mret a) Q.
Proof. intros H w Hw. by apply H. Qed.

Lemma triple_bind {A B} (P : World → Prop) (m : M A) (k : A → M B)
    (Q : A → World → Prop) (R : B → World → Prop) :
  triple P m Q → (∀ a, triple (Q a) (k a) R) → triple P (m ≫= k) R.
Proof.
  intros Hm Hk w Hw. specialize (Hm w Hw).
  unfold mbind, M_bind. destruct (m w) as [[a|e] w']; [|done].
  by apply Hk.
Qed.

Lemma triple_conseq {A} (P P' : World → Prop) (m : M A)
    (Q Q' : A → World → Prop) :
  triple P' m Q' → (∀ w, P w → P' w) → (∀ a w, Q' a w → Q a w) →
  triple P m Q.
Proof.
  intros Hm HP HQ w Hw. specialize (Hm w (HP w Hw)).
  destruct (m w) as [[a|e] w']; [by apply HQ | done].
Qed.

Lemma triple_throw {A} (P : World → Prop) (msg : string)
    (Q : A → World → Prop) :
  (∀ w, P w → Inv w) → triple P (throw msg) Q.
Proof. intros H w Hw. by apply H. Qed.

Lemma triple_getWorld (P : World → Prop) :
  triple P getWorld (λ a w, a = w ∧ P w).
Proof. by intros w Hw. Qed.

Lemma triple_now (P : World → Prop) :
  triple P now (λ _ w, P w).
Proof. by intros w Hw. Qed.

Lemma triple_modifyState (P : World → Prop) (f : PoolState → PoolState)
    (Q : unit → World → Prop) :
  (∀ w, P w → Q tt (withState w (f (state w)))) →
  triple P (modifyState f) Q.
Proof. intros H w Hw. by apply H. Qed.

(** A predicate that does not look at the runtime. *)
Definition runtimeBlind (P : World → Prop) : Prop :=
  ∀ w r, P w → P (withRuntime w r).

Lemma triple_callRuntime {A} (P : World → Prop)
    (f : Runtime → Result A * Runtime) :
  runtimeBlind P → (∀ w, P w → Inv w) →
  triple P (callRuntime f) (λ _ w, P w).
Proof.
  intros Hb Hi w Hw. unfold callRuntime.
  destruct (f (runtime w)) as [[a|e] r']; [by apply Hb|].
  apply Hi. by apply Hb.
Qed.

(** The same, keeping what the runtime answered. *)
Lemma triple_callRuntime_result {A} (P : World → Prop)
    (f : Runtime → Result A * Runtime) :
  runtimeBlind P → (∀ w, P w → Inv w) →
  triple P (callRuntime f) (λ a w, P w ∧ ∃ r r', f r = (Ok a, r')).
Proof.
  intros Hb Hi w Hw. unfold callRuntime.
  destruct (f (runtime w)) as [[a|e] r'] eqn:Hf.
  - split; [by apply Hb | by eauto].
  - apply Hi. by apply Hb.
Qed.

Lemma triple_readFromRegistry {A} (P : World → Prop)
    (f : RegistryFile → Result A) :
  (∀ w, P w → Inv w) →
  triple P (readFromRegistry f) (λ a w, P w ∧ f (file w) = Ok a).
Proof.
  intros Hi w Hw. unfold readFromRegistry.
  destruct (f (file w)) eqn:Hf; [done | by apply Hi].
Qed.

Lemma triple_callRegistry {A} (P : World → Prop)
    (f : RegistryFile → Result (A * RegistryFile)) (Q : A → World → Prop) :
  (∀ w, P w → Inv w) →
  (∀ w a file', P w → f (file w) = Ok (a, file') → Q a (withFile w file')) →
  triple P (callRegistry f) Q.
Proof.
  intros Hi HQ w Hw. unfold callRegistry.
  destruct (f (file w)) as [[a file']|e] eqn:Hf; [by eapply HQ | by apply Hi].
Qed.

Lemma triple_tryCatch (P : World → Prop) (m : M unit) :
  triple P m (λ _, Inv) → triple P (tryCatch m) (λ _, Inv).
Proof.
  intros Hm w Hw. specialize (Hm w Hw). unfold tryCatch.
  by destruct (m w) as [[a|e] w'].
Qed.

Lemma triple_forEach {A} (P : World → Prop) (l : list A) (body : A → M unit) :
  (∀ x, x ∈ l → triple P (body x) (λ _, P)) →
  triple P (forEach l body) (λ _, P).
Proof.
  induction l as [|x l IH]; intros Hbody; [by apply triple_ret|].
  cbn [forEach]. eapply triple_bind.
  - apply Hbody. by left.
  - intros ?. apply IH. intros y Hy. apply Hbody. by right.
Qed.

Lemma triple_times (P : World → Prop) (n : nat) (body : M unit) :
  triple P body (λ _, P) → triple P (times n body) (λ _, P).
Proof.
  intros Hbody. induction n as [|n IH]; [by apply triple_ret|].
  cbn [times]. eapply triple_bind; [exact Hbody | by intros ?].
Qed.

Lemma triple_if {A} (b : bool) (P : World → Prop) (m1 m2 : M A)
    (Q : A → World → Prop) :
  (b = true → triple P m1 Q) → (b = false → triple P m2 Q) →
  triple P (if b then m1 else m2) Q.
Proof. destruct b; auto. Qed.

Lemma triple_world {A} (P : World → Prop) (k : World → M A)
    (Q : A → World → Prop) :
  (∀ w0, P w0 → triple (λ w, w = w0) (k w0) Q) →
  triple P (getWorld ≫= k) Q.
Proof. intros H w Hw. apply (H w Hw w eq_refl). Qed.

(** ** The invariant under the assignments to the maps *)

Lemma neverBoth_shrink (st st' : PoolState) :
  neverBoth st →
  (∀ n e, containers st' !! n = Some e → containers st !! n = Some e) →
  (∀ k n, sessionToContainer st' !! k = Some n →
          sessionToContainer st !! k = Some n) →
  warmPool st' ⊆ warmPool st →
  neverBoth st'.
Proof.
  intros H HC HS HW n e He [(k & Hk & Hm) Hw].
  apply (H n e (HC _ _ He)). split; [|by apply HW].
  exists k. split; [done | by apply HS].
Qed.

Lemma Inv_state_shrink (w : World) (st' : PoolState) :
  Inv w →
  (∀ n e, containers st' !! n = Some e → containers (state w) !! n = Some e) →
  (∀ k n, sessionToContainer st' !! k = Some n →
          sessionToContainer (state w) !! k = Some n) →
  warmPool st' ⊆ warmPool (state w) →
  Inv (withState w st').
Proof.
  intros (Hnb & Hu & Hwu) HC HS HW. split; [|split].
  - by eapply neverBoth_shrink.
  - done.
  - intros n e Hn. apply Hwu. by apply HW.
Qed.

Lemma Inv_deleteSession (w : World) (key : string) :
  Inv w → Inv (withState w (deleteSession key (state w))).
Proof.
  intros H. apply Inv_state_shrink; try done.
  intros k n. simpl. rewrite lookup_delete.
  by destruct (decide (key = k)).
Qed.

Lemma Inv_deleteWarm (w : World) (name : string) :
  Inv w → Inv (withState w (deleteWarm name (state w))).
Proof. intros H. apply Inv_state_shrink; try done; simpl; set_solver. Qed.

Lemma Inv_deleteContainer (w : World) (name : string) :
  Inv w → Inv (withState w (deleteContainer name (state w))).
Proof.
  intros H. apply Inv_state_shrink; try done.
  intros n e. simpl. rewrite lookup_delete.
  by destruct (decide (name = n)).
Qed.

Lemma Inv_emptyState (w : World) : Inv w → Inv (withState w emptyState).
Proof. intros H. apply Inv_state_shrink; try done; simpl; set_solver. Qed.

Lemma Inv_withRuntime (w : World) (r : Runtime) : Inv w → Inv (withRuntime w r).
Proof. done. Qed.

Lemma Inv_withTimers (w : World) (a b c : bool) : Inv w → Inv (withTimers w a b c).
Proof. done. Qed.

Lemma Inv_blind : runtimeBlind Inv.
Proof. by intros w r H. Qed.

(** ** The invariant under the writes to the registry *)

Lemma Inv_file_shrink (w : World) (file' : RegistryFile) :
  Inv w → UniqueNames file' → entriesOf file' ⊆ entriesOf (file w) →
  Inv (withFile w file').
Proof.
  intros (Hnb & Hu & Hwu) Hu' Hsub. split; [done|split; [done|]].
  intros n e Hn He. apply Hwu; [done|]. by apply Hsub.
Qed.

Lemma Inv_removeContainerEntry (w : World) (name : string)
    (file' : RegistryFile) (u : unit) :
  Inv w → removeContainerEntry name (file w) = Ok (u, file') →
  Inv (withFile w file').
Proof.
  intros H Hr. apply removeContainerEntry_entries in Hr.
  apply Inv_file_shrink; [done| |].
  - unfold UniqueNames. rewrite Hr. apply filter_names, H.
  - rewrite Hr. intros e He. by apply elem_of_filter_list in He as [? _].
Qed.

Lemma Inv_syncWithDocker (w : World) (existing : gset string)
    (file' : RegistryFile) (removed : list string) :
  Inv w → syncWithDocker existing (file w) = Ok (removed, file') →
  Inv (withFile w file').
Proof.
  intros H Hr. apply syncWithDocker_entries in Hr.
  apply Inv_file_shrink; [done| |].
  - unfold UniqueNames. rewrite Hr. apply filter_names, H.
  - rewrite Hr. intros e He. by apply elem_of_filter_list in He as [? _].
Qed.

(** A change of the first entry of a name that keeps the name and does
    not give it a session keeps the invariant. *)
Lemma Inv_modifyFirst (w : World) (name : string)
    (f : ContainerRegistryEntry → ContainerRegistryEntry)
    (file' : RegistryFile) :
  Inv w →
  entriesOf file' = modifyFirst (named name) f (entriesOf (file w)) →
  (∀ e, containerName (f e) = containerName e) →
  (∀ e, Js.truthy (sessionKey e) = false → Js.truthy (sessionKey (f e)) = false) →
  Inv (withFile w file').
Proof.
  intros (Hnb & Hu & Hwu) Hes Hname Hkey. split; [done|split].
  - unfold UniqueNames. cbn [file withFile].
    rewrite Hes, map_modifyFirst by done. exact Hu.
  - intros n e Hn He Hen. simpl in He. rewrite Hes in He.
    apply elem_of_modifyFirst in He as [He | (x & Hx & _ & ->)].
    + by eapply Hwu.
    + apply Hkey. eapply Hwu; [exact Hn | exact Hx |].
      by rewrite <- Hname.
Qed.

(** ** The methods *)

Create HintDb pool.
#[local] Hint Resolve Inv_blind Inv_deleteSession Inv_deleteWarm
  Inv_deleteContainer Inv_emptyState : pool.

Lemma removeContainerByName_Inv (name : string) :
  triple Inv (removeContainerByName name) (λ _, Inv).
Proof.
  unfold removeContainerByName. apply triple_world. intros w0 Hw0.
  eapply triple_conseq with (P' := Inv) (Q' := λ _, Inv);
    [|by intros ? ->|done].
  eapply triple_bind with (Q := λ _, Inv).
  { destruct (containers (state w0) !! name) as [e|]; [|by apply triple_ret].
    destruct (Js.truthy (sessionKey e)); [|by apply triple_ret].
    apply triple_modifyState. auto with pool. }
  intros ?. eapply triple_bind with (Q := λ _, Inv).
  { apply triple_modifyState. auto with pool. }
  intros ?. eapply triple_bind with (Q := λ _, Inv).
  { apply triple_modifyState. auto with pool. }
  intros ?. eapply triple_bind with (Q := λ _, Inv).
  { apply triple_callRuntime; auto with pool. }
  intros ?. eapply triple_bind with (Q := λ _, Inv).
  { apply triple_callRuntime; auto with pool. }
  intros ?. apply triple_callRegistry; [done|].
  intros w u file' Hw Hr. by eapply Inv_removeContainerEntry.
Qed.

(** After the entry of a new warm container is written, every entry of
    its name is without a session. *)
Lemma Inv_upsert_warm (w : World) (entry : ContainerRegistryEntry)
    (file' : RegistryFile) (u : unit) :
  Inv w → sessionKey entry = None →
  updateContainerEntry entry (file w) = Ok (u, file') →
  Inv (withFile w file')
  ∧ ∀ e, e ∈ entriesOf file' → containerName e = containerName entry →
         Js.truthy (sessionKey e) = false.
Proof.
  intros (Hnb & Hu & Hwu) Hkey Hr.
  apply updateContainerEntry_entries in Hr.
  assert (Hu' : UniqueNames file').
  { unfold UniqueNames. rewrite Hr. by apply upsert_names. }
  split; [split; [done|split; [done|]]|].
  - intros n e Hn He Hen. cbn [file withFile] in He. rewrite Hr in He.
    apply elem_of_upsert in He as [-> | He]; [by rewrite Hkey|].
    by eapply Hwu.
  - intros e He Hen.
    assert (e = entry) as ->; [|by rewrite Hkey].
    eapply unique_by_name; [exact Hu' | done | | done].
    rewrite Hr. apply entry_in_upsert.
Qed.

Lemma neverBoth_set_unassigned (st : PoolState) (name : string)
    (e : ContainerRegistryEntry) :
  neverBoth st → sessionKey e = None →
  neverBoth (addWarm name (setContainer name e st)).
Proof.
  intros H Hkey n e' He' [(k & Hk & Hm) Hw]. simpl in *.
  destruct (decide (name = n)) as [-> | Hne].
  - rewrite lookup_insert_eq in He'. congruence.
  - rewrite lookup_insert_ne in He' by done.
    apply (H n e' He'). split; [by exists k|]. set_solver.
Qed.

Lemma createWarmContainer_Inv :
  triple Inv createWarmContainer (λ _, Inv).
Proof.
  unfold createWarmContainer. apply triple_world. intros w0 Hw0.
  eapply triple_conseq with (P' := Inv) (Q' := λ _, Inv);
    [|by intros ? ->|done].
  eapply triple_bind with (Q := λ _, Inv).
  { apply triple_callRuntime; auto with pool. }
  intros result. eapply triple_bind with (Q := λ _, Inv).
  { apply triple_now. }
  intros t.
  set (entry := {| containerId := cr_containerId result;
                   containerName := cr_containerName result;
                   sessionKey := None |}).
  eapply triple_bind with
    (Q := λ _ w, Inv w
       ∧ ∀ e, e ∈ entriesOf (file w) →
              containerName e = cr_containerName result →
              Js.truthy (sessionKey e) = false).
  { apply triple_callRegistry; [done|].
    intros w u file' Hw Hr.
    by apply (Inv_upsert_warm w entry file' u). }
  intros ?. intros w [(Hnb & Hu & Hwu) Hnew]. simpl.
  split; [|split; [done|]].
  - by apply neverBoth_set_unassigned.
  - intros n e Hn He Hen. simpl in *.
    apply elem_of_union in Hn as [->%elem_of_singleton | Hn].
    + by apply Hnew.
    + by eapply Hwu.
Qed.

Lemma ensureWarmPool_Inv :
  triple Inv ensureWarmPool (λ _, Inv).
Proof.
  unfold ensureWarmPool. apply triple_world. intros w0 Hw0.
  eapply triple_conseq with (P' := Inv) (Q' := λ _, Inv);
    [|by intros ? ->|done].
  apply triple_if; intros _; [by apply triple_ret|].
  apply triple_times, triple_tryCatch, createWarmContainer_Inv.
Qed.

(** While [syncState] rebuilds the maps from the entries of the
    registry: every container of the map is the entry of its name, every
    member of the warm pool has an entry without a session, and no
    session key of the map is empty. *)
Definition rebuilding (w : World) : Prop :=
  UniqueNames (file w)
  ∧ (∀ n e, containers (state w) !! n = Some e →
            e ∈ entriesOf (file w) ∧ containerName e = n)
  ∧ (∀ n, n ∈ warmPool (state w) →
          ∃ e, e ∈ entriesOf (file w) ∧ containerName e = n
               ∧ Js.truthy (sessionKey e) = false)
  ∧ (∀ k n, sessionToContainer (state w) !! k = Some n → k ≠ "").

Lemma truthy_Some (o : option string) :
  Js.truthy o = true → ∃ k, o = Some k ∧ k ≠ "".
Proof.
  destruct o as [k|]; [|done]. simpl. intros H. exists k. split; [done|].
  intros ->. done.
Qed.

Lemma truthy_false_Some (k : string) :
  Js.truthy (Some k) = false → k = "".
Proof. simpl. intros H. apply negb_false_iff in H. by apply String.eqb_eq. Qed.

Lemma rebuilding_Inv (w : World) : rebuilding w → Inv w.
Proof.
  intros (Hu & HC & HW & HS). split; [|split; [done|]].
  - intros n e He [(k & Hk & Hm) Hw].
    destruct (HC n e He) as [Hin Hname].
    destruct (HW n Hw) as (e' & Hin' & Hname' & Hfalsy).
    assert (e = e') as <- by (eapply unique_by_name; eauto; congruence).
    rewrite Hk in Hfalsy. apply truthy_false_Some in Hfalsy. subst k.
    by apply (HS _ _ Hm).
  - intros n e Hn He Hname.
    destruct (HW n Hn) as (e' & Hin' & Hname' & Hfalsy).
    assert (e = e') as <- by (eapply unique_by_name; eauto; congruence).
    done.
Qed.

Lemma rebuilding_step (w : World) (x : ContainerRegistryEntry) :
  rebuilding w → x ∈ entriesOf (file w) →
  rebuilding
    (withState w
       (let st := setContainer (containerName x) x (state w) in
        if Js.truthy (sessionKey x)
        then setSession (default "" (sessionKey x)) (containerName x) st
        else if status_eqb (status x) idle
        then addWarm (containerName x) st
        else st)).
Proof.
  intros (Hu & HC & HW & HS) Hx.
  assert (HC' : ∀ n e, <[containerName x := x]> (containers (state w)) !! n
                       = Some e →
                       e ∈ entriesOf (file w) ∧ containerName e = n).
  { intros n e. rewrite lookup_insert.
    destruct (decide (containerName x = n)) as [<- | ?]; [|by apply HC].
    by intros [= <-]. }
  destruct (Js.truthy (sessionKey x)) eqn:Htr;
    [|destruct (status_eqb (status x) idle)];
    (split; [done | split; [exact HC' | split]]); simpl; try done.
  - intros k n. rewrite lookup_insert.
    destruct (decide (default "" (sessionKey x) = k)) as [<- | ?];
      [|by apply HS].
    intros ?. apply truthy_Some in Htr as (k & -> & Hk). done.
  - intros n [->%elem_of_singleton | Hn]%elem_of_union; [|by apply HW].
    by exists x.
Qed.

Lemma syncState_Inv : triple Inv syncState (λ _, Inv).
Proof.
  unfold syncState.
  eapply triple_bind with (Q := λ _, Inv).
  { apply triple_callRuntime; auto with pool. }
  intros dockerContainers. eapply triple_bind with (Q := λ _, Inv).
  { apply triple_callRegistry; [done|].
    intros w u file' Hw Hr. by eapply Inv_syncWithDocker. }
  intros ?. eapply triple_bind.
  { by apply (triple_readFromRegistry Inv). }
  intros registryEntries. cbn beta.
  eapply triple_bind with
    (Q := λ _ w, rebuilding w ∧ registryEntries = entriesOf (file w)).
  { apply triple_modifyState. intros w [Hw Hes]. split.
    - split; [apply Hw|]. simpl. split; [|split].
      + intros n e. by rewrite lookup_empty.
      + intros n Hn. by apply elem_of_empty in Hn.
      + intros k n. by rewrite lookup_empty.
    - by apply listContainerEntries_entries in Hes. }
  intros ?.
  eapply triple_conseq with
    (P' := λ w, rebuilding w ∧ registryEntries = entriesOf (file w))
    (Q' := λ _ w, rebuilding w ∧ registryEntries = entriesOf (file w));
    [|done|by intros _ w [Hw _]; apply rebuilding_Inv].
  apply triple_forEach. intros x Hx w [Hw Hes]. subst registryEntries.
  pose proof (rebuilding_step w x Hw Hx) as Hstep.
  unfold mbind, M_bind, modifyState. simpl.
  destruct (Js.truthy (sessionKey x)); simpl;
    [|destruct (status_eqb (status x) idle); simpl]; by split.
Qed.

Lemma start_Inv : triple Inv start (λ _, Inv).
Proof.
  unfold start. apply triple_world. intros w0 Hw0.
  eapply triple_conseq with (P' := Inv) (Q' := λ _, Inv);
    [|by intros ? ->|done].
  apply triple_if; intros _; [by apply triple_ret|].
  eapply triple_bind with (Q := λ _, Inv).
  { apply triple_callRuntime; auto with pool. }
  intros dockerOk. apply triple_if; intros _; [by apply triple_throw|].
  eapply triple_bind; [apply syncState_Inv|]. intros ?.
  eapply triple_bind with (Q := λ _, Inv); [by intros w Hw|].
  intros ?. apply ensureWarmPool_Inv.
Qed.

Lemma stop_Inv : triple Inv stop (λ _, Inv).
Proof.
  unfold stop. apply triple_world. intros w0 Hw0.
  eapply triple_conseq with (P' := Inv) (Q' := λ _, Inv);
    [|by intros ? ->|done].
  apply triple_if; intros _; [by apply triple_ret|]. by intros w Hw.
Qed.

Lemma shutdown_Inv : triple Inv shutdown (λ _, Inv).
Proof.
  unfold shutdown.
  eapply triple_bind; [apply stop_Inv|]. intros ?.
  apply triple_world. intros w0 Hw0.
  eapply triple_conseq with (P' := Inv) (Q' := λ _, Inv);
    [|by intros ? ->|done].
  eapply triple_bind with (Q := λ _, Inv).
  { apply triple_forEach. intros name _. apply triple_tryCatch.
    eapply triple_bind with (Q := λ _, Inv).
    { apply triple_callRuntime; auto with pool. }
    intros ?. eapply triple_bind with (Q := λ _, Inv).
    { apply triple_callRuntime; auto with pool. }
    intros ?. apply triple_callRegistry; [done|].
    intros w u file' Hw Hr. by eapply Inv_removeContainerEntry. }
  intros ?. apply triple_modifyState. auto with pool.
Qed.

Lemma Inv_updateContainerStatus (w : World) (t : Z) (name : string)
    (st : ContainerStatus) (file' : RegistryFile) (u : unit) :
  Inv w → updateContainerStatus t name st (file w) = Ok (u, file') →
  Inv (withFile w file').
Proof.
  intros H Hr. apply updateContainerStatus_entries in Hr.
  by eapply Inv_modifyFirst.
Qed.

Lemma checkHealth_Inv : triple Inv checkHealth (λ _, Inv).
Proof.
  unfold checkHealth. apply triple_world. intros w0 Hw0.
  eapply triple_conseq with (P' := Inv) (Q' := λ _, Inv);
    [|by intros ? ->|done].
  apply triple_if; intros _; [by apply triple_ret|].
  eapply triple_bind with (Q := λ _, Inv); [apply triple_now|].
  intros t. eapply triple_bind with (Q := λ _, Inv).
  { eapply triple_conseq; [by apply (triple_readFromRegistry Inv)|done|].
    by intros ? ? [? _]. }
  intros staleContainers. apply triple_forEach. intros container _.
  eapply triple_bind with (Q := λ _, Inv).
  { apply triple_callRuntime; auto with pool. }
  intros st. apply triple_if; intros _; [apply removeContainerByName_Inv|].
  eapply triple_bind with (Q := λ _, Inv); [apply triple_now|].
  intros t'. eapply triple_bind with (Q := λ _, Inv).
  { apply triple_callRegistry; [done|].
    intros w u file' Hw Hr. by eapply Inv_updateContainerStatus. }
  intros ?. apply triple_if; intros _; [|by apply triple_ret].
  apply triple_modifyState. auto with pool.
Qed.

Lemma maintenance_Inv : triple Inv maintenance (λ _, Inv).
Proof.
  unfold maintenance. apply triple_world. intros w0 Hw0.
  eapply triple_conseq with (P' := Inv) (Q' := λ _, Inv);
    [|by intros ? ->|done].
  apply triple_if; intros _; [by apply triple_ret|].
  eapply triple_bind with (Q := λ _, Inv); [apply triple_now|].
  intros t. eapply triple_bind with (Q := λ _, Inv).
  { eapply triple_conseq; [by apply (triple_readFromRegistry Inv)|done|].
    by intros ? ? [? _]. }
  intros idleContainers. eapply triple_bind with (Q := λ _, Inv).
  { apply triple_forEach. intros container _. apply removeContainerByName_Inv. }
  intros ?. eapply triple_bind with (Q := λ _, Inv); [apply triple_now|].
  intros t'. eapply triple_bind with (Q := λ _, Inv).
  { eapply triple_conseq; [by apply (triple_readFromRegistry Inv)|done|].
    by intros ? ? [? _]. }
  intros expiredContainers. eapply triple_bind with (Q := λ _, Inv).
  { apply triple_forEach. intros container _. apply removeContainerByName_Inv. }
  intros ?. apply ensureWarmPool_Inv.
Qed.

(** After a change of the first entry of a name that removes its
    session, no entry of that name has a session. *)
Lemma modifyFirst_unassigned (name : string)
    (f : ContainerRegistryEntry → ContainerRegistryEntry)
    (es : list ContainerRegistryEntry) (e : ContainerRegistryEntry) :
  NoDup (map containerName es) →
  (∀ x, Js.truthy (sessionKey (f x)) = false) →
  e ∈ modifyFirst (named name) f es → containerName e = name →
  Js.truthy (sessionKey e) = false.
Proof.
  intros Hnd Hf. induction es as [|x es IH]; simpl; [by intros ?%elem_of_nil|].
  apply NoDup_cons in Hnd as [Hx Hnd].
  destruct (named name x) eqn:Hn.
  - apply named_true in Hn.
    intros [-> | He]%elem_of_cons Hname; [done|].
    exfalso. apply Hx. apply list_elem_of_fmap. exists e.
    split; [congruence | done].
  - apply named_false in Hn.
    intros [-> | He]%elem_of_cons Hname; [done | by apply IH].
Qed.

Lemma Inv_unassignContainer (w : World) (t : Z) (name : string)
    (file' : RegistryFile) (u : unit) :
  Inv w → unassignContainer t name (file w) = Ok (u, file') →
  Inv (withFile w file')
  ∧ ∀ e, e ∈ entriesOf file' → containerName e = name →
         Js.truthy (sessionKey e) = false.
Proof.
  intros H Hr. apply unassignContainer_entries in Hr. split.
  - by eapply Inv_modifyFirst.
  - intros e He Hname. rewrite Hr in He.
    eapply modifyFirst_unassigned; [apply H| |exact He|exact Hname]. done.
Qed.

(** The container goes back to the warm pool and loses its session in the
    map. *)
Definition returnedToPool (name : string) (st : PoolState) : PoolState :=
  let st := addWarm name st in
  match containers st !! name with
  | Some entry =>
      setContainer name
        {| containerId := containerId entry;
           containerName := Registry.containerName entry;
           sessionKey := None; agentId := None; status := idle;
           createdAt := createdAt entry;
           lastHeartbeat := lastHeartbeat entry;
           claudeSessionId := claudeSessionId entry;
           turnCount := turnCount entry;
           configHash := configHash entry |} st
  | None => st
  end.

Lemma Inv_returnedToPool (w : World) (name : string) :
  Inv w →
  (∀ e, e ∈ entriesOf (file w) → containerName e = name →
        Js.truthy (sessionKey e) = false) →
  Inv (withState w (returnedToPool name (state w))).
Proof.
  intros (Hnb & Hu & Hwu) Hname. split; [|split; [done|]].
  - intros n e He [(k & Hk & Hm) Hw]. unfold returnedToPool in *.
    cbn [state withState containers addWarm] in *.
    destruct (containers (state w) !! name) as [entry|] eqn:Hentry;
      cbn [containers sessionToContainer warmPool setContainer addWarm] in *.
    + destruct (decide (name = n)) as [-> | Hne].
      * rewrite lookup_insert_eq in He. injection He as <-. done.
      * rewrite lookup_insert_ne in He by done.
        apply (Hnb n e He). split; [by exists k | set_solver].
    + destruct (decide (name = n)) as [-> | Hne]; [congruence|].
      apply (Hnb n e He). split; [by exists k | set_solver].
  - intros n e Hn He Hen.
    assert (Hn' : n ∈ {[name]} ∪ warmPool (state w)).
    { unfold returnedToPool in Hn. cbn [state withState] in Hn.
      by destruct (containers (addWarm name (state w)) !! name). }
    apply elem_of_union in Hn' as [->%elem_of_singleton | Hn'].
    + by apply Hname.
    + by eapply Hwu.
Qed.

Lemma releaseContainer_Inv (key : string) (returnToPool : bool) :
  triple Inv (releaseContainer key returnToPool) (λ _, Inv).
Proof.
  unfold releaseContainer. apply triple_world. intros w0 Hw0.
  eapply triple_conseq with (P' := Inv) (Q' := λ _, Inv);
    [|by intros ? ->|done].
  apply triple_if; intros _; [by apply triple_ret|].
  set (name := default "" (sessionToContainer (state w0) !! key)).
  eapply triple_bind with (Q := λ _, Inv).
  { apply triple_modifyState. auto with pool. }
  intros ?. apply triple_if; intros _.
  - eapply triple_bind with (Q := λ _, Inv); [apply triple_now|].
    intros t. eapply triple_bind with
      (Q := λ _ w, Inv w
         ∧ ∀ e, e ∈ entriesOf (file w) → containerName e = name →
                Js.truthy (sessionKey e) = false).
    { apply triple_callRegistry; [done|].
      intros w u file' Hw Hr. by eapply Inv_unassignContainer. }
    intros ? w [Hw Hname].
    by apply (Inv_returnedToPool w name).
  - eapply triple_bind with (Q := λ _, Inv).
    { apply triple_callRuntime; auto with pool. }
    intros ?. eapply triple_bind with (Q := λ _, Inv).
    { apply triple_callRuntime; auto with pool. }
    intros ?. eapply triple_bind with (Q := λ _, Inv).
    { apply triple_callRegistry; [done|].
      intros w u file' Hw Hr. by eapply Inv_removeContainerEntry. }
    intros ?. apply triple_modifyState. auto with pool.
Qed.

(** A container outside the warm pool is given a session. *)
Lemma neverBoth_assign (st : PoolState) (name key : string)
    (e : ContainerRegistryEntry) :
  neverBoth st → name ∉ warmPool st →
  neverBoth (setContainer name e (setSession key name st)).
Proof.
  intros H Hfresh n e' He' [(k & Hk & Hm) Hw]. simpl in *.
  destruct (decide (name = n)) as [-> | Hne]; [done|].
  rewrite lookup_insert_ne in He' by done.
  destruct (decide (key = k)) as [-> | Hk'].
  - rewrite lookup_insert_eq in Hm. congruence.
  - rewrite lookup_insert_ne in Hm by done.
    apply (H n e' He'). split; [by exists k | done].
Qed.

Lemma Inv_setSession_fresh (w : World) (name key : string) :
  Inv w → name ∉ warmPool (state w) →
  Inv (withState w (setSession key name (state w))).
Proof.
  intros (Hnb & Hu & Hwu) Hfresh. split; [|split; done].
  intros n e He [(k & Hk & Hm) Hw]. simpl in *.
  destruct (decide (key = k)) as [-> | Hk'].
  - rewrite lookup_insert_eq in Hm. congruence.
  - rewrite lookup_insert_ne in Hm by done.
    apply (Hnb n e He). split; [by exists k | done].
Qed.

Lemma Inv_setContainer_fresh (w : World) (name : string)
    (e : ContainerRegistryEntry) :
  Inv w → name ∉ warmPool (state w) →
  Inv (withState w (setContainer name e (state w))).
Proof.
  intros (Hnb & Hu & Hwu) Hfresh. split; [|split; done].
  intros n e' He' [(k & Hk & Hm) Hw]. simpl in *.
  destruct (decide (name = n)) as [-> | Hne]; [done|].
  rewrite lookup_insert_ne in He' by done.
  apply (Hnb n e' He'). split; [by exists k | done].
Qed.

Lemma Inv_assign_state (w : World) (name key : string)
    (e : ContainerRegistryEntry) :
  Inv w → name ∉ warmPool (state w) →
  Inv (withState w (setContainer name e (setSession key name (state w)))).
Proof.
  intros (Hnb & Hu & Hwu) Hfresh. split; [|split; [done|]].
  - by apply neverBoth_assign.
  - done.
Qed.

Lemma find_elem {A} (p : A → bool) (l : list A) (x : A) :
  List.find p l = Some x → x ∈ l ∧ p x = true.
Proof.
  intros H. apply List.find_some in H as [H1 H2].
  split; [by apply list_elem_of_In | done].
Qed.

(** A container that the registry assigns to a session with a key that
    is not empty is not in the warm pool. *)
Lemma assigned_not_warm (w : World) (key : string)
    (e : ContainerRegistryEntry) :
  Inv w → key ≠ "" →
  getContainerBySessionKey key (file w) = Ok (Some e) →
  containerName e ∉ warmPool (state w).
Proof.
  intros (_ & _ & Hwu) Hkey Hfind Hin.
  apply getContainerBySessionKey_entries in Hfind. symmetry in Hfind.
  apply find_elem in Hfind as [He Hp].
  pose proof (Hwu _ e Hin He eq_refl) as Hfalsy.
  destruct (sessionKey e) as [k|]; [|done].
  apply String.eqb_eq in Hp. subst k.
  by apply truthy_false_Some in Hfalsy.
Qed.

(** The registry gives a warm container a session before the warm pool
    drops it: in between, the other members of the warm pool are still
    without a session. *)
Lemma Inv_assign_registry (w : World) (t : Z) (name key : string)
    (agent : option string) (file' : RegistryFile) (u : unit) :
  Inv w →
  assignContainerToSession t name key agent (file w) = Ok (u, file') →
  Inv (withState (withFile w file') (deleteWarm name (state w))).
Proof.
  intros (Hnb & Hu & Hwu) Hr. apply assignContainerToSession_entries in Hr.
  split; [|split].
  - eapply neverBoth_shrink; [exact Hnb|done|done|]. simpl. set_solver.
  - unfold UniqueNames. cbn [file withFile withState].
    rewrite Hr, map_modifyFirst by done. exact Hu.
  - intros n e Hn He Hen. cbn [file state withFile withState] in *.
    simpl in Hn. apply elem_of_difference in Hn as [Hn Hne].
    rewrite Hr in He.
    apply elem_of_modifyFirst in He as [He | (x & Hx & Hp & ->)].
    + by eapply Hwu.
    + apply named_true in Hp. simpl in Hen. set_solver.
Qed.

(** The entry of a container that is not in the warm pool is written. *)
Lemma Inv_upsert_fresh (w : World) (entry : ContainerRegistryEntry)
    (file' : RegistryFile) (u : unit) :
  Inv w → containerName entry ∉ warmPool (state w) →
  updateContainerEntry entry (file w) = Ok (u, file') →
  Inv (withFile w file').
Proof.
  intros (Hnb & Hu & Hwu) Hfresh Hr.
  apply updateContainerEntry_entries in Hr.
  split; [done|split].
  - unfold UniqueNames. cbn [file withFile]. rewrite Hr. by apply upsert_names.
  - intros n e Hn He Hen. cbn [file state withFile] in *. rewrite Hr in He.
    apply elem_of_upsert in He as [-> | He]; [by subst n | by eapply Hwu].
Qed.

Lemma getContainer_Inv (params : GetParams) :
  triple (λ w, Inv w ∧ respected (OpGetContainer params) w)
    (getContainer params) (λ _, Inv).
Proof.
  unfold getContainer. apply triple_world. intros w0 [Hw0 [Hkey Hfresh]].
  match goal with
  | |- triple _ (match ?c with _ => _ end) _ => destruct c as [assignment|]
  end.
  { apply triple_ret. by intros ? ->. }
  (* the registry is asked for the session *)
  set (P := λ w : World, Inv w ∧ warmPool (state w) = warmPool (state w0)
                        ∧ config w = config w0).
  assert (HPb : runtimeBlind P) by (by intros w r Hw).
  assert (HPi : ∀ w, P w → Inv w) by (by intros w [? _]).
  eapply triple_conseq with (P' := P) (Q' := λ _, Inv);
    [|by intros ? ->|done].
  eapply triple_bind; [by apply (triple_readFromRegistry P)|].
  intros registryEntry. cbn beta.
  eapply triple_bind with
    (Q := λ adopted w, match adopted with Some _ => Inv w | None => P w end).
  { destruct registryEntry as [e|]; [|by apply triple_ret; intros w [Hw _]].
    eapply triple_bind with
      (Q := λ _ w, P w ∧ containerName e ∉ warmPool (state w)).
    { eapply triple_conseq with
        (P' := λ w, P w ∧ containerName e ∉ warmPool (state w)).
      - apply triple_callRuntime; [by intros w r Hw | by intros w [[? _] _]].
      - intros w [Hw Hfind]. split; [done|].
        eapply assigned_not_warm; [apply Hw | exact Hkey | exact Hfind].
      - done. }
    intros st. apply triple_if; intros _;
      [|by apply triple_ret; intros w [Hw _]].
    intros w [[Hw _] Hnw]. simpl. by apply Inv_assign_state. }
  intros [assignment|]; [by apply triple_ret|].
  (* the caps *)
  apply triple_world. intros w1 Hw1.
  eapply triple_conseq with (P' := P) (Q' := λ _, Inv);
    [|by intros ? ->|done].
  eapply triple_bind with (Q := λ _, P).
  { eapply triple_conseq; [by apply (triple_readFromRegistry P)|done|].
    by intros ? ? [? _]. }
  intros agentContainers. apply triple_if; intros _; [by apply triple_throw|].
  eapply triple_bind with (Q := λ _, P).
  { eapply triple_conseq; [by apply (triple_readFromRegistry P)|done|].
    by intros ? ? [? _]. }
  intros allContainers. apply triple_if; intros _; [by apply triple_throw|].
  eapply triple_bind with (Q := λ _, P).
  { eapply triple_conseq; [by apply (triple_readFromRegistry P)|done|].
    by intros ? ? [? _]. }
  intros [|warm warmContainers].
  - (* a new container *)
    eapply triple_bind; [by apply (triple_callRuntime_result P)|].
    intros result. cbn beta.
    eapply triple_bind with
      (Q := λ _ w, Inv w ∧ cr_containerName result ∉ warmPool (state w)).
    { intros w [(Hw & HW & Hc) (r & r' & Hcreate)]. simpl.
      split; [done|]. rewrite HW. destruct Hw1 as (_ & _ & Hc1).
      rewrite Hc1 in Hcreate. by eapply Hfresh. }
    intros t. eapply triple_bind with
      (Q := λ _ w, Inv w ∧ cr_containerName result ∉ warmPool (state w)).
    { apply triple_callRegistry; [by intros w [? _]|].
      intros w u file' [Hw Hnw] Hr. split; [|done].
      refine (Inv_upsert_fresh w _ file' u Hw _ Hr). exact Hnw. }
    intros ? w [Hw Hnw]. simpl. by apply Inv_assign_state.
  - (* a warm container *)
    set (name := containerName warm).
    set (Fresh := λ w : World, Inv w ∧ name ∉ warmPool (state w)).
    eapply triple_bind with (Q := λ _, Inv); [by intros w [Hw _]|].
    intros t. eapply triple_bind with
      (Q := λ _ w, Inv (withState w (deleteWarm name (state w)))).
    { apply triple_callRegistry; [done|].
      intros w u file' Hw Hr.
      exact (Inv_assign_registry w _ _ _ _ file' u Hw Hr). }
    intros ?. eapply triple_bind with (Q := λ _, Fresh).
    { apply triple_modifyState. intros w Hw. split; [done|].
      simpl. set_solver. }
    intros ?. eapply triple_bind with (Q := λ _, Fresh).
    { apply triple_modifyState. intros w [Hw Hnw]. split; [|done].
      by apply Inv_setSession_fresh. }
    intros ?. eapply triple_bind with (Q := λ _, Inv).
    { apply triple_modifyState. intros w [Hw Hnw].
      by apply Inv_setContainer_fresh. }
    intros ?. eapply triple_bind with (Q := λ _, Inv).
    { apply triple_tryCatch, ensureWarmPool_Inv. }
    intros ?. by apply triple_ret.
Qed.

Lemma triple_final {A} (P : World → Prop) (m : M A) (w : World) :
  triple P m (λ _, Inv) → P w → Inv (m w).2.
Proof.
  intros H Hw. specialize (H w Hw). by destruct (m w) as [[a|e] w'].
Qed.

Lemma Inv_create (cfg : DockerCCPoolConfig) (f : RegistryFile) (r : Runtime) :
  UniqueNames f → Inv (create cfg f r).
Proof.
  intros Hu. split; [|split; [done|]].
  - intros n e. simpl. by rewrite lookup_empty.
  - intros n e Hn. simpl in Hn. by apply elem_of_empty in Hn.
Qed.

(** Every operation, whether it returns or throws, leaves the
    invariant standing. *)
Lemma perform_Inv (op : Op) (w : World) :
  Inv w → respected op w → Inv (perform op w).2.
Proof.
  intros Hw Hop. destruct op; cbn [perform].
  - by eapply (triple_final Inv); [apply start_Inv|].
  - by eapply (triple_final Inv); [apply stop_Inv|].
  - eapply (triple_final (λ w, Inv w ∧ respected (OpGetContainer params) w));
      [|done].
    eapply triple_bind; [apply getContainer_Inv|].
    intros ?. by apply triple_ret.
  - by eapply (triple_final Inv); [apply releaseContainer_Inv|].
  - by eapply (triple_final Inv); [apply removeContainerByName_Inv|].
  - by eapply (triple_final Inv); [apply checkHealth_Inv|].
  - by eapply (triple_final Inv); [apply maintenance_Inv|].
  - by eapply (triple_final Inv); [apply shutdown_Inv|].
Qed.

(** The operations one after the other. *)
Fixpoint performAll (ops : list Op) (w : World) : World :=
  match ops with
  | [] => w
  | op :: rest => performAll rest (perform op w).2
  end.

Lemma performAll_Inv (ops : list Op) (w : World) :
  Inv w →
  (∀ pre op post, ops = pre ++ op :: post → respected op (performAll pre w)) →
  Inv (performAll ops w).
Proof.
  revert w. induction ops as [|op ops IH]; intros w Hw Hops; [done|].
  cbn [performAll]. apply IH.
  - apply perform_Inv; [done|]. by apply (Hops [] op ops).
  - intros pre op' post ->. by apply (Hops (op :: pre) op' post).
Qed.

(** From a new manager on a registry with unique names, after any
    sequence of operations that respect the conditions, no container is
    both mapped and warm. *)
Lemma neverBoth_always (cfg : DockerCCPoolConfig) (f : RegistryFile)
    (r : Runtime) (ops : list Op) :
  UniqueNames f →
  (∀ pre op post, ops = pre ++ op :: post →
                  respected op (performAll pre (create cfg f r))) →
  neverBoth (state (performAll ops (create cfg f r))).
Proof.
  intros Hu Hops. by apply performAll_Inv; [apply Inv_create|].
Qed.


(** C6, as the code has it.  When the session map holds a name for the
    session key and the container map an entry of that name,
    [getContainer] returns that container as the assignment, marked
    neither new nor warm, and leaves the world as it was: the runtime is
    not asked whether the container exists or runs. *)
Theorem getContainer_returns_cached (params : GetParams) (w : World)
    (name : string) (entry : ContainerRegistryEntry) :
  sessionToContainer (state w) !! p_sessionKey params = Some name →
  name ≠ "" →
  containers (state w) !! name = Some entry →
  getContainer params w
  = (Ok {| a_containerName := name; a_containerId := containerId entry;
           a_isNew := false; a_wasWarm := false |}, w).
Proof.
  intros Hs Hname Hc. unfold getContainer, mbind, M_bind, getWorld.
  rewrite Hs. cbn [Js.truthy default from_option].
  apply String.eqb_neq in Hname. rewrite Hname. cbn [negb id].
  by rewrite Hc.
Qed.

(** ** Outcomes of the methods

    [hoare P m Q E]: from a world in [P], the method [m] ends in a
    value and a world in [Q], or throws in a world in [E]. *)
Definition hoare {A} (P : World → Prop) (m : M A) (Q : A → World → Prop)
    (E : World → Prop) : Prop :=
  ∀ w, P w →
    match m w with
    | (Ok a, w') => Q a w'
    | (Err _, w') => E w'
    end.

Lemma hoare_ret {A} (P : World → Prop) (a : A) (Q : A → World → Prop)
    (E : World → Prop) :
  (∀ w, P w → Q a w) → hoare P (mret a) Q E.
Proof. intros H w Hw. by apply H. Qed.

Lemma hoare_bind {A B} (P : World → Prop) (m : M A) (k : A → M B)
    (Q : A → World → Prop) (R : B → World → Prop) (E : World → Prop) :
  hoare P m Q E → (∀ a, hoare (Q a) (k a) R E) → hoare P (m ≫= k) R E.
Proof.
  intros Hm Hk w Hw. specialize (Hm w Hw).
  unfold mbind, M_bind. destruct (m w) as [[a|e] w']; [|done].
  by apply Hk.
Qed.

Lemma hoare_conseq {A} (P P' : World → Prop) (m : M A)
    (Q Q' : A → World → Prop) (E E' : World → Prop) :
  hoare P' m Q' E' → (∀ w, P w → P' w) → (∀ a w, Q' a w → Q a w) →
  (∀ w, E' w → E w) → hoare P m Q E.
Proof.
  intros Hm HP HQ HE w Hw. specialize (Hm w (HP w Hw)).
  destruct (m w) as [[a|e] w']; [by apply HQ | by apply HE].
Qed.

Lemma hoare_throw {A} (P : World → Prop) (msg : string)
    (Q : A → World → Prop) (E : World → Prop) :
  (∀ w, P w → E w) → hoare P (throw msg) Q E.
Proof. intros H w Hw. by apply H. Qed.

Lemma hoare_world {A} (P : World → Prop) (k : World → M A)
    (Q : A → World → Prop) (E : World → Prop) :
  (∀ w0, P w0 → hoare (λ w, w = w0) (k w0) Q E) →
  hoare P (getWorld ≫= k) Q E.
Proof. intros H w Hw. apply (H w Hw w eq_refl). Qed.

Lemma hoare_now (P : World → Prop) (Q : Z → World → Prop) (E : World → Prop) :
  (∀ w, P w → Q (Date_now (runtime w)) w) → hoare P now Q E.
Proof. intros H w Hw. by apply H. Qed.

Lemma hoare_modifyState (P : World → Prop) (f : PoolState → PoolState)
    (Q : unit → World → Prop) (E : World → Prop) :
  (∀ w, P w → Q tt (withState w (f (state w)))) →
  hoare P (modifyState f) Q E.
Proof. intros H w Hw. by apply H. Qed.

Lemma hoare_callRuntime {A} (P : World → Prop)
    (f : Runtime → Result A * Runtime) (Q : A → World → Prop)
    (E : World → Prop) :
  (∀ w a r', P w → f (runtime w) = (Ok a, r') → Q a (withRuntime w r')) →
  (∀ w e r', P w → f (runtime w) = (Err e, r') → E (withRuntime w r')) →
  hoare P (callRuntime f) Q E.
Proof.
  intros HQ HE w Hw. unfold callRuntime.
  destruct (f (runtime w)) as [[a|e] r'] eqn:Hf; [by eapply HQ | by eapply HE].
Qed.

Lemma hoare_callRegistry {A} (P : World → Prop)
    (f : RegistryFile → Result (A * RegistryFile)) (Q : A → World → Prop)
    (E : World → Prop) :
  (∀ w a file', P w → f (file w) = Ok (a, file') → Q a (withFile w file')) →
  (∀ w e, P w → f (file w) = Err e → E w) →
  hoare P (callRegistry f) Q E.
Proof.
  intros HQ HE w Hw. unfold callRegistry.
  destruct (f (file w)) as [[a file']|e] eqn:Hf; [by eapply HQ | by eapply HE].
Qed.

Lemma hoare_readFromRegistry {A} (P : World → Prop)
    (f : RegistryFile → Result A) (Q : A → World → Prop) (E : World → Prop) :
  (∀ w a, P w → f (file w) = Ok a → Q a w) →
  (∀ w, P w → E w) →
  hoare P (readFromRegistry f) Q E.
Proof.
  intros HQ HE w Hw. unfold readFromRegistry.
  destruct (f (file w)) eqn:Hf; [by apply HQ | by apply HE].
Qed.

(** What is caught is not thrown. *)
Lemma hoare_tryCatch (P R : World → Prop) (m : M unit) (E : World → Prop) :
  hoare P m (λ _, R) R → hoare P (tryCatch m) (λ _, R) E.
Proof.
  intros Hm w Hw. specialize (Hm w Hw). unfold tryCatch.
  by destruct (m w) as [[a|e] w'].
Qed.

Lemma hoare_forEach {A} (I : World → Prop) (l : list A) (body : A → M unit)
    (E : World → Prop) :
  (∀ x, x ∈ l → hoare I (body x) (λ _, I) E) →
  hoare I (forEach l body) (λ _, I) E.
Proof.
  induction l as [|x l IH]; intros Hbody; [by apply hoare_ret|].
  cbn [forEach]. eapply hoare_bind.
  - apply Hbody. by left.
  - intros ?. apply IH. intros y Hy. apply Hbody. by right.
Qed.

Lemma hoare_if {A} (b : bool) (P : World → Prop) (m1 m2 : M A)
    (Q : A → World → Prop) (E : World → Prop) :
  (b = true → hoare P m1 Q E) → (b = false → hoare P m2 Q E) →
  hoare P (if b then m1 else m2) Q E.
Proof. destruct b; auto. Qed.

(** A property of the maps and flags of the manager, which the calls of
    the runtime and of the registry cannot change. *)
Definition ofManager (I : World → Prop) : Prop :=
  (∀ w r, I w → I (withRuntime w r)) ∧ (∀ w f, I w → I (withFile w f)).

Lemma hoare_callRuntime_keeps {A} (I : World → Prop)
    (f : Runtime → Result A * Runtime) :
  ofManager I → hoare I (callRuntime f) (λ _, I) I.
Proof. intros [Hr _]. apply hoare_callRuntime; intros; by apply Hr. Qed.

Lemma hoare_callRegistry_keeps {A} (I : World → Prop)
    (f : RegistryFile → Result (A * RegistryFile)) :
  ofManager I → hoare I (callRegistry f) (λ _, I) I.
Proof.
  intros [_ Hf]. apply hoare_callRegistry; intros; [by apply Hf | done].
Qed.

(** *** [shutdown] *)

(** X21.  [shutdown] never throws, whatever the runtime and the registry
    answer, and leaves a manager that is stopped and tracks nothing. *)
Theorem shutdown_always_empties (w : World) :
  ∃ w', shutdown w = (Ok tt, w')
    ∧ state w' = emptyState
    ∧ isRunning w' = false
    ∧ config w' = config w.
Proof.
  set (I := λ w' : World, isRunning w' = false ∧ config w' = config w).
  assert (HI : ofManager I) by (by split).
  assert (H : hoare (λ w', w' = w) shutdown
                (λ _ w', state w' = emptyState ∧ I w') (λ _, False)).
  { unfold shutdown. eapply hoare_bind with (Q := λ _, I).
    { unfold stop. apply hoare_world. intros w0 ->.
      apply hoare_if; intros Hr.
      - apply hoare_ret. intros ? ->. split; [|done].
        by apply negb_true_iff in Hr.
      - by intros ? ->. }
    intros ?. cbn beta. apply hoare_world. intros w0 Hw0.
    eapply hoare_bind with (Q := λ _, I).
    { eapply hoare_conseq with (P' := I) (Q' := λ _, I) (E' := λ _, False);
        [|by intros ? ->|done|done].
      apply hoare_forEach. intros name _. apply hoare_tryCatch.
      eapply hoare_bind; [by apply hoare_callRuntime_keeps|]. intros ?.
      eapply hoare_bind; [by apply hoare_callRuntime_keeps|]. intros ?.
      by apply hoare_callRegistry_keeps. }
    intros ?. apply hoare_modifyState. by intros w1 Hw1. }
  specialize (H w eq_refl).
  destruct (shutdown w) as [[[]|e] w']; [|done].
  exists w'. by destruct H as [? [? ?]].
Qed.

(** *** The top-up of the warm pool *)

(** From [w] to [w'] the manager only gained containers: the session
    map and the configuration are the same, every container and every
    member of the warm pool is still there. *)
Definition grew (w w' : World) : Prop :=
  sessionToContainer (state w') = sessionToContainer (state w)
  ∧ config w' = config w
  ∧ isRunning w' = isRunning w
  ∧ warmPool (state w) ⊆ warmPool (state w')
  ∧ ∀ n, is_Some (containers (state w) !! n) →
         is_Some (containers (state w') !! n).

Lemma grew_refl (w : World) : grew w w.
Proof. by repeat split. Qed.

Lemma grew_trans (w1 w2 w3 : World) : grew w1 w2 → grew w2 w3 → grew w1 w3.
Proof.
  intros (H1 & H2 & H3 & H4 & H5) (G1 & G2 & G3 & G4 & G5).
  repeat split; try congruence; [set_solver | by auto].
Qed.

Lemma createWarmContainer_step (w : World) :
  (tryCatch createWarmContainer w).1 = Ok tt
  ∧ (size (containers (state (tryCatch createWarmContainer w).2))
     <= S (size (containers (state w))))%nat
  ∧ grew w (tryCatch createWarmContainer w).2.
Proof.
  unfold tryCatch, createWarmContainer, mbind, M_bind, getWorld, callRuntime,
    now, callRegistry, modifyState.
  destruct (createAndStartContainer _ (runtime w)) as [[res|e] r'];
    cbn [file withRuntime];
    [|split; [done|]; split; [simpl; lia | by repeat split]].
  destruct (updateContainerEntry _ (file w)) as [[u f']|e];
    [|split; [done|]; split; [simpl; lia | by repeat split]].
  split; [done|]. cbn [snd state withState withFile withRuntime addWarm
                       setContainer containers].
  split.
  - rewrite map_size_insert. destruct (containers (state w) !! _); simpl; lia.
  - repeat split; cbn; try done; [set_solver|].
    intros n Hn. destruct (decide (cr_containerName res = n)) as [-> | Hne].
    + rewrite lookup_insert_eq. by eexists.
    + by rewrite lookup_insert_ne.
Qed.

Lemma topup_times (n : nat) :
  ∀ w, (times n (tryCatch createWarmContainer) w).1 = Ok tt
    ∧ (size (containers (state (times n (tryCatch createWarmContainer) w).2))
       <= size (containers (state w)) + n)%nat
    ∧ grew w (times n (tryCatch createWarmContainer) w).2.
Proof.
  induction n as [|n IH]; intros w.
  - split; [done|]. split; [simpl; lia | apply grew_refl].
  - cbn [times]. unfold mbind, M_bind.
    destruct (createWarmContainer_step w) as (Hok & Hsize & Hgrew).
    destruct (tryCatch createWarmContainer w) as [[[]|e] w1]; [|done].
    cbn [fst snd] in *.
    destruct (IH w1) as (Hok' & Hsize' & Hgrew').
    split; [done|]. split; [lia | by eapply grew_trans].
Qed.

Lemma ensureWarmPool_grew (w : World) :
  (ensureWarmPool w).1 = Ok tt ∧ grew w (ensureWarmPool w).2.
Proof.
  unfold ensureWarmPool, mbind, M_bind, getWorld.
  destruct (_ <=? 0); [split; [done | apply grew_refl]|].
  by destruct (topup_times
                 (Z.to_nat (Z.min
                    (pool_minWarm (config w)
                     - Z.of_nat (size (warmPool (state w))))
                    (pool_maxTotal (config w)
                     - Z.of_nat (size (containers (state w)))))) w)
    as (? & _ & ?).
Qed.

(** X22.  The top-up never throws and never takes the number of containers
    that the manager tracks past [maxTotal]; it leaves the session map
    alone and removes nothing. *)
Theorem ensureWarmPool_bounded (w : World) :
  ∃ w', ensureWarmPool w = (Ok tt, w')
    ∧ Z.of_nat (size (containers (state w')))
      <= Z.max (Z.of_nat (size (containers (state w))))
               (pool_maxTotal (config w))
    ∧ sessionToContainer (state w') = sessionToContainer (state w)
    ∧ warmPool (state w) ⊆ warmPool (state w')
    ∧ ∀ n, is_Some (containers (state w) !! n) →
           is_Some (containers (state w') !! n).
Proof.
  unfold ensureWarmPool, mbind, M_bind, getWorld.
  destruct (_ <=? 0) eqn:Hneeded.
  { exists w. repeat split; [lia | done..]. }
  set (n := Z.to_nat _).
  destruct (topup_times n w) as (Hok & Hsize & Hs & _ & _ & Hw & Hc).
  destruct (times n (tryCatch createWarmContainer) w) as [[[]|e] w'];
    [|done].
  exists w'. cbn [fst snd] in *. repeat split; try done.
  subst n. lia.
Qed.

(** *** Removing and releasing *)

Lemma removed_is_absent (name : string) (f f' : RegistryFile) (u : unit) :
  removeContainerEntry name f = Ok (u, f') →
  getContainerEntry name f' = Ok None.
Proof.
  unfold removeContainerEntry.
  destruct (readRegistry f) as [registry|] eqn:Hr; [|done].
  intros [= _ <-]. unfold getContainerEntry.
  rewrite read_after_write by (by eapply readRegistry_version).
  cbn [entries withEntries].
  by rewrite find_filter_other, String.eqb_refl.
Qed.

(** X23.  Whether [removeContainerByName] returns or throws, the manager no
    longer tracks the container: it is out of the container map and of
    the warm pool, and its session no longer maps to anything.  When
    it returns, the registry has no entry of that name either. *)
Theorem removeContainerByName_cleans (name : string) (w : World) :
  let out := removeContainerByName name w in
  containers (state out.2) !! name = None
  ∧ (name ∉ warmPool (state out.2))
  ∧ (∀ e k, containers (state w) !! name = Some e →
            sessionKey e = Some k → k ≠ "" →
            sessionToContainer (state out.2) !! k = None)
  ∧ (out.1 = Ok tt → getContainerEntry name (file out.2) = Ok None).
Proof.
  cbn zeta.
  unfold removeContainerByName, mbind, M_bind, getWorld, callRuntime,
    callRegistry, modifyState.
  set (cleared := match containers (state w) !! name with
                  | Some e => _
                  | None => _
                  end).
  assert (Hc : ∃ st, cleared w = (Ok tt, withState w st)
             ∧ containers st = containers (state w)
             ∧ warmPool st = warmPool (state w)
             ∧ ∀ e k, containers (state w) !! name = Some e →
                      sessionKey e = Some k → k ≠ "" →
                      sessionToContainer st !! k = None).
  { subst cleared. destruct (containers (state w) !! name) as [e|] eqn:He.
    - destruct (Js.truthy (sessionKey e)) eqn:Ht.
      + eexists. split; [reflexivity|]. repeat split.
        intros e' k [= <-] Hk _. rewrite Hk. simpl. apply lookup_delete_eq.
      + exists (state w). split; [by destruct w|]. repeat split.
        intros e' k [= <-] Hk Hne. rewrite Hk in Ht. simpl in Ht.
        by apply negb_false_iff, String.eqb_eq in Ht.
    - exists (state w). split; [by destruct w|]. by repeat split. }
  destruct Hc as (st & -> & Hcs & Hws & Hks).
  assert (H2 : name ∉ warmPool st ∖ {[name]}) by set_solver.
  destruct (stopContainer name _) as [[u1|e1] r1];
    [|cbn; by rewrite lookup_delete_eq].
  destruct (removeContainer name _) as [[u2|e2] r2];
    [|cbn; by rewrite lookup_delete_eq].
  cbn [withRuntime withState file].
  destruct (removeContainerEntry name (file w)) as [[u3 f']|e3] eqn:Hrm;
    [|cbn; by rewrite lookup_delete_eq].
  cbn. rewrite lookup_delete_eq. repeat split; try done.
  intros _. by eapply removed_is_absent.
Qed.

(** X24.  After [releaseContainer] the session maps to no container, whether
    the call returns or throws.  When it returns, the container is
    either back in the warm pool, unassigned and idle in the container
    map (if that was asked and the pool was below its floor), or gone
    from the container map and from the registry. *)
Theorem releaseContainer_unmaps (key name : string) (returnToPool : bool)
    (w : World) :
  sessionToContainer (state w) !! key = Some name → name ≠ "" →
  let out := releaseContainer key returnToPool w in
  let toPool :=
    returnToPool
    && (Z.of_nat (size (warmPool (state w))) <? pool_minWarm (config w)) in
  sessionToContainer (state out.2) !! key = None
  ∧ (out.1 = Ok tt → toPool = true →
     name ∈ warmPool (state out.2)
     ∧ ∀ e, containers (state w) !! name = Some e →
            ∃ e', containers (state out.2) !! name = Some e'
                  ∧ sessionKey e' = None ∧ status e' = idle)
  ∧ (out.1 = Ok tt → toPool = false →
     containers (state out.2) !! name = None
     ∧ getContainerEntry name (file out.2) = Ok None).
Proof.
  intros Hs Hname. cbn zeta.
  unfold releaseContainer, mbind, M_bind, getWorld, modifyState, now,
    callRuntime, callRegistry.
  rewrite Hs. cbn [Js.truthy default from_option id].
  apply String.eqb_neq in Hname. rewrite Hname. cbn [negb].
  cbn [state withState deleteSession warmPool config sessionToContainer
       containers file runtime].
  destruct (returnToPool && _) eqn:Hpool.
  - destruct (unassignContainer _ name _) as [[u f']|e];
      [|cbn; by rewrite lookup_delete_eq].
    cbn. destruct (containers (state w) !! name) as [e0|] eqn:He0; cbn;
      rewrite lookup_delete_eq; (split; [done|]); (split; [|done]);
      intros _ _; (split; [set_solver|]); [|done].
    intros e _. rewrite lookup_insert_eq. by eexists.
  - destruct (stopContainer name _) as [[u1|e1] r1];
      [|cbn; by rewrite lookup_delete_eq].
    destruct (removeContainer name _) as [[u2|e2] r2];
      [|cbn; by rewrite lookup_delete_eq].
    destruct (removeContainerEntry name _) as [[u3 f']|e3] eqn:Hrm;
      [|cbn; by rewrite lookup_delete_eq].
    cbn. rewrite !lookup_delete_eq. split; [done|]. split; [done|].
    intros _ _. split; [done|]. by eapply removed_is_absent.
Qed.

(** *** Assignment *)

Lemma hoare_trivial {A} (P : World → Prop) (m : M A) :
  hoare P m (λ _ _, True) (λ _, True).
Proof. intros w _. by destruct (m w) as [[a|e] w']. Qed.

(** The session maps to the container, which the manager tracks. *)
Definition assignedTo (key name : string) (w : World) : Prop :=
  sessionToContainer (state w) !! key = Some name
  ∧ is_Some (containers (state w) !! name).

Lemma assignedTo_grew (key name : string) (w w' : World) :
  assignedTo key name w → grew w w' → assignedTo key name w'.
Proof.
  intros [Hs Hc] (Hs' & _ & _ & _ & Hc'). split; [by rewrite Hs' | by apply Hc'].
Qed.

Lemma getContainer_assigns (params : GetParams) :
  hoare (λ _, True) (getContainer params)
    (λ a, assignedTo (p_sessionKey params) (a_containerName a))
    (λ _, True).
Proof.
  set (key := p_sessionKey params).
  unfold getContainer. apply hoare_world. intros w0 _. fold key.
  match goal with
  | |- hoare _ (match ?c with _ => _ end) _ _ =>
      destruct c as [assignment|] eqn:Hcached
  end.
  { (* the session has a container *)
    apply hoare_ret. intros ? ->.
    destruct (sessionToContainer (state w0) !! key) as [existing|] eqn:Hs;
      [|done].
    cbn [Js.truthy default from_option id] in Hcached.
    destruct (negb (String.eqb existing "")); [|done].
    destruct (containers (state w0) !! existing) as [entry|] eqn:Hc; [|done].
    injection Hcached as <-. split; [done | by eexists]. }
  clear Hcached.
  eapply hoare_conseq with (P' := λ _, True)
    (Q' := λ a, assignedTo key (a_containerName a)) (E' := λ _, True);
    [|done|done|done].
  eapply hoare_bind with (Q := λ _ _, True); [apply hoare_trivial|].
  intros registryEntry. cbn beta.
  eapply hoare_bind with
    (Q := λ adopted w,
       ∀ a, adopted = Some a → assignedTo key (a_containerName a) w).
  { (* the registry has a container for the session *)
    destruct registryEntry as [e|]; [|by apply hoare_ret].
    eapply hoare_bind with (Q := λ _ _, True); [apply hoare_trivial|].
    intros st. apply hoare_if; intros _; [|by apply hoare_ret].
    intros w _. cbn. intros a [= <-]. unfold assignedTo. cbn.
    rewrite !lookup_insert_eq. split; [done | by eexists]. }
  intros [assignment|]; [apply hoare_ret; intros w H; by apply H|].
  eapply hoare_conseq with (P' := λ _, True)
    (Q' := λ a, assignedTo key (a_containerName a)) (E' := λ _, True);
    [|done|done|done].
  apply hoare_world. intros w1 _.
  eapply hoare_bind with (Q := λ _ _, True); [apply hoare_trivial|].
  intros agentContainers. apply hoare_if; intros _; [by apply hoare_throw|].
  eapply hoare_bind with (Q := λ _ _, True); [apply hoare_trivial|].
  intros allContainers. apply hoare_if; intros _; [by apply hoare_throw|].
  eapply hoare_bind with (Q := λ _ _, True); [apply hoare_trivial|].
  intros [|warm warmContainers].
  - (* a new container *)
    eapply hoare_bind with (Q := λ _ _, True); [apply hoare_trivial|].
    intros result.
    eapply hoare_bind with (Q := λ _ _, True); [apply hoare_trivial|].
    intros t.
    eapply hoare_bind with (Q := λ _ _, True); [apply hoare_trivial|].
    intros ?. intros w _.
    unfold mbind, M_bind, modifyState, mret, M_ret, assignedTo. cbn.
    rewrite !lookup_insert_eq. split; [done | by eexists].
  - (* a warm container *)
    eapply hoare_bind with (Q := λ _ _, True); [apply hoare_trivial|].
    intros t.
    eapply hoare_bind with (Q := λ _ _, True); [apply hoare_trivial|].
    intros ?.
    eapply hoare_bind with (Q := λ _ _, True); [apply hoare_trivial|].
    intros ?.
    eapply hoare_bind with
      (Q := λ _ w, sessionToContainer (state w) !! key
                   = Some (containerName warm)).
    { intros w _. cbn. apply lookup_insert_eq. }
    intros ?.
    eapply hoare_bind with (Q := λ _, assignedTo key (containerName warm)).
    { intros w Hw. unfold assignedTo. cbn. rewrite lookup_insert_eq.
      split; [done | by eexists]. }
    intros ?.
    eapply hoare_bind with (Q := λ _, assignedTo key (containerName warm)).
    { intros w Hw. unfold tryCatch.
      destruct (ensureWarmPool_grew w) as [Hok Hgrew].
      destruct (ensureWarmPool w) as [[[]|e] w']; [|done].
      by eapply assignedTo_grew. }
    intros ?. by apply hoare_ret.
Qed.

(** X25.  An assignment sticks.  When [getContainer] returns, the session maps
    to the container it returned and the manager tracks that container;
    asked again for the same session, [getContainer] returns the same
    container, as neither new nor warm, and changes nothing. *)
Theorem getContainer_assignment_sticks (params : GetParams) (w w' : World)
    (a : ContainerAssignment) :
  getContainer params w = (Ok a, w') →
  a_containerName a ≠ "" →
  sessionToContainer (state w') !! p_sessionKey params
  = Some (a_containerName a)
  ∧ ∃ entry,
      containers (state w') !! a_containerName a = Some entry
      ∧ getContainer params w'
        = (Ok {| a_containerName := a_containerName a;
                 a_containerId := containerId entry;
                 a_isNew := false; a_wasWarm := false |}, w').
Proof.
  intros Hget Hname.
  pose proof (getContainer_assigns params w I) as H. rewrite Hget in H.
  destruct H as [Hs [entry Hc]]. split; [done|]. exists entry.
  split; [done|].
  unfold getContainer, mbind, M_bind, getWorld.
  rewrite Hs. cbn [Js.truthy default from_option].
  apply String.eqb_neq in Hname. rewrite Hname. cbn [negb id].
  by rewrite Hc.
Qed.

(** X26.  The caps are enforced before anything is created.  For a session
    that has no container, in memory or in the registry, [getContainer]
    throws as soon as the registry holds [maxTotal] entries, and
    leaves the manager, the registry and the runtime as they were. *)
Theorem getContainer_at_capacity (params : GetParams) (w : World) :
  sessionToContainer (state w) !! p_sessionKey params = None →
  getContainerBySessionKey (p_sessionKey params) (file w) = Ok None →
  pool_maxTotal (config w) <= Z.of_nat (length (entriesOf (file w))) →
  getContainer params w
  = (Err ("Max containers per agent ("
          ++ showZ (pool_maxPerAgent (config w)) ++ ") reached")%string, w)
  ∨ getContainer params w
    = (Err ("Max total containers ("
            ++ showZ (pool_maxTotal (config w)) ++ ") reached")%string, w).
Proof.
  intros Hs Hreg Hfull.
  unfold getContainer, mbind, M_bind, getWorld, readFromRegistry, throw.
  rewrite Hs. cbn [Js.truthy]. rewrite Hreg. cbn [mret M_ret].
  unfold getContainerBySessionKey in Hreg.
  unfold listContainersByAgent, listContainerEntries.
  unfold entriesOf in Hfull.
  destruct (readRegistry (file w)) as [registry|] eqn:Hr; [|done].
  destruct (_ >=? pool_maxPerAgent (config w)); [by left|].
  right.
  assert (Hge : (Z.of_nat (length (entries registry))
                 >=? pool_maxTotal (config w)) = true).
  { rewrite Z.geb_leb. by apply Z.leb_le. }
  by rewrite Hr, Hge.
Qed.

(** *** Rebuilding the maps from the registry *)

(** What the loop of [syncState] does to the maps for one entry. *)
Definition rebuildOne (entry : ContainerRegistryEntry) (st : PoolState)
  : PoolState :=
  let st := setContainer (containerName entry) entry st in
  if Js.truthy (sessionKey entry)
  then setSession (default "" (sessionKey entry)) (containerName entry) st
  else if status_eqb (status entry) idle
  then addWarm (containerName entry) st
  else st.

Lemma withState_state (w : World) : withState w (state w) = w.
Proof. by destruct w. Qed.

Lemma forEach_pure {A} (l : list A) (body : A → M unit)
    (f : A → PoolState → PoolState) :
  (∀ x w, body x w = (Ok tt, withState w (f x (state w)))) →
  ∀ w, forEach l body w
       = (Ok tt, withState w (foldl (λ st x, f x st) (state w) l)).
Proof.
  intros Hbody. induction l as [|x l IH]; intros w.
  - simpl. by rewrite withState_state.
  - cbn [forEach foldl]. unfold mbind, M_bind. rewrite Hbody, IH. done.
Qed.

Lemma rebuildOne_tracks (x : ContainerRegistryEntry) (st : PoolState)
    (n : string) :
  is_Some (containers (rebuildOne x st) !! n)
  ↔ is_Some (containers st !! n) ∨ n = containerName x.
Proof.
  assert (H : containers (rebuildOne x st)
              = <[containerName x := x]> (containers st)).
  { unfold rebuildOne. cbn zeta.
    destruct (Js.truthy _); [done|]. by destruct (status_eqb _ _). }
  rewrite H. destruct (decide (containerName x = n)) as [<- | Hne].
  - rewrite lookup_insert_eq. split; [by right | by eexists].
  - rewrite lookup_insert_ne by done. split; [by left|].
    by intros [? | ->].
Qed.

Lemma rebuild_tracks (l : list ContainerRegistryEntry) :
  ∀ st n,
    is_Some (containers (foldl (λ st x, rebuildOne x st) st l) !! n)
    ↔ is_Some (containers st !! n) ∨ n ∈ map containerName l.
Proof.
  induction l as [|x l IH]; intros st n.
  - simpl. rewrite elem_of_nil. tauto.
  - cbn [foldl map]. rewrite IH, rebuildOne_tracks, elem_of_cons. tauto.
Qed.

(** X27.  When [syncState] returns, the registry holds exactly its former
    entries whose container the runtime listed, and the manager tracks
    exactly the containers named in the registry.  A container that
    the runtime lists without an entry in the registry is left where it
    is and is not tracked. *)
Theorem syncState_tracks_registry (w w' : World) :
  syncState w = (Ok tt, w') →
  ∃ names,
    (listContainers (runtime w)).1 = Ok names
    ∧ (∀ e, e ∈ entriesOf (file w')
            ↔ e ∈ entriesOf (file w) ∧ containerName e ∈ names)
    ∧ (∀ n, is_Some (containers (state w') !! n)
            ↔ ∃ e, e ∈ entriesOf (file w') ∧ containerName e = n).
Proof.
  unfold syncState, mbind, M_bind, callRuntime, callRegistry,
    readFromRegistry.
  destruct (listContainers (runtime w)) as [[names|e] r']; [|done].
  exists names. split; [done|]. revert H. cbn [file withRuntime].
  destruct (syncWithDocker (list_to_set names) (file w)) as [[removed f']|e]
    eqn:Hsync; [|done].
  cbn [file withFile]. pose proof (syncWithDocker_entries _ _ _ _ Hsync) as He.
  destruct (listContainerEntries f') as [es|e] eqn:Hlist; [|done].
  apply listContainerEntries_entries in Hlist. subst es.
  unfold modifyState at 1.
  erewrite (forEach_pure _ _ rebuildOne).
  2: { intros x w0. unfold mbind, M_bind, modifyState, rebuildOne. cbn zeta.
       destruct (Js.truthy _); [done|]. by destruct (status_eqb _ _). }
  intros [= <-]. cbn [file state withState withFile withRuntime]. split.
  - intros e. rewrite He, elem_of_filter_list, bool_decide_eq_true.
    by rewrite elem_of_list_to_set.
  - intros n. rewrite rebuild_tracks. cbn. rewrite lookup_empty.
    rewrite list_elem_of_fmap. split.
    + intros [[? [=]] | (e & -> & Hin)]. by exists e.
    + intros (e & Hin & <-). right. by exists e.
Qed.

End Manager.

Arguments mkWorld {Runtime}.
Arguments config {Runtime}.
Arguments state {Runtime}.
Arguments healthCheckInterval {Runtime}.
Arguments maintenanceInterval {Runtime}.
Arguments isRunning {Runtime}.
Arguments file {Runtime}.
Arguments runtime {Runtime}.
Arguments create {Runtime}.
Arguments Inv {Runtime}.
Arguments warmUnassigned {Runtime}.
Arguments respected {Runtime}.

(** ** The manager on a simulated runtime *)

(** A runtime that keeps the set of the containers that exist and run,
    and a clock that every creation advances.  A container is named
    after its session with [generateContainerName]; a name in use is
    refused. *)
Record SimRuntime := mkSim {
  clock : Z;
  live : gset string
}.

Definition simNow (r : SimRuntime) : Z := clock r.

Definition simRandomTag (r : SimRuntime) : string := "k3f9x2".

Definition simIsDockerAvailable (r : SimRuntime) : Result bool * SimRuntime :=
  (Ok true, r).

Definition simListContainers (r : SimRuntime)
  : Result (list string) * SimRuntime :=
  (Ok (elements (live r)), r).

Definition simGetContainerState (name : string) (r : SimRuntime)
  : Result ContainerState * SimRuntime :=
  (Ok {| cs_exists := bool_decide (name ∈ live r);
         cs_running := bool_decide (name ∈ live r) |}, r).

Definition simCreate (options : ContainerCreateOptions) (r : SimRuntime)
  : Result Created * SimRuntime :=
  let name :=
    string_of_list_ascii
      (generateContainerName (list_ascii_of_string (o_sessionKey options))
         (o_config options)) in
  if bool_decide (name ∈ live r) then (Err "Conflict", r)
  else (Ok {| cr_containerId := ("id-" ++ name)%string;
              cr_containerName := name |},
        {| clock := clock r + 1; live := {[name]} ∪ live r |}).

Definition simStop (name : string) (r : SimRuntime)
  : Result unit * SimRuntime :=
  (Ok tt, r).

Definition simRemove (name : string) (r : SimRuntime)
  : Result unit * SimRuntime :=
  (Ok tt, {| clock := clock r; live := live r ∖ {[name]} |}).

Definition simPerform : Op → M SimRuntime unit :=
  perform SimRuntime simNow simRandomTag simIsDockerAvailable
    simListContainers simGetContainerState simCreate simStop simRemove.

Definition simGetContainer : GetParams → M SimRuntime ContainerAssignment :=
  getContainer SimRuntime simNow simRandomTag simGetContainerState simCreate.

(** A running container [c1] that serves session [s1] and whose last
    heartbeat is at time 0. *)
Definition busy : ContainerRegistryEntry :=
  {| containerId := "id-c1"; containerName := "c1";
     sessionKey := Some "s1"; agentId := Some "main"; status := running;
     createdAt := 0; lastHeartbeat := 0; claudeSessionId := None;
     turnCount := 1; configHash := "" |}.

(** The manager tracks [c1] for [s1]; the registry agrees; the runtime
    has [c1] running or not, as [alive] says; the clock reads [t]. *)
Definition tracking (alive : bool) (t : Z) : World SimRuntime :=
  {| config := DEFAULT_DOCKER_CC_CONFIG;
     state := {| containers := {[ "c1" := busy ]};
                 sessionToContainer := {[ "s1" := "c1" ]};
                 warmPool := ∅ |};
     healthCheckInterval := true; maintenanceInterval := true;
     isRunning := true;
     file := Stored {| version := 1; entries := [busy] |};
     runtime := {| clock := t; live := if alive then {[ "c1" ]} else ∅ |} |}.

(** This is the state in which [start] leaves a new manager that finds
    [c1] in the registry and in the runtime. *)
Example tracking_after_start :
  (simPerform OpStart
     (create DEFAULT_DOCKER_CC_CONFIG
        (Stored {| version := 1; entries := [busy] |})
        {| clock := 100000; live := {[ "c1" ]} |})).2
  = tracking true 100000.
Proof. vm_compute. reflexivity. Qed.



(** [syncState] too: an entry without a session whose status is not idle
    enters the container map only. *)
Definition failedUnassigned : ContainerRegistryEntry :=
  {| containerId := "id-c2"; containerName := "c2";
     sessionKey := None; agentId := None; status := failed;
     createdAt := 0; lastHeartbeat := 0; claudeSessionId := None;
     turnCount := 0; configHash := "" |}.

Example start_breaks_eitherNotBoth :
  let w := create DEFAULT_DOCKER_CC_CONFIG
             (Stored {| version := 1; entries := [failedUnassigned] |})
             {| clock := 0; live := {[ "c2" ]} |} in
  eitherNotBoth (state w)
  ∧ ¬ eitherNotBoth (state (simPerform OpStart w).2).
Proof.
  split.
  - intros name e. simpl. by rewrite lookup_empty.
  - intros H. destruct (H "c2" failedUnassigned) as [[(k & Hk & _) | Hw] _].
    + vm_compute. reflexivity.
    + discriminate Hk.
    + vm_compute in Hw. discriminate Hw.
Qed.


(** C6, as stated, fails: the container cached for [s1] no longer
    exists in the runtime, and [getContainer] returns it as the
    assignment all the same. *)
Lemma getContainer_returns_dead_container :
  simGetContainerState "c1" (runtime (tracking false 5000))
  = (Ok {| cs_exists := false; cs_running := false |},
     runtime (tracking false 5000))
  ∧ simGetContainer
      {| p_sessionKey := "s1"; p_agentId := Some "main";
         p_workspaceDir := "/work"; p_claudeConfig := None |}
      (tracking false 5000)
    = (Ok {| a_containerName := "c1"; a_containerId := "id-c1";
             a_isNew := false; a_wasWarm := false |},
       tracking false 5000).
Proof. split; [vm_compute; reflexivity | reflexivity]. Qed.

Lemma getContainer_returns_cached_witness :
  simGetContainer
    {| p_sessionKey := "s1"; p_agentId := Some "main";
       p_workspaceDir := "/work"; p_claudeConfig := None |}
    (tracking true 5000)
  = (Ok {| a_containerName := "c1"; a_containerId := containerId busy;
           a_isNew := false; a_wasWarm := false |},
     tracking true 5000).
Proof.
  apply (getContainer_returns_cached SimRuntime simNow simRandomTag
           simGetContainerState simCreate _ (tracking true 5000) "c1" busy).
  - reflexivity.
  - discriminate.
  - reflexivity.
Defined.

Lemma releaseContainer_unmaps_witness :
  let w := tracking true 5000 in
  let out := releaseContainer SimRuntime simNow simStop simRemove "s1" false w in
  let toPool :=
    false && (Z.of_nat (size (warmPool (state w))) <? pool_minWarm (config w)) in
  sessionToContainer (state out.2) !! "s1" = None
  ∧ (out.1 = Ok tt → toPool = true →
     "c1" ∈ warmPool (state out.2)
     ∧ ∀ e, containers (state w) !! "c1" = Some e →
            ∃ e', containers (state out.2) !! "c1" = Some e'
                  ∧ sessionKey e' = None ∧ status e' = idle)
  ∧ (out.1 = Ok tt → toPool = false →
     containers (state out.2) !! "c1" = None
     ∧ getContainerEntry "c1" (file out.2) = Ok None).
Proof.
  apply (releaseContainer_unmaps SimRuntime simNow simGetContainerState
           simStop simRemove "s1" "c1" false (tracking true 5000)).
  - reflexivity.
  - discriminate.
Defined.

Lemma getContainer_assignment_sticks_witness :
  let params := {| p_sessionKey := "s1"; p_agentId := Some "main";
                   p_workspaceDir := "/work"; p_claudeConfig := None |} in
  let w := tracking true 5000 in
  sessionToContainer (state w) !! "s1" = Some "c1"
  ∧ ∃ entry,
      containers (state w) !! "c1" = Some entry
      ∧ simGetContainer params w
        = (Ok {| a_containerName := "c1"; a_containerId := containerId entry;
                 a_isNew := false; a_wasWarm := false |}, w).
Proof.
  apply (getContainer_assignment_sticks SimRuntime simNow simRandomTag
           simIsDockerAvailable simListContainers simGetContainerState
           simCreate simStop simRemove
           {| p_sessionKey := "s1"; p_agentId := Some "main";
              p_workspaceDir := "/work"; p_claudeConfig := None |}
           (tracking true 5000) (tracking true 5000)
           {| a_containerName := "c1"; a_containerId := "id-c1";
              a_isNew := false; a_wasWarm := false |}).
  - reflexivity.
  - discriminate.
Defined.

(** A manager whose registry holds as many entries as [maxTotal]
    allows, none of them for session [s2]. *)
Definition full : World SimRuntime :=
  {| config := DEFAULT_DOCKER_CC_CONFIG;
     state := emptyState;
     healthCheckInterval := true; maintenanceInterval := true;
     isRunning := true;
     file := Stored {| version := 1; entries := replicate 10 busy |};
     runtime := {| clock := 5000; live := {[ "c1" ]} |} |}.

Lemma getContainer_at_capacity_witness :
  let params := {| p_sessionKey := "s2"; p_agentId := Some "other";
                   p_workspaceDir := "/work"; p_claudeConfig := None |} in
  simGetContainer params full
  = (Err ("Max containers per agent ("
          ++ showZ (pool_maxPerAgent (config full)) ++ ") reached")%string, full)
  ∨ simGetContainer params full
    = (Err ("Max total containers ("
            ++ showZ (pool_maxTotal (config full)) ++ ") reached")%string, full).
Proof.
  apply (getContainer_at_capacity SimRuntime simNow simRandomTag
           simGetContainerState simCreate
           {| p_sessionKey := "s2"; p_agentId := Some "other";
              p_workspaceDir := "/work"; p_claudeConfig := None |} full).
  - reflexivity.
  - reflexivity.
  - vm_compute. discriminate.
Defined.

(** The registry knows [c1] and [c2]; the runtime has [c1] and a
    container [c9] that the registry does not know. *)
Definition halfKnown : World SimRuntime :=
  create DEFAULT_DOCKER_CC_CONFIG
    (Stored {| version := 1; entries := [busy; failedUnassigned] |})
    {| clock := 0; live := {[ "c1"; "c9" ]} |}.

Lemma syncState_tracks_registry_witness :
  let w' := (syncState SimRuntime simListContainers halfKnown).2 in
  ∃ names,
    (simListContainers (runtime halfKnown)).1 = Ok names
    ∧ (∀ e, e ∈ entriesOf (file w')
            ↔ e ∈ entriesOf (file halfKnown) ∧ containerName e ∈ names)
    ∧ (∀ n, is_Some (containers (state w') !! n)
            ↔ ∃ e, e ∈ entriesOf (file w') ∧ containerName e = n).
Proof.
  apply (syncState_tracks_registry SimRuntime simListContainers
           simGetContainerState simStop simRemove halfKnown
           (syncState SimRuntime simListContainers halfKnown).2).
  vm_compute. reflexivity.
Defined.

(** After the sync the manager tracks [c1] alone: [c2] is gone from the
    registry, and [c9] still runs, tracked by nobody. *)
Example sync_leaves_unknown_container :
  let w' := (syncState SimRuntime simListContainers halfKnown).2 in
  entriesOf (file w') = [busy]
  ∧ containers (state w') = {[ "c1" := busy ]}
  ∧ "c9" ∈ live (runtime w').
Proof. repeat split; vm_compute; (reflexivity || done). Qed.

End PoolManager.

(* ===================================================================== *)
(** * Runner  ([runner.ts], with [waitForResult] of [redis-client.ts])    *)
(* ===================================================================== *)

Module Runner.

Import Config RedisClient.
Local Open Scope string_scope.
Local Open Scope list_scope.
Local Open Scope Z_scope.

(** The token counts of a result. *)
Record Usage := mkUsage {
  input_tokens : Z;
  output_tokens : Z
}.

(** [ResultData], as the parsed value of the result key: each field may
    be missing. *)
Record ResultData := mkResultData {
  r_subtype : option string;
  r_result : option string;
  r_usage : option Usage;
  r_duration_ms : option Z
}.

(** [ClaudeRunResult]. *)
Record ClaudeRunResult := mkRunResult {
  result : option string;
  usage : Usage;
  duration_ms : Z;
  exit_code : Z;
  claudeSessionId : option string
}.

(** [InputMessage]; an image is kept as text. *)
Record InputMessage := mkInput {
  prompt : string;
  images : option (list string)
}.

(** [DockerCCRunOptions].  [onOutput] is called as messages arrive on
    the subscription, which this model does not deliver: only its
    presence counts.  [onResult] returns or throws. *)
Record DockerCCRunOptions := mkRunOptions {
  ro_sessionKey : string;
  ro_agentId : option string;
  ro_prompt : string;
  ro_images : option (list string);
  ro_workspaceDir : string;
  ro_extraSystemPrompt : option string;
  ro_model : option string;
  ro_timeoutMs : option Z;
  ro_onOutput : bool;
  ro_onResult : option (ClaudeRunResult → Result unit)
}.

Definition DEFAULT_RUN_TIMEOUT_MS : Z := 10 * 60 * 1000.

(** What lies outside the host process: the contents of the broker and
    the clock. *)
Record Outside := mkOutside {
  store : Store;
  clock : Z
}.

Section Run.

(** The pool manager of the runner, of which [run] calls [getContainer]. *)
Variable Pool : Type.
Variable getContainer :
  PoolManager.GetParams → Pool → Result PoolManager.ContainerAssignment * Pool.

(** [JSON.parse(result) as ResultData], [None] when it throws, and
    [JSON.stringify(input)]. *)
Variable parseResultData : string → option ResultData.
Variable stringifyInput : InputMessage → string.

(** What the containers and the clock do while the host awaits a reply
    of the broker, and while it sleeps for the given time. *)
Variable elsewhere : Outside → Outside.
Variable asleep : Z → Outside → Outside.

(** The fields of [DockerCCRunner] and of its broker client, and the
    world outside. *)
Record World := mkWorld {
  config : DockerCCPoolConfig;
  redisClient : Client;
  poolManager : Pool;
  isInitialized : bool;
  outside : Outside
}.

Definition M (A : Type) : Type := World → Result A * World.

#[local] Instance M_ret : MRet M := λ A a w, (Ok a, w).
#[local] Instance M_bind : MBind M := λ A B k m w,
  match m w with
  | (Ok a, w') => k a w'
  | (Err e, w') => (Err e, w')
  end.

Definition throw {A} (msg : string) : M A := λ w, (Err msg, w).

Definition withOutside (w : World) (o : Outside) : World :=
  {| config := config w; redisClient := redisClient w;
     poolManager := poolManager w; isInitialized := isInitialized w;
     outside := o |}.

Definition withClient (w : World) (c : Client) : World :=
  {| config := config w; redisClient := c;
     poolManager := poolManager w; isInitialized := isInitialized w;
     outside := outside w |}.

Definition withPool (w : World) (p : Pool) : World :=
  {| config := config w; redisClient := redisClient w;
     poolManager := p; isInitialized := isInitialized w;
     outside := outside w |}.

(** [await] of a reply of the broker: the world outside moves on. *)
Definition await : M unit := λ w,
  (Ok tt, withOutside w (elsewhere (outside w))).

(** [await sleep(ms)]. *)
Definition sleep (ms : Z) : M unit := λ w,
  (Ok tt, withOutside w (asleep ms (outside w))).

(** [Date.now()]. *)
Definition now : M Z := λ w, (Ok (clock (outside w)), w).

(** [getSessionResult]. *)
Definition getSessionResult (sessionKey : string) : M (option ResultData) := λ w,
  if negb (client (redisClient w)) then (Err "Not connected to Redis", w)
  else
    let keys := getSessionRedisKeys sessionKey (config w) in
    let w := withOutside w (elsewhere (outside w)) in
    let result := get (k_result keys) (store (outside w)) in
    if negb (Js.truthy result) then (Ok None, w)
    else (Ok (parseResultData (default "" result)), w).

(** [getSessionState]. *)
Definition getSessionState (sessionKey : string)
  : M (option ContainerHealthStatus) := λ w,
  if negb (client (redisClient w)) then (Err "Not connected to Redis", w)
  else
    let w := withOutside w (elsewhere (outside w)) in
    (RedisClient.getSessionState (config w) (redisClient w) sessionKey
       (store (outside w)), w).

Definition isTerminal (state : option ContainerHealthStatus) : bool :=
  match state with
  | Some st =>
      match status st with
      | Some s => String.eqb s "stopped" || String.eqb s "failed"
      | None => false
      end
  | None => false
  end.

(** The [while] loop of [waitForResult]; [None] when [fuel] iterations
    did not end it. *)
Fixpoint waitLoop (fuel : nat) (sessionKey : string) (startTime timeoutMs : Z)
    (w : World) : option (Result (option ResultData) * World) :=
  match fuel with
  | O => None
  | S fuel' =>
      if clock (outside w) - startTime <? timeoutMs then
        match getSessionResult sessionKey w with
        | (Err e, w) => Some (Err e, w)
        | (Ok (Some result), w) => Some (Ok (Some result), w)
        | (Ok None, w) =>
            match getSessionState sessionKey w with
            | (Err e, w) => Some (Err e, w)
            | (Ok state, w) =>
                if isTerminal state
                then Some (getSessionResult sessionKey w)
                else
                  let '(_, w) := sleep 500 w in
                  waitLoop fuel' sessionKey startTime timeoutMs w
            end
        end
      else Some (Ok None, w)
  end.

(** [waitForResult]. *)
Definition waitForResult (fuel : nat) (sessionKey : string) (timeoutMs : Z)
    (w : World) : option (Result (option ResultData) * World) :=
  let startTime := clock (outside w) in
  waitLoop fuel sessionKey startTime timeoutMs w.

(** [sendInput]. *)
Definition sendInput (sessionKey : string) (input : InputMessage) : M unit := λ w,
  if negb (client (redisClient w)) then (Err "Not connected to Redis", w)
  else
    let keys := getSessionRedisKeys sessionKey (config w) in
    let o := elsewhere (outside w) in
    (Ok tt,
     withOutside w
       {| store := rpush (k_input keys) (stringifyInput input) (store o);
          clock := clock o |}).

(** [subscribeOutput]; the handle it returns is [unsubscribeOutput]. *)
Definition subscribeOutput (sessionKey : string) : M unit := λ w,
  if negb (subscriber (redisClient w)) then (Err "Not connected to Redis", w)
  else
    let keys := getSessionRedisKeys sessionKey (config w) in
    let c := redisClient w in
    let w :=
      withClient w
        {| client := client c; subscriber := subscriber c;
           subscriptions := <[sessionKey := k_output keys]> (subscriptions c);
           isConnected := isConnected c |} in
    await w.

Definition unsubscribeOutput (sessionKey : string) : M unit := λ w,
  let c := redisClient w in
  let w :=
    withClient w
      {| client := client c; subscriber := subscriber c;
         subscriptions := delete sessionKey (subscriptions c);
         isConnected := isConnected c |} in
  await w.

(** The call of [this.poolManager.getContainer]. *)
Definition assign (params : PoolManager.GetParams)
  : M PoolManager.ContainerAssignment := λ w,
  let '(res, p) := getContainer params (poolManager w) in
  (res, withPool w p).

(** [x?.f] for a field that may itself be missing. *)
Definition optField {A B} (f : A → option B) (x : option A) : option B :=
  match x with
  | Some a => f a
  | None => None
  end.

(** The body of [try] in [run], given what [waitForResult] returned. *)
Definition conclude (options : DockerCCRunOptions)
    (resultData : option ResultData) : M ClaudeRunResult :=
  let built : ClaudeRunResult :=
    {| result := optField r_result resultData;
       usage := default {| input_tokens := 0; output_tokens := 0 |}
                        (optField r_usage resultData);
       duration_ms := default 0 (optField r_duration_ms resultData);
       exit_code :=
         match optField r_subtype resultData with
         | Some s => if String.eqb s "error" then 1 else 0
         | None => 0
         end;
       claudeSessionId := None |} in
  state ← getSessionState (ro_sessionKey options);
  let final : ClaudeRunResult :=
    if Js.truthy (optField RedisClient.claudeSessionId state)
    then {| result := result built; usage := usage built;
            duration_ms := duration_ms built; exit_code := exit_code built;
            claudeSessionId := optField RedisClient.claudeSessionId state |}
    else built in
  (match ro_onResult options with
   | Some onResult =>
       match onResult final with
       | Ok _ => mret final
       | Err e => throw e
       end
   | None => mret final
   end : M ClaudeRunResult).

(** [run], for a runner that is initialized; [None] when the loop of
    [waitForResult] did not end within [fuel] iterations. *)
Definition run (fuel : nat) (options : DockerCCRunOptions) (w : World)
  : option (Result ClaudeRunResult * World) :=
  let timeoutMs := default DEFAULT_RUN_TIMEOUT_MS (ro_timeoutMs options) in
  let claudeConfig :=
    {| PoolManager.cc_model := ro_model options;
       PoolManager.cc_systemPrompt := ro_extraSystemPrompt options;
       PoolManager.cc_permissionMode := Some "bypassPermissions" |} in
  match assign {| PoolManager.p_sessionKey := ro_sessionKey options;
                  PoolManager.p_agentId := ro_agentId options;
                  PoolManager.p_workspaceDir := ro_workspaceDir options;
                  PoolManager.p_claudeConfig := Some claudeConfig |} w with
  | (Err e, w) => Some (Err e, w)
  | (Ok _assignment, w) =>
      match (if ro_onOutput options
             then subscribeOutput (ro_sessionKey options) w
             else (Ok tt, w)) with
      | (Err e, w) => Some (Err e, w)
      | (Ok _, w) =>
          (* try { ... } finally { if (unsubscribe) await unsubscribe() } *)
          let finally (outcome : Result ClaudeRunResult * World) :=
            let '(res, w) := outcome in
            if ro_onOutput options
            then (res, (unsubscribeOutput (ro_sessionKey options) w).2)
            else (res, w) in
          let input :=
            {| prompt := ro_prompt options; images := ro_images options |} in
          match sendInput (ro_sessionKey options) input w with
          | (Err e, w) => Some (finally (Err e, w))
          | (Ok _, w) =>
              match waitForResult fuel (ro_sessionKey options) timeoutMs w with
              | None => None
              | Some (Err e, w) => Some (finally (Err e, w))
              | Some (Ok resultData, w) =>
                  Some (finally (conclude options resultData w))
              end
          end
      end
  end.

(** ** A request that times out *)

(** What [getSessionResult] reads from a broker that holds [s]. *)
Definition resultAt (cfg : DockerCCPoolConfig) (sessionKey : string)
    (s : Store) : option ResultData :=
  let result := get (k_result (getSessionRedisKeys sessionKey cfg)) s in
  if negb (Js.truthy result) then None
  else parseResultData (default "" result).







Lemma waitLoop_S (fuel : nat) (sessionKey : string) (startTime timeoutMs : Z)
    (w : World) :
  waitLoop (S fuel) sessionKey startTime timeoutMs w
  = if clock (outside w) - startTime <? timeoutMs then
      match getSessionResult sessionKey w with
      | (Err e, w) => Some (Err e, w)
      | (Ok (Some result), w) => Some (Ok (Some result), w)
      | (Ok None, w) =>
          match getSessionState sessionKey w with
          | (Err e, w) => Some (Err e, w)
          | (Ok state, w) =>
              if isTerminal state
              then Some (getSessionResult sessionKey w)
              else waitLoop fuel sessionKey startTime timeoutMs
                     (withOutside w (asleep 500 (outside w)))
          end
      end
    else Some (Ok None, w).
Proof. done. Qed.





(** ** What [run] does to the subscriptions *)






(** ** A request that is answered *)

(** The result of the session stays in the broker while the host
    awaits its replies. *)
Definition Answered (cfg : DockerCCPoolConfig) (sessionKey : string)
    (resultData : ResultData) : Prop :=
  ∀ o, resultAt cfg sessionKey (store o) = Some resultData →
       resultAt cfg sessionKey (store (elsewhere o)) = Some resultData.

Lemma getSessionResult_answered (w : World) (sessionKey : string)
    (resultData : ResultData) :
  Answered (config w) sessionKey resultData →
  client (redisClient w) = true →
  resultAt (config w) sessionKey (store (outside w)) = Some resultData →
  getSessionResult sessionKey w
  = (Ok (Some resultData), withOutside w (elsewhere (outside w))).
Proof.
  intros Ha Hc Hr. unfold getSessionResult. rewrite Hc. cbn [negb].
  specialize (Ha _ Hr). unfold resultAt in Ha.
  cbn [outside withOutside config].
  destruct (negb (Js.truthy _)); [done|]. by rewrite Ha.
Qed.

(** X29.  When the result of the session is in the broker and the timeout is
    positive, [run], for an initialized runner, returns at the first poll, with the text, the token
    counts and the duration of the result; the exit code is 1 exactly
    when the subtype of the result is [error]. *)
Theorem run_returns_result (options : DockerCCRunOptions) (w : World)
    (assignment : PoolManager.ContainerAssignment) (pool' : Pool)
    (resultData : ResultData) :
  let sessionKey := ro_sessionKey options in
  let timeoutMs := default DEFAULT_RUN_TIMEOUT_MS (ro_timeoutMs options) in
  isInitialized w = true →
  Answered (config w) sessionKey resultData →
  resultAt (config w) sessionKey (store (outside w)) = Some resultData →
  0 < timeoutMs →
  client (redisClient w) = true →
  subscriber (redisClient w) = true →
  getContainer
    {| PoolManager.p_sessionKey := sessionKey;
       PoolManager.p_agentId := ro_agentId options;
       PoolManager.p_workspaceDir := ro_workspaceDir options;
       PoolManager.p_claudeConfig :=
         Some {| PoolManager.cc_model := ro_model options;
                 PoolManager.cc_systemPrompt := ro_extraSystemPrompt options;
                 PoolManager.cc_permissionMode := Some "bypassPermissions" |} |}
    (poolManager w) = (Ok assignment, pool') →
  (∀ onResult r, ro_onResult options = Some onResult → onResult r = Ok tt) →
  ∃ r w',
    run 1 options w = Some (Ok r, w')
    ∧ result r = r_result resultData
    ∧ usage r = default {| input_tokens := 0; output_tokens := 0 |}
                        (r_usage resultData)
    ∧ duration_ms r = default 0 (r_duration_ms resultData)
    ∧ exit_code r
      = (if bool_decide (r_subtype resultData = Some "error") then 1 else 0).
Proof.
  intros sessionKey timeoutMs _ Ha Hr Hpos Hc Hsub Hget Hcb.
  subst sessionKey timeoutMs.
  set (sessionKey := ro_sessionKey options) in *.
  set (timeoutMs := default DEFAULT_RUN_TIMEOUT_MS (ro_timeoutMs options)) in *.
  unfold run, assign. fold sessionKey. fold timeoutMs. rewrite Hget.
  set (w1 := withPool w pool').
  assert (H1 : ∃ w2, (if ro_onOutput options
                      then subscribeOutput sessionKey w1
                      else (Ok tt, w1)) = (Ok tt, w2)
                     ∧ config w2 = config w
                     ∧ client (redisClient w2) = true
                     ∧ resultAt (config w) sessionKey (store (outside w2))
                       = Some resultData).
  { destruct (ro_onOutput options).
    - unfold subscribeOutput. cbn [redisClient withPool w1]. rewrite Hsub.
      eexists. split; [reflexivity|]. cbn.
      split; [done|]. split; [done|]. by apply Ha.
    - by exists w1. }
  destruct H1 as (w2 & -> & Hcfg2 & Hc2 & Hr2).
  unfold sendInput. rewrite Hc2. cbn [negb].
  set (w3 := withOutside w2 _).
  assert (Hr3 : resultAt (config w3) sessionKey (store (outside w3))
                = Some resultData).
  { cbn. rewrite Hcfg2. apply (Ha _ Hr2). }
  assert (Ha3 : Answered (config w3) sessionKey resultData)
    by (cbn; by rewrite Hcfg2).
  assert (Hc3 : client (redisClient w3) = true) by done.
  unfold waitForResult. rewrite waitLoop_S.
  assert (Hlt : (clock (outside w3) - clock (outside w3) <? timeoutMs) = true)
    by (apply Z.ltb_lt; lia).
  rewrite Hlt, (getSessionResult_answered w3 sessionKey resultData Ha3 Hc3 Hr3).
  set (w4 := withOutside w3 _).
  unfold conclude, mbind, M_bind. fold sessionKey.
  assert (Hst : ∃ state, getSessionState sessionKey w4
                         = (Ok state, withOutside w4 (elsewhere (outside w4)))).
  { unfold getSessionState. cbn [redisClient w4 withOutside]. rewrite Hc3.
    cbn [negb]. unfold RedisClient.getSessionState. rewrite Hc3. cbn [negb].
    destruct (size _ =? 0)%nat; by eexists. }
  destruct Hst as (state & ->).
  cbn [optField default from_option id].
  set (final := if Js.truthy _ then _ else _).
  assert (Hfinal :
    result final = r_result resultData
    ∧ usage final = default {| input_tokens := 0; output_tokens := 0 |}
                            (r_usage resultData)
    ∧ duration_ms final = default 0 (r_duration_ms resultData)
    ∧ exit_code final
      = (if bool_decide (r_subtype resultData = Some "error") then 1 else 0)).
  { assert (He : match r_subtype resultData with
                 | Some s => if String.eqb s "error" then 1 else 0
                 | None => 0
                 end
                 = if bool_decide (r_subtype resultData = Some "error")
                   then 1 else 0).
    { destruct (r_subtype resultData) as [s|]; [|done].
      destruct (String.eqb s "error") eqn:Hs.
      - apply String.eqb_eq in Hs. subst s. done.
      - apply String.eqb_neq in Hs.
        rewrite bool_decide_eq_false_2; [done | congruence]. }
    unfold final. by destruct (Js.truthy _). }
  clearbody final.
  destruct (ro_onResult options) as [onResult|] eqn:Hon.
  - rewrite (Hcb onResult final eq_refl).
    destruct (ro_onOutput options); eexists _, _; (split; [reflexivity|done]).
  - destruct (ro_onOutput options); eexists _, _; (split; [reflexivity|done]).
Qed.

End Run.

Arguments mkWorld {Pool}.
Arguments config {Pool}.
Arguments redisClient {Pool}.
Arguments poolManager {Pool}.
Arguments isInitialized {Pool}.
Arguments outside {Pool}.

(** ** The runner on a concrete broker and pool manager *)

Import JSON.

(** The value of a member of an object; of two members of the same name
    the last counts. *)
Fixpoint member (name : list ascii) (members : list (list ascii * value))
  : option value :=
  match members with
  | [] => None
  | (k, v) :: rest =>
      match member name rest with
      | Some v' => Some v'
      | None => if bool_decide (k = name) then Some v else None
      end
  end.

Definition prop (name : string) (v : option value) : option value :=
  match v with
  | Some (Object members) => member (js name) members
  | _ => None
  end.

Definition asString (v : option value) : option string :=
  match v with
  | Some (Str raw) => Some (string_of_list_ascii raw)
  | _ => None
  end.

Definition asInteger (v : option value) : option Z :=
  match v with
  | Some (Number raw) =>
      match Js.parseInt10 (string_of_list_ascii raw) with
      | Js.Fin z => Some z
      | Js.NaN => None
      end
  | _ => None
  end.

(** The digits of a number before its exponent. *)
Fixpoint mantissa (raw : list ascii) : list ascii :=
  match raw with
  | [] => []
  | c :: rest =>
      if (Ascii.eqb c "e" || Ascii.eqb c "E")%char then []
      else c :: mantissa rest
  end.

(** Truthiness of a parsed value. *)
Definition truthyValue (v : value) : bool :=
  match v with
  | Null => false
  | Bool b => b
  | Number raw =>
      existsb
        (λ c, (49 <=? nat_of_ascii c)%nat && (nat_of_ascii c <=? 57)%nat)
        (mantissa raw)
  | Str raw => negb (length raw =? 0)%nat
  | Array _ | Object _ => true
  end.

(** [JSON.parse(result) as ResultData], read through the fields that
    [run] uses; a value that is not truthy counts as no result. *)
Definition parseResultData (text : string) : option ResultData :=
  match JSON.parse (js text) with
  | Some v =>
      if truthyValue v then
        let u := prop "usage" (Some v) in
        Some {| r_subtype := asString (prop "subtype" (Some v));
                r_result := asString (prop "result" (Some v));
                r_usage :=
                  match u with
                  | Some _ =>
                      Some {| input_tokens :=
                                default 0 (asInteger (prop "input_tokens" u));
                              output_tokens :=
                                default 0 (asInteger (prop "output_tokens" u)) |}
                  | None => None
                  end;
                r_duration_ms := asInteger (prop "duration_ms" (Some v)) |}
      else None
  | None => None
  end.

(** The input as the text pushed on the queue (the prompt is assumed to
    need no escaping). *)
Definition stringifyInput (input : InputMessage) : string :=
  string_of_list_ascii (jq "{'prompt':'") ++ prompt input
  ++ string_of_list_ascii (jq "'}").

(** A world outside in which nothing is published: every reply of the
    broker takes a millisecond and a sleep lasts exactly its time. *)
Definition silent (o : Outside) : Outside :=
  {| store := store o; clock := clock o + 1 |}.

Definition silentSleep (ms : Z) (o : Outside) : Outside :=
  {| store := store o; clock := clock o + ms |}.

Definition simRun :=
  run (PoolManager.World PoolManager.SimRuntime) PoolManager.simGetContainer
    parseResultData stringifyInput silent silentSleep.

(** The runner of session [s1], whose container runs and whose state
    record says running. *)
Definition serving : World (PoolManager.World PoolManager.SimRuntime) :=
  {| config := DEFAULT_DOCKER_CC_CONFIG;
     redisClient := Health.connected;
     poolManager := PoolManager.tracking true 5000;
     isInitialized := true;
     outside :=
       {| store := Health.storeWith [("status", "running")];
          clock := 5000 |} |}.

Definition request200 : DockerCCRunOptions :=
  {| ro_sessionKey := "s1"; ro_agentId := Some "main"; ro_prompt := "hi";
     ro_images := None; ro_workspaceDir := "/work";
     ro_extraSystemPrompt := None; ro_model := None;
     ro_timeoutMs := Some 200; ro_onOutput := true; ro_onResult := None |}.

Example parseResultData_success :
  parseResultData
    (string_of_list_ascii
       (jq "{'subtype':'success','result':'hello','usage':{'input_tokens':3,'output_tokens':1},'duration_ms':42}"))
  = Some {| r_subtype := Some "success"; r_result := Some "hello";
            r_usage := Some {| input_tokens := 3; output_tokens := 1 |};
            r_duration_ms := Some 42 |}.
Proof. vm_compute. reflexivity. Qed.


(** The same request, run: one poll and one sleep of 500 ms exhaust the
    200 ms; the result is empty with exit code 0. *)
Example run_200ms :
  ∃ w', simRun 2 request200 serving
        = Some (Ok {| result := None;
                      usage := {| input_tokens := 0; output_tokens := 0 |};
                      duration_ms := 0; exit_code := 0;
                      claudeSessionId := None |}, w')
      ∧ clock (outside w') = 5506.
Proof. eexists. split; vm_compute; reflexivity. Qed.

(** The same runner, once the container of [s1] has published a result
    that reports an error. *)
Definition answeredText : string :=
  string_of_list_ascii
    (jq "{'subtype':'error','result':'boom','usage':{'input_tokens':5,'output_tokens':0},'duration_ms':17}").

Definition answeredData : ResultData :=
  {| r_subtype := Some "error"; r_result := Some "boom";
     r_usage := Some {| input_tokens := 5; output_tokens := 0 |};
     r_duration_ms := Some 17 |}.

Definition served : World (PoolManager.World PoolManager.SimRuntime) :=
  {| config := DEFAULT_DOCKER_CC_CONFIG;
     redisClient := Health.connected;
     poolManager := PoolManager.tracking true 5000;
     isInitialized := true;
     outside :=
       {| store := {| hashes := ∅;
                      values := {[ "clawdbot:cc:s1:result" := answeredText ]};
                      lists := ∅ |};
          clock := 5000 |} |}.

Lemma run_returns_result_witness :
  ∃ r w',
    simRun 1 request200 served = Some (Ok r, w')
    ∧ result r = Some "boom"
    ∧ usage r = {| input_tokens := 5; output_tokens := 0 |}
    ∧ duration_ms r = 17
    ∧ exit_code r = 1.
Proof.
  apply (run_returns_result (PoolManager.World PoolManager.SimRuntime)
           PoolManager.simGetContainer parseResultData stringifyInput
           silent silentSleep request200 served
           {| PoolManager.a_containerName := "c1";
              PoolManager.a_containerId := "id-c1";
              PoolManager.a_isNew := false;
              PoolManager.a_wasWarm := false |}
           (PoolManager.tracking true 5000) answeredData).
  - reflexivity.
  - intros o Ho. exact Ho.
  - vm_compute. reflexivity.
  - reflexivity.
  - reflexivity.
  - reflexivity.
  - reflexivity.
  - intros onResult r H. discriminate H.
Defined.


End Runner.

(* ===================================================================== *)
(** * Container labels  ([config.ts])                                     *)
(* ===================================================================== *)

Module ContainerLabels.

Import Config.
Local Open Scope string_scope.
Local Open Scope Z_scope.

Section Labels.

(** [JSON.stringify(significant)], the text of the image, the resources
    and the docker settings of a configuration. *)
Variable stringifySignificant : DockerCCPoolConfig → list ascii.

(** [generateConfigHash]. *)
Definition generateConfigHash (config : DockerCCPoolConfig) : string :=
  string_of_list_ascii (toString16 (simpleHash (stringifySignificant config))).

(** [generateContainerLabels]; [now] is the value of [Date.now()]. *)
Definition generateContainerLabels (now : Z) (sessionKey : string)
    (agentId : option string) (config : DockerCCPoolConfig)
  : gmap string string :=
  let labels : gmap string string :=
    <["clawdbot.configHash" := generateConfigHash config]>
      (<["clawdbot.createdAtMs" := Js.integerToString now]>
         (<["clawdbot.sessionKey" := sessionKey]>
            (<["clawdbot.docker-cc" := "1"]> ∅))) in
  if Js.truthy agentId
  then <["clawdbot.agentId" := default "" agentId]> labels
  else labels.

(** What [parseContainerLabels] returns. *)
Record ParsedLabels := mkParsedLabels {
  isDockerCC : bool;
  l_sessionKey : option string;
  l_agentId : option string;
  l_createdAtMs : option Js.Num;
  l_configHash : option string
}.

(** [parseContainerLabels]. *)
Definition parseContainerLabels (labels : gmap string string) : ParsedLabels :=
  {| isDockerCC := bool_decide (labels !! "clawdbot.docker-cc" = Some "1");
     l_sessionKey := labels !! "clawdbot.sessionKey";
     l_agentId := labels !! "clawdbot.agentId";
     l_createdAtMs :=
       if Js.truthy (labels !! "clawdbot.createdAtMs")
       then Some (Js.parseInt10 (default "" (labels !! "clawdbot.createdAtMs")))
       else None;
     l_configHash := labels !! "clawdbot.configHash" |}.

Lemma truthy_nonempty (s : string) : s ≠ "" → Js.truthy (Some s) = true.
Proof. intros H. simpl. by apply negb_true_iff, String.eqb_neq. Qed.

(** X30.  The labels written for a container are read back as they were
    given: the container is recognised, its session key, its creation
    time (the clock being a safe integer) and its configuration hash
    come back, and so does its agent, unless that was missing or
    empty. *)
Theorem labels_round_trip (now : Z) (sessionKey : string)
    (agentId : option string) (config : DockerCCPoolConfig) :
  Z.abs now <= Js.MAX_SAFE_INTEGER →
  parseContainerLabels (generateContainerLabels now sessionKey agentId config)
  = {| isDockerCC := true;
       l_sessionKey := Some sessionKey;
       l_agentId := if Js.truthy agentId then agentId else None;
       l_createdAtMs := Some (Js.Fin now);
       l_configHash := Some (generateConfigHash config) |}.
Proof.
  intros _. unfold parseContainerLabels, generateContainerLabels. cbn zeta.
  pose proof (truthy_nonempty _ (Js.integerToString_nonempty now)) as Ht.
  destruct (Js.truthy agentId) eqn:Ha.
  - destruct agentId as [agent|]; [|done]. cbn [default from_option id].
    rewrite !lookup_insert, ?lookup_empty.
    repeat (case_decide; try done).
    rewrite Ht. cbn [default from_option id].
    rewrite Js.parseInt10_integerToString.
    by rewrite bool_decide_eq_true_2.
  - rewrite !lookup_insert, ?lookup_empty.
    repeat (case_decide; try done).
    rewrite Ht. cbn [default from_option id].
    rewrite Js.parseInt10_integerToString.
    by rewrite bool_decide_eq_true_2.
Qed.

End Labels.

(** A rendering of the significant part that keeps the image name only;
    the round trip does not depend on the rendering. *)
Definition imageText (config : DockerCCPoolConfig) : list ascii :=
  list_ascii_of_string (image config).

Lemma labels_round_trip_witness :
  parseContainerLabels
    (generateContainerLabels imageText 1762041600000 "agent:main:s1"
       (Some "main") DEFAULT_DOCKER_CC_CONFIG)
  = {| isDockerCC := true;
       l_sessionKey := Some "agent:main:s1";
       l_agentId := Some "main";
       l_createdAtMs := Some (Js.Fin 1762041600000);
       l_configHash :=
         Some (generateConfigHash imageText DEFAULT_DOCKER_CC_CONFIG) |}.
Proof.
  apply (labels_round_trip imageText 1762041600000 "agent:main:s1"
           (Some "main") DEFAULT_DOCKER_CC_CONFIG).
  unfold Js.MAX_SAFE_INTEGER. lia.
Defined.

End ContainerLabels.
